(** * hello-myo.cpp ("Bike signs"): a shallow embedding and its properties

    The program is one [myo::DeviceListener] subclass, [DataCollector], with
    two callbacks ([onOrientationData], [onPose]), one [print] member and a
    [main] that polls the device hub.  The embedding follows the C++ text
    (line numbers are those of hello-myo.cpp):

    - [float] is IEEE-754 binary32 and [double] is binary64, both taken from
      the Standard Library's executable specification [SpecFloat]
      (round-to-nearest-even, every operation rounded to its own format,
      i.e. FLT_EVAL_METHOD = 0 and no contraction);
    - [int] is a 32-bit two's complement integer carried as a [Z]; an
      out-of-range conversion or overflow is undefined behaviour;
    - [std::size_t] is a 64-bit unsigned integer carried as a [Z] with its
      wrap-around written out;
    - a member function takes the object and returns the object after the
      call, together with what it sent to the SDK or to [std::cout];
    - the functions of <cmath> that IEEE-754 does not define ([atan2f],
      [asinf]) and the types of the closed SDK header <myo.hpp> are
      parameters of the development; exceptions thrown inside the SDK are
      not modelled. *)

From Stdlib Require Import ZArith Lia List String Ascii Bool.
From Stdlib Require Import Floats.SpecFloat.
From Stdlib Require Import Reals Lra.
Import ListNotations.

Local Open Scope Z_scope.

(** ** Outcomes of a C++ computation *)

(** The two exception classes the program can see, both derived from
    [std::exception]: the [std::runtime_error] thrown by [main] and the
    [std::length_error] thrown by the fill constructor of [std::string]. *)
Inductive exn : Type :=
| runtime_error (what : string)
| length_error.

Inductive outcome (A : Type) : Type :=
| Ok (a : A)
| Throw (e : exn)
| Undefined.

Arguments Ok {A} a.
Arguments Throw {A} e.
Arguments Undefined {A}.

Definition bind {A B : Type} (m : outcome A) (k : A -> outcome B) : outcome B :=
  match m with
  | Ok a => k a
  | Throw e => Throw e
  | Undefined => Undefined
  end.

Notation "x <- m ;; k" := (bind m (fun x => k))
  (at level 61, m at next level, right associativity).

(** ** Machine arithmetic *)

(** [int]: 32 bits, two's complement. *)
Module Int.
Definition INT_MIN : Z := - 2 ^ 31.
Definition INT_MAX : Z := 2 ^ 31 - 1.

Definition in_range (z : Z) : bool := (INT_MIN <=? z) && (z <=? INT_MAX).

(** Signed overflow is undefined behaviour. *)
Definition checked (z : Z) : outcome Z :=
  if in_range z then Ok z else Undefined.

Definition sub (a b : Z) : outcome Z := checked (a - b).
End Int.

(** [std::size_t]: 64 bits, unsigned, arithmetic modulo [2^64]. *)
Module Size.
Definition modulus : Z := 2 ^ 64.

(** Integral conversion to [size_t] (of an [int] or of a difference). *)
Definition of_Z (z : Z) : Z := z mod modulus.

Definition sub (a b : Z) : Z := of_Z (a - b).
End Size.

(** ** IEEE-754 binary32 and binary64 *)

Module F32.
Definition prec : Z := 24.
Definition emax : Z := 128.

Definition add := SFadd prec emax.
Definition sub := SFsub prec emax.
Definition mul := SFmul prec emax.
Definition div := SFdiv prec emax.
Definition sqrt := SFsqrt prec emax.
Definition valid := valid_binary prec emax.

(** Conversion of a float of another format, rounding to nearest even;
    used for the cast [(float)M_PI]. *)
Definition round (x : spec_float) : spec_float :=
  match x with
  | S754_finite s m e => binary_round prec emax s m e
  | _ => x
  end.

(** The literals [0.0f], [1.0f] and [2.0f]. *)
Definition zero : spec_float := S754_zero false.
Definition one : spec_float := S754_finite false 8388608 (-23).
Definition two : spec_float := S754_finite false 8388608 (-22).
End F32.

Module F64.
Definition prec : Z := 53.
Definition emax : Z := 1024.

Definition add := SFadd prec emax.
Definition sub := SFsub prec emax.
Definition mul := SFmul prec emax.
Definition div := SFdiv prec emax.
Definition valid := valid_binary prec emax.

(** The usual arithmetic conversion [float] -> [double]: exact, it only
    renormalises the mantissa to 53 bits. *)
Definition of_float (x : spec_float) : spec_float :=
  match x with
  | S754_finite s m e => binary_round prec emax s m e
  | _ => x
  end.

(** Conversion of an [int] operand (the literal [18]) to [double]. *)
Definition of_int (z : Z) : spec_float := binary_normalize prec emax z 0 false.
End F64.

(** The truncation of a floating-point value towards zero; infinities and
    NaN have none. *)
Definition Ztrunc (x : spec_float) : option Z :=
  match x with
  | S754_zero _ => Some 0
  | S754_finite s m e =>
      let mag := Z.shiftl (Zpos m) e in
      Some (if s then - mag else mag)
  | S754_infinity _ | S754_nan => None
  end.

(** [static_cast<int>(x)] for a floating-point [x]: the value is truncated;
    the behaviour is undefined when the truncated value is not an [int]. *)
Definition static_cast_int (x : spec_float) : outcome Z :=
  match Ztrunc x with
  | Some z => Int.checked z
  | None => Undefined
  end.

(** [M_PI] of <cmath>, the macro [3.14159265358979323846], as the [double]
    nearest to that decimal: 0x400921FB54442D18. *)
Definition M_PI : spec_float := S754_finite false 7074237752028440 (-51).

(** [(float)M_PI]. *)
Definition M_PI_f : spec_float := F32.round M_PI.

(** ** std::string *)

(** [max_size()] of [std::string] (libstdc++'s value on an LP64 target); all
    that matters below is that it is at least 18 and below [SIZE_MAX]. *)
Definition string_max_size : Z := 2 ^ 62 - 1.

Fixpoint string_repeat (n : nat) (ch : ascii) : string :=
  match n with
  | O => EmptyString
  | S n' => String ch (string_repeat n' ch)
  end.

(** The fill constructor [std::string(count, ch)], [count] a [size_t]: it
    throws [std::length_error] when [count > max_size()]. *)
Definition string_fill (count : Z) (ch : ascii) : outcome string :=
  if count <=? string_max_size
  then Ok (string_repeat (Z.to_nat count) ch)
  else Throw length_error.

Definition string_size (s : string) : Z := Z.of_nat (String.length s).

Definition hex_digit (d : Z) : ascii :=
  nth (Z.to_nat d)
    ["0"; "1"; "2"; "3"; "4"; "5"; "6"; "7"; "8"; "9"; "a"; "b"; "c"; "d"; "e"; "f"]%char
    "0"%char.

Fixpoint hex_digits (fuel : nat) (n : Z) (acc : string) : string :=
  match fuel with
  | O => acc
  | S fuel' =>
      let acc' := String (hex_digit (n mod 16)) acc in
      if n / 16 =? 0 then acc' else hex_digits fuel' (n / 16) acc'
  end.

(** [operator<<] of a [uint64_t] under [std::hex]: at most 16 digits. *)
Definition to_hex (n : Z) : string := hex_digits 16 n EmptyString.

(** [std::setfill(fill) << std::setw(width)] applied to the next item
    (right-adjusted, the default). *)
Definition setw (width : nat) (fill : ascii) (s : string) : string :=
  (string_repeat (width - String.length s) fill ++ s)%string.

(** [std::endl] *)
Definition endl : string := String "010"%char EmptyString.

(** ** The SDK's plain data (myo.hpp) *)

Module myo.

(** [myo::Quaternion<float>] with its accessors [x()], [y()], [z()], [w()]. *)
Record Quaternion : Type := mkQuaternion
  { x : spec_float; y : spec_float; z : spec_float; w : spec_float }.

(** [myo::Myo::VibrationType] *)
Inductive VibrationType : Type :=
| VibrationShort
| VibrationMedium
| VibrationLong.

End myo.

(** ** A sample instance of the parameters

    The development below is parametric in <cmath>'s [atan2f] and [asinf]
    and in the SDK's [myo::Pose].  This instance is what closed examples are
    evaluated on. *)

Module Sample.

(** The values C's Annex F (F.10.1.4) fixes for [atan2] when [y] is a zero
    or an argument is a NaN; other arguments are outside this table and map
    to NaN here. *)
Definition atan2f (y x : spec_float) : spec_float :=
  match y, x with
  | S754_zero s, S754_finite false _ _ => S754_zero s
  | S754_zero s, S754_infinity false => S754_zero s
  | S754_zero s, S754_zero false => S754_zero s
  | S754_zero s, S754_finite true _ _ => if s then SFopp M_PI_f else M_PI_f
  | S754_zero s, S754_infinity true => if s then SFopp M_PI_f else M_PI_f
  | S754_zero s, S754_zero true => if s then SFopp M_PI_f else M_PI_f
  | _, _ => S754_nan
  end.

(** The values Annex F (F.10.1.2) fixes for [asin]: a zero maps to itself;
    an argument of magnitude above 1 or a NaN maps to NaN. *)
Definition asinf (x : spec_float) : spec_float :=
  match x with
  | S754_zero s => S754_zero s
  | _ => S754_nan
  end.

(** A pose is identified with its name. *)
Definition Pose : Type := string.
Definition Pose_eq_dec : forall p q : Pose, {p = q} + {p <> q} := string_dec.
Definition fist : Pose := "fist"%string.
Definition Pose_default : Pose := "none"%string.
Definition toString (p : Pose) : string := p.

(** A device handle is identified with its MAC address. *)
Definition Myo : Type := Z.
Definition macAddress (m : Myo) : Z := m.

(** libstdc++'s [what()] of the [std::length_error] of the fill constructor. *)
Definition length_error_what : string := "basic_string::_M_create"%string.

End Sample.

(** ** The program *)

Section Program.

(** <cmath> *)
Variable atan2f : spec_float -> spec_float -> spec_float.
Variable asinf : spec_float -> spec_float.

(** <myo.hpp>: [myo::Myo] (a device handle) and [myo::Pose] with its
    [operator==], its default constructor, the enumerator [fist] and
    [toString()]. *)
Variable Myo : Type.
Variable macAddress : Myo -> Z.
Variable Pose : Type.
Variable Pose_eq_dec : forall p q : Pose, {p = q} + {p <> q}.
Variable Pose_default : Pose.
Variable fist : Pose.
Variable toString : Pose -> string.

(** [what()] of a [std::length_error]: implementation-defined text. *)
Variable length_error_what : string.

(** The data members of [DataCollector] (lines 84-85). *)
Record DataCollector : Type := mkDataCollector
  { roll_w : Z; pitch_w : Z; yaw_w : Z; currentPose : Pose }.

(** The constructor (lines 18-21). *)
Definition DataCollector_new : DataCollector :=
  {| roll_w := 0; pitch_w := 0; yaw_w := 0; currentPose := Pose_default |}.

(** *** onOrientationData (lines 24-45) *)

(** Line 31. *)
Definition norm (quat : myo.Quaternion) : spec_float :=
  let '(myo.mkQuaternion x y z w) := quat in
  F32.sqrt (F32.add (F32.add (F32.add (F32.mul x x) (F32.mul y y)) (F32.mul z z))
                    (F32.mul w w)).

(** Line 32. *)
Definition normalized (quat : myo.Quaternion) : myo.Quaternion :=
  let norm := norm quat in
  myo.mkQuaternion (F32.div (myo.x quat) norm) (F32.div (myo.y quat) norm)
                   (F32.div (myo.z quat) norm) (F32.div (myo.w quat) norm).

(** Lines 35-36. *)
Definition roll (normalized : myo.Quaternion) : spec_float :=
  let '(myo.mkQuaternion x y z w) := normalized in
  atan2f (F32.mul F32.two (F32.add (F32.mul w x) (F32.mul y z)))
         (F32.sub F32.one (F32.mul F32.two (F32.add (F32.mul x x) (F32.mul y y)))).

(** Line 37. *)
Definition pitch (normalized : myo.Quaternion) : spec_float :=
  let '(myo.mkQuaternion x y z w) := normalized in
  asinf (F32.mul F32.two (F32.sub (F32.mul w y) (F32.mul z x))).

(** Lines 38-39. *)
Definition yaw (normalized : myo.Quaternion) : spec_float :=
  let '(myo.mkQuaternion x y z w) := normalized in
  atan2f (F32.mul F32.two (F32.add (F32.mul w z) (F32.mul x y)))
         (F32.sub F32.one (F32.mul F32.two (F32.add (F32.mul y y) (F32.mul z z)))).

(** The operand of the cast of lines 42 and 44,
    [(angle + (float)M_PI)/(M_PI * 2.0f) * 18]: the sum is a [float], the
    divisor, the quotient and the product are [double]s. *)
Definition scale_pi (angle : spec_float) : spec_float :=
  F64.mul
    (F64.div (F64.of_float (F32.add angle M_PI_f))
             (F64.mul M_PI (F64.of_float F32.two)))
    (F64.of_int 18).

(** The operand of the cast of line 43,
    [(pitch + (float)M_PI/2.0f)/M_PI * 18]. *)
Definition scale_half_pi (angle : spec_float) : spec_float :=
  F64.mul
    (F64.div (F64.of_float (F32.add angle (F32.div M_PI_f F32.two))) M_PI)
    (F64.of_int 18).

Definition onOrientationData (this : DataCollector) (myo : Myo) (timestamp : Z)
    (quat : myo.Quaternion) : outcome DataCollector :=
  let normalized := normalized quat in
  let roll := roll normalized in
  let pitch := pitch normalized in
  let yaw := yaw normalized in
  r <- static_cast_int (scale_pi roll) ;;
  p <- static_cast_int (scale_half_pi pitch) ;;
  y <- static_cast_int (scale_pi yaw) ;;
  Ok {| roll_w := r; pitch_w := p; yaw_w := y; currentPose := currentPose this |}.

(** *** onPose (lines 49-59) *)

(** A call the program makes into the SDK. *)
Inductive Call : Type :=
| vibrate (myo : Myo) (type : myo.VibrationType).

Definition onPose (this : DataCollector) (myo : Myo) (timestamp : Z) (pose : Pose)
  : DataCollector * list Call :=
  let this := {| roll_w := roll_w this; pitch_w := pitch_w this; yaw_w := yaw_w this;
                 currentPose := pose |} in
  if Pose_eq_dec (currentPose this) fist then
    if pitch_w this <? 5 then (this, [vibrate myo myo.VibrationMedium])
    else (this, [])
  else (this, []).

(** *** print (lines 65-81) *)

(** One bar gauge of lines 76-78:
    ['[' << std::string(v, '*') << std::string(18 - v, ' ') << ']'];
    the [int] operands are converted to [size_t]. *)
Definition gauge (v : Z) : outcome string :=
  stars <- string_fill (Size.of_Z v) "*"%char ;;
  d <- Int.sub 18 v ;;
  spaces <- string_fill (Size.of_Z d) " "%char ;;
  Ok ("[" ++ stars ++ spaces ++ "]")%string.

(** The gesture-name field of line 79; [16 - poseString.size()] is computed
    in [size_t]. *)
Definition name_field (poseString : string) : outcome string :=
  spaces <- string_fill (Size.sub 16 (string_size poseString)) " "%char ;;
  Ok ("[" ++ poseString ++ spaces ++ "]")%string.

(** [print] as a member function: the object after the call and the
    characters sent to [std::cout] when it returns.  When an exception
    leaves [print] the characters already sent are not tracked: how many
    there are depends on the order in which the operands of the [<<] chain
    are evaluated, which C++ left unspecified before C++17. *)
Definition print (this : DataCollector) : outcome (DataCollector * string) :=
  let poseString := toString (currentPose this) in
  g1 <- gauge (roll_w this) ;;
  g2 <- gauge (pitch_w this) ;;
  g3 <- gauge (yaw_w this) ;;
  f <- name_field poseString ;;
  Ok (this, String "013"%char (g1 ++ g2 ++ g3 ++ f))%string.

(** *** The event pump and main (lines 88-138) *)

(** An event [myo::Hub::run] delivers to the listener. *)
Inductive Event : Type :=
| OrientationData (myo : Myo) (timestamp : Z) (quat : myo.Quaternion)
| PoseEvent (myo : Myo) (timestamp : Z) (pose : Pose).

Definition deliver (this : DataCollector) (ev : Event)
  : outcome (DataCollector * list Call) :=
  match ev with
  | OrientationData myo timestamp quat =>
      this' <- onOrientationData this myo timestamp quat ;; Ok (this', [])
  | PoseEvent myo timestamp pose => Ok (onPose this myo timestamp pose)
  end.

(** [hub.run(1000/20)]: the events of one 50 ms slice, in order. *)
Fixpoint run (this : DataCollector) (events : list Event)
  : outcome (DataCollector * list Call) :=
  match events with
  | [] => Ok (this, [])
  | ev :: rest =>
      r1 <- deliver this ev ;;
      r2 <- run (fst r1) rest ;;
      Ok (fst r2, snd r1 ++ snd r2)
  end.

(** What the process does that can be observed. *)
Inductive Action : Type :=
| cout (s : string)
| cerr (s : string)
| cin_ignore
| call (c : Call).

Inductive Status : Type :=
| Exit (code : Z)
| Running
| UndefinedBehaviour.

(** The handler of lines 132-137. *)
Definition what (e : exn) : string :=
  match e with
  | runtime_error msg => msg
  | length_error => length_error_what
  end.

Definition handler (e : exn) : list Action * Status :=
  ([cerr ("Error: " ++ what e ++ endl); cerr "Press enter to continue."; cin_ignore]%string,
   Exit 1).

(** Lines 94-119, up to the main loop: the device found, or the exception
    thrown. *)
Definition startup (found : option Myo) : list Action * outcome Myo :=
  let greeting :=
    [cout ("Bike signs." ++ endl); cout ("Attempting to find a Myo..." ++ endl)]%string in
  match found with
  | None => (greeting, Throw (runtime_error "Unable to find a Myo!"))
  | Some myo =>
      (greeting ++
       [cout ("Connected to " ++ setw 12 "0" (to_hex (macAddress myo)) ++ "."
              ++ endl ++ endl)]%string,
       Ok myo)
  end.

(** The main loop (lines 122-129), one list of events per iteration; the
    loop has no exit, so when the slices given are used up the program is
    still [Running]. *)
Fixpoint loop (collector : DataCollector) (slices : list (list Event))
  : list Action * Status :=
  match slices with
  | [] => ([], Running)
  | events :: rest =>
      match run collector events with
      | Ok (collector', calls) =>
          match print collector' with
          | Ok (collector'', out) =>
              let '(acts, st) := loop collector'' rest in
              (map call calls ++ cout out :: acts, st)
          | Throw e =>
              let '(acts, st) := handler e in (map call calls ++ acts, st)
          | Undefined => (map call calls, UndefinedBehaviour)
          end
      | Throw e => handler e
      | Undefined => ([], UndefinedBehaviour)
      end
  end.

(** [main], given what [hub.waitForAnyMyo(10000)] returns and the events of
    the successive [hub.run] calls. *)
Definition main (found : option Myo) (slices : list (list Event))
  : list Action * Status :=
  match startup found with
  | (acts, Ok _) =>
      let '(acts', st) := loop DataCollector_new slices in (acts ++ acts', st)
  | (acts, Throw e) =>
      let '(acts', st) := handler e in (acts ++ acts', st)
  | (acts, Undefined) => (acts, UndefinedBehaviour)
  end.

(** *** The conversion in the specification's words

    The closed form of the three angles, and the linear map of an interval
    of angles onto the 18 buckets, [(angle - lo) / (hi - lo) * 18], with
    [lo] a [float] and the width [hi - lo] a [double] as the constants of
    the source are. *)

Definition euler_angles (q : myo.Quaternion) : spec_float * spec_float * spec_float :=
  let x := myo.x q in
  let y := myo.y q in
  let z := myo.z q in
  let w := myo.w q in
  let sq a := F32.mul a a in
  (atan2f (F32.mul F32.two (F32.add (F32.mul w x) (F32.mul y z)))
          (F32.sub F32.one (F32.mul F32.two (F32.add (sq x) (sq y)))),
   asinf (F32.mul F32.two (F32.sub (F32.mul w y) (F32.mul z x))),
   atan2f (F32.mul F32.two (F32.add (F32.mul w z) (F32.mul x y)))
          (F32.sub F32.one (F32.mul F32.two (F32.add (sq y) (sq z))))).

Definition rescale (lo width angle : spec_float) : spec_float :=
  F64.mul (F64.div (F64.of_float (F32.sub angle lo)) width) (F64.of_int 18).

(** [-pi .. pi] for roll and yaw, [-pi/2 .. pi/2] for pitch. *)
Definition HALF_PI_f : spec_float := F32.div M_PI_f F32.two.
Definition HALF_PI : spec_float := F64.div M_PI (F64.of_float F32.two).

Definition bucket_pi (angle : spec_float) : outcome Z :=
  static_cast_int (rescale (SFopp M_PI_f) (F64.sub M_PI (SFopp M_PI)) angle).

Definition bucket_half_pi (angle : spec_float) : outcome Z :=
  static_cast_int (rescale (SFopp HALF_PI_f) (F64.sub HALF_PI (SFopp HALF_PI)) angle).

(** *** Ranges and sequences of operations *)

(** [angle] is a [float] value with [-bound <= angle <= bound]. *)
Definition within (bound angle : spec_float) : bool :=
  F32.valid angle && SFleb (SFopp bound) angle && SFleb angle bound.

Definition bars_in_range (this : DataCollector) : Prop :=
  (0 <= roll_w this <= 18) /\ (0 <= pitch_w this <= 18) /\ (0 <= yaw_w this <= 18).

(** The three angles computed for [quat] lie in their ranges. *)
Definition angles_expected (quat : myo.Quaternion) : bool :=
  let n := normalized quat in
  within M_PI_f (roll n) && within HALF_PI_f (pitch n) && within M_PI_f (yaw n).

(** A member function call on the collector. *)
Inductive Operation : Type :=
| call_onOrientationData (myo : Myo) (timestamp : Z) (quat : myo.Quaternion)
| call_onPose (myo : Myo) (timestamp : Z) (pose : Pose)
| call_print.

Definition perform (this : DataCollector) (op : Operation) : outcome DataCollector :=
  match op with
  | call_onOrientationData myo timestamp quat => onOrientationData this myo timestamp quat
  | call_onPose myo timestamp pose => Ok (fst (onPose this myo timestamp pose))
  | call_print => r <- print this ;; Ok (fst r)
  end.

Fixpoint perform_all (this : DataCollector) (ops : list Operation) : outcome DataCollector :=
  match ops with
  | [] => Ok this
  | op :: rest => this' <- perform this op ;; perform_all this' rest
  end.

Definition operation_expected (op : Operation) : bool :=
  match op with
  | call_onOrientationData _ _ quat => angles_expected quat
  | _ => true
  end.

Definition event_expected (ev : Event) : bool :=
  match ev with
  | OrientationData _ _ quat => angles_expected quat
  | PoseEvent _ _ _ => true
  end.

(** The identity rotation, [(x, y, z, w) = (0, 0, 0, 1)]. *)
Definition identity_quat : myo.Quaternion :=
  myo.mkQuaternion F32.zero F32.zero F32.zero F32.one.

(** The all-zero quaternion, whose norm is zero. *)
Definition zero_quat : myo.Quaternion :=
  myo.mkQuaternion F32.zero F32.zero F32.zero F32.zero.

(** A rotation by a right angle about the pitch axis, scaled by 3:
    [(x, y, z, w) = (0, 3, 0, 3)]. *)
Definition right_angle_quat : myo.Quaternion :=
  myo.mkQuaternion F32.zero (S754_finite false 12582912 (-22))
                   F32.zero (S754_finite false 12582912 (-22)).

(** A quaternion of norm 1 up to the rounding of its components, for which
    the norm computed is [1 - 2^-24]. *)
Definition rounded_unit_quat : myo.Quaternion :=
  myo.mkQuaternion (S754_finite true 8957917 (-26)) (S754_finite true 9039369 (-26))
                   (S754_finite false 16416441 (-24)) (S754_finite false 10890830 (-27)).

(** The three bar lengths of an outcome of [onOrientationData]. *)
Definition bars (r : outcome DataCollector) : outcome (Z * Z * Z) :=
  this <- r ;; Ok (roll_w this, pitch_w this, yaw_w this).

(** Every component of the quaternion is a [float] value. *)
Definition valid_quat (quat : myo.Quaternion) : bool :=
  F32.valid (myo.x quat) && F32.valid (myo.y quat) &&
  F32.valid (myo.z quat) && F32.valid (myo.w quat).

(** A gauge as the specification describes it: [b] asterisks followed by
    [18 - b] spaces between brackets. *)
Definition bar (b : Z) : string :=
  ("[" ++ string_repeat (Z.to_nat b) "*" ++ string_repeat (Z.to_nat (18 - b)) " " ++ "]")%string.

(** The gesture-name field as the specification describes it: the name
    padded with spaces to 16 characters between brackets. *)
Definition padded_name (name : string) : string :=
  ("[" ++ name ++ string_repeat (16 - String.length name) " " ++ "]")%string.

(** *** Real values of floats

    What the lemmas on rounding are stated with: the real number a mantissa
    and an exponent denote, and bounds on a float. *)

(** [m * 2^e] *)
Definition F2R (m e : Z) : R := (IZR m * powerRZ 2 e)%R.

(** The value of a finite float (0 for the others). *)
Definition SF2R (x : spec_float) : R :=
  match x with
  | S754_finite s m e => F2R (cond_Zopp s (Zpos m)) e
  | _ => 0%R
  end.

(** The shifted mantissa [mrs] at exponent [e] is below [x], strictly when
    a round or sticky bit is set. *)
Definition above (mrs : shr_record) (e : Z) (x : R) : Prop :=
  (F2R (shr_m mrs) e <= x)%R /\
  (orb (shr_r mrs) (shr_s mrs) = true -> (F2R (shr_m mrs) e < x)%R).

(** The shifted mantissa [mrs] at exponent [e] is less than one unit below [x]. *)
Definition below (mrs : shr_record) (e : Z) (x : R) : Prop :=
  (x < F2R (shr_m mrs + 1) e)%R.

(** [|value - x| <= 2^g], for a float of sign [sx] that is a zero or finite. *)
Definition rounds_to (sx : bool) (g : Z) (x : R) (r : spec_float) : Prop :=
  match r with
  | S754_zero s => s = sx /\ (0 <= x <= powerRZ 2 g)%R
  | S754_finite s m e =>
      s = sx /\ (F2R (Zpos m) e - powerRZ 2 g <= x <= F2R (Zpos m) e + powerRZ 2 g)%R
  | _ => False
  end.

(** [0 <= r <= mv * 2^ev], with the exponent of [r] at most [ev]. *)
Definition bounded_by (mv : positive) (ev : Z) (r : spec_float) : Prop :=
  match r with
  | S754_zero s => s = false
  | S754_finite s m e => s = false /\ (F2R (Zpos m) e <= F2R (Zpos mv) ev)%R /\ e <= ev
  | _ => False
  end.

(** The weight of the last bit of a finite float. *)
Definition ulp (c : spec_float) : R :=
  match c with
  | S754_finite _ _ e => powerRZ 2 e
  | _ => 0%R
  end.

(** [c'] is a zero or a finite float within five units in the last place
    of [c]. *)
Definition close (c' c : spec_float) : Prop :=
  match c' with
  | S754_zero _ | S754_finite _ _ _ => (Rabs (SF2R c' - SF2R c) <= 5 * ulp c)%R
  | _ => False
  end.

(** [1 - 2^-23 <= n <= 1 + 2^-23]: the [float]s around [1.0f]. *)
Definition near_one (n : spec_float) : bool :=
  F32.valid n && SFleb (S754_finite false 16777214 (-24)) n
  && SFleb n (S754_finite false 8388609 (-23)).

(** Every component is a [float] within [-1, 1]. *)
Definition unit_range (quat : myo.Quaternion) : bool :=
  within F32.one (myo.x quat) && within F32.one (myo.y quat) &&
  within F32.one (myo.z quat) && within F32.one (myo.w quat).

(** The operand of the casts, for an offset [B] and a divisor [D]. *)
Definition scale (B D angle : spec_float) : spec_float :=
  F64.mul (F64.div (F64.of_float (F32.add angle B)) D) (F64.of_int 18).

(** [1 + 2^-20] and [18.5] as [double]s: bounds for the quotient and for
    the product. *)
Definition quotient_bound : positive * Z := (4503603922337792%positive, -52).
Definition product_bound : positive * Z := (5207287069147136%positive, -48).

(** *** Vocabulary of the further properties *)

(** The operand of a gauge is an [int] for which [18 - v] is an [int] too. *)
Definition gauge_operand (v : Z) : bool := Int.in_range v && Int.in_range (18 - v).

(** The opposite quaternion, which denotes the same rotation. *)
Definition neg_quat (quat : myo.Quaternion) : myo.Quaternion :=
  myo.mkQuaternion (SFopp (myo.x quat)) (SFopp (myo.y quat))
                   (SFopp (myo.z quat)) (SFopp (myo.w quat)).

(** A zero or a finite number: neither an infinity nor a NaN. *)
Definition is_finite (c : spec_float) : bool :=
  match c with
  | S754_zero _ | S754_finite _ _ _ => true
  | S754_infinity _ | S754_nan => false
  end.

Definition finite_quat (quat : myo.Quaternion) : bool :=
  is_finite (myo.x quat) && is_finite (myo.y quat) &&
  is_finite (myo.z quat) && is_finite (myo.w quat).

(** Positive infinity or a NaN. *)
Definition overflowed (r : spec_float) : Prop :=
  r = S754_infinity false \/ r = S754_nan.

(** Not negative: a NaN, or a number whose sign bit is clear. *)
Definition unsigned (r : spec_float) : Prop :=
  match r with
  | S754_zero s | S754_infinity s | S754_finite s _ _ => s = false
  | S754_nan => True
  end.

(** The pose of the last pose event of [events]; [pose] when there is
    none. *)
Fixpoint last_pose (events : list Event) (pose : Pose) : Pose :=
  match events with
  | [] => pose
  | OrientationData _ _ _ :: rest => last_pose rest pose
  | PoseEvent _ _ p :: rest => last_pose rest p
  end.

(** The quaternion of the last orientation event of [events]; [quat] when
    there is none. *)
Fixpoint last_quat (events : list Event) (quat : option myo.Quaternion)
  : option myo.Quaternion :=
  match events with
  | [] => quat
  | OrientationData _ _ q :: rest => last_quat rest (Some q)
  | PoseEvent _ _ _ :: rest => last_quat rest quat
  end.

(** No orientation event among [events]. *)
Definition poses_only (events : list Event) : bool :=
  forallb (fun ev => match ev with PoseEvent _ _ _ => true | OrientationData _ _ _ => false end)
          events.

(** The devices of the pose events of [events] that carry [fist], in order. *)
Fixpoint fists (events : list Event) : list Myo :=
  match events with
  | [] => []
  | OrientationData _ _ _ :: rest => fists rest
  | PoseEvent myo _ pose :: rest =>
      if Pose_eq_dec pose fist then myo :: fists rest else fists rest
  end.

(** The number a string of hexadecimal digits denotes. *)
Definition hex_digit_value (c : ascii) : Z :=
  let n := Z.of_nat (nat_of_ascii c) in
  if (48 <=? n) && (n <=? 57) then n - 48
  else if (97 <=? n) && (n <=? 102) then n - 87
  else 0.

Fixpoint hex_value_from (acc : Z) (s : string) : Z :=
  match s with
  | EmptyString => acc
  | String c s' => hex_value_from (16 * acc + hex_digit_value c) s'
  end.

Definition hex_value (s : string) : Z := hex_value_from 0 s.

(** *** Rounding to nearest

    The vocabulary of the lemmas on the monotonicity of the conversion. *)

(** The position of [x] in the cell [[m * 2^e, (m + 1) * 2^e)] of the
    shifted mantissa [mrs], as its round and sticky bits give it: on the
    left end, in the lower half, at the midpoint or in the upper half. *)
Definition located (mrs : shr_record) (e : Z) (x : R) : Prop :=
  match shr_r mrs, shr_s mrs with
  | false, false => x = F2R (shr_m mrs) e
  | false, true => (F2R (shr_m mrs) e < x < F2R (2 * shr_m mrs + 1) (e - 1))%R
  | true, false => x = F2R (2 * shr_m mrs + 1) (e - 1)
  | true, true => (F2R (2 * shr_m mrs + 1) (e - 1) < x < F2R (shr_m mrs + 1) e)%R
  end.

(** [g] is the exponent the format with [prec] digits gives numbers of the
    magnitude of [x]: [2^(g+prec-1) <= x < 2^(g+prec)], or [x] below the
    normal range and [g] the least exponent. *)
Definition in_binade (prec emax g : Z) (x : R) : Prop :=
  emin prec emax <= g /\
  (x < powerRZ 2 (g + prec))%R /\
  (emin prec emax < g -> (powerRZ 2 (g + prec - 1) <= x)%R).

(** [m * 2^g] is a multiple of [2^g] nearest to [x], the even one when two
    are as near. *)
Definition nearest (g m : Z) (x : R) : Prop :=
  0 <= m /\
  (Rabs (x - F2R m g) <= powerRZ 2 (g - 1))%R /\
  (Rabs (x - F2R m g) = powerRZ 2 (g - 1) -> Z.even m = true).

(** [r] is a zero or a positive finite float of value [v]. *)
Definition has_value (r : spec_float) (v : R) : Prop :=
  match r with
  | S754_zero s => s = false /\ v = 0%R
  | S754_finite s m e => s = false /\ F2R (Zpos m) e = v
  | _ => False
  end.

(** [r] is the rounding to nearest even of [x >= 0] in the format. *)
Definition round_of (prec emax : Z) (x : R) (r : spec_float) : Prop :=
  exists g m, in_binade prec emax g x /\ nearest g m x /\ has_value r (F2R m g).

(** The least pitch whose bar has five asterisks: [-11712707 * 2^-24], just
    below [-2 pi / 9] (40 degrees below the horizontal); and the [float]
    before it. *)
Definition pitch_threshold : spec_float := S754_finite true 11712707 (-24).
Definition pitch_threshold_pred : spec_float := S754_finite true 11712708 (-24).

(** The [float]s before [(float)M_PI] and before [(float)M_PI / 2.0f]. *)
Definition M_PI_f_pred : spec_float := S754_finite false 13176794 (-22).
Definition HALF_PI_f_pred : spec_float := S754_finite false 13176794 (-23).

(** [2^-75] as a [float], and the quaternions every component of which is
    at most that in magnitude: the square of such a component is at most
    [2^-150], half the least positive [float]. *)
Definition tiny_bound : spec_float := S754_finite false 8388608 (-98).

Definition tiny_quat (quat : myo.Quaternion) : bool :=
  within tiny_bound (myo.x quat) && within tiny_bound (myo.y quat) &&
  within tiny_bound (myo.z quat) && within tiny_bound (myo.w quat).

(** An infinity or a NaN. *)
Definition infinite_or_nan (r : spec_float) : Prop :=
  match r with
  | S754_infinity _ | S754_nan => True
  | _ => False
  end.

(** [2^64] as a [float], and the finite floats of at least that magnitude:
    their square is at least [2^128], beyond the largest [float]. *)
Definition huge_bound : spec_float := S754_finite false 8388608 41.

Definition huge (c : spec_float) : bool :=
  F32.valid c && is_finite c && SFleb huge_bound (SFabs c).

(** A quaternion of finite [float]s one of which is huge. *)
Definition huge_quat (quat : myo.Quaternion) : bool :=
  valid_quat quat && finite_quat quat &&
  (huge (myo.x quat) || huge (myo.y quat) || huge (myo.z quat) || huge (myo.w quat)).

(** Zero, a positive finite number or positive infinity. *)
Definition non_negative (r : spec_float) : Prop :=
  match r with
  | S754_zero s | S754_infinity s | S754_finite s _ _ => s = false
  | S754_nan => False
  end.

(** A zero of either sign. *)
Definition is_zero (c : spec_float) : bool :=
  match c with
  | S754_zero _ => true
  | _ => false
  end.


(** ** Properties *)

(** Splits a hypothesis [b1 && ... && bn = true] into its conjuncts. *)
Ltac andb_elim H :=
  repeat match type of H with
         | (_ && _)%bool = true =>
             let H' := fresh H in
             apply andb_prop in H; destruct H as [H H']
         end.

(** *** Dyadic numbers *)

Lemma bpow_pos (e : Z) : (0 < powerRZ 2 e)%R.
Proof. apply powerRZ_lt. lra. Qed.

Lemma bpow_add (a b : Z) : powerRZ 2 (a + b) = (powerRZ 2 a * powerRZ 2 b)%R.
Proof. apply powerRZ_add. lra. Qed.

Lemma bpow_IZR (k : Z) : 0 <= k -> powerRZ 2 k = IZR (2 ^ k).
Proof.
  intros Hk. destruct k as [| p | p]; [reflexivity | | lia].
  change (2 ^ Z.pos p) with (Z.pow_pos 2 p).
  now rewrite Zpower_pos_powerRZ.
Qed.

Lemma bpow_le (a b : Z) : a <= b -> (powerRZ 2 a <= powerRZ 2 b)%R.
Proof.
  intros H. replace b with (a + (b - a)) by lia.
  rewrite bpow_add, (bpow_IZR (b - a)) by lia.
  assert (1 <= 2 ^ (b - a)) by (apply (Z.pow_le_mono_r 2 0); lia).
  apply IZR_le in H0. pose proof (bpow_pos a). nra.
Qed.

Lemma bpow_lt_inv (a b : Z) : (powerRZ 2 a < powerRZ 2 b)%R -> a < b.
Proof.
  intros H. destruct (Z.lt_ge_cases a b) as [Hlt | Hge]; [exact Hlt |].
  apply bpow_le in Hge. lra.
Qed.

Lemma F2R_shift (m e k : Z) : 0 <= k -> F2R (m * 2 ^ k) (e - k) = F2R m e.
Proof.
  intros Hk. unfold F2R. rewrite mult_IZR, <- (bpow_IZR k) by exact Hk.
  replace e with ((e - k) + k) at 2 by lia. rewrite bpow_add. ring.
Qed.

Lemma F2R_le (m1 m2 e : Z) : m1 <= m2 -> (F2R m1 e <= F2R m2 e)%R.
Proof.
  intros H. unfold F2R. apply IZR_le in H. pose proof (bpow_pos e). nra.
Qed.

Lemma F2R_lt_inv (m1 m2 e : Z) : (F2R m1 e < F2R m2 e)%R -> m1 < m2.
Proof.
  intros H. destruct (Z.lt_ge_cases m1 m2) as [Hlt | Hge]; [exact Hlt |].
  apply (F2R_le _ _ e) in Hge. lra.
Qed.

Lemma F2R_double (m e : Z) : F2R (2 * m) e = F2R m (e + 1).
Proof.
  unfold F2R. rewrite mult_IZR, bpow_add. change (powerRZ 2 1) with (2 * 1)%R. ring.
Qed.

Lemma F2R_add (a b e : Z) : F2R (a + b) e = (F2R a e + F2R b e)%R.
Proof. unfold F2R. rewrite plus_IZR. ring. Qed.

Lemma F2R_opp (a e : Z) : F2R (- a) e = (- F2R a e)%R.
Proof. unfold F2R. rewrite opp_IZR. ring. Qed.

Lemma F2R_mul (a ea b eb : Z) : (F2R a ea * F2R b eb)%R = F2R (a * b) (ea + eb).
Proof. unfold F2R. rewrite mult_IZR, bpow_add. ring. Qed.

Lemma F2R_0 (m : Z) : F2R m 0 = IZR m.
Proof. unfold F2R. cbn. ring. Qed.

Lemma F2R_pos (p : positive) (e : Z) : (0 < F2R (Zpos p) e)%R.
Proof.
  unfold F2R. pose proof (bpow_pos e). assert (0 < IZR (Zpos p))%R by (apply IZR_lt; lia). nra.
Qed.

(** Comparison of dyadics brought to the exponent of the left one. *)
Lemma F2R_le_aligned (a ea b eb : Z) :
  ea <= eb -> a <= b * 2 ^ (eb - ea) -> (F2R a ea <= F2R b eb)%R.
Proof.
  intros He H. rewrite <- (F2R_shift b eb (eb - ea)) by lia.
  replace (eb - (eb - ea)) with ea by lia. apply F2R_le. exact H.
Qed.

Lemma F2R_le_aligned_r (a ea b eb : Z) :
  eb <= ea -> a * 2 ^ (ea - eb) <= b -> (F2R a ea <= F2R b eb)%R.
Proof.
  intros He H. rewrite <- (F2R_shift a ea (ea - eb)) by lia.
  replace (ea - (ea - eb)) with eb by lia. apply F2R_le. exact H.
Qed.

Lemma F2R_lt_aligned (a ea b eb : Z) :
  ea <= eb -> a < b * 2 ^ (eb - ea) -> (F2R a ea < F2R b eb)%R.
Proof.
  intros He H. rewrite <- (F2R_shift b eb (eb - ea)) by lia.
  replace (eb - (eb - ea)) with ea by lia.
  unfold F2R. apply IZR_lt in H. pose proof (bpow_pos ea). nra.
Qed.

Lemma Rle_div_mult (a b c : R) : (0 < c -> a * c <= b -> a <= b / c)%R.
Proof.
  intros Hc H. apply (Rmult_le_reg_r c); [exact Hc |].
  unfold Rdiv. rewrite Rmult_assoc, Rinv_l by lra. lra.
Qed.

Lemma Rlt_div_mult (a b c : R) : (0 < c -> a * c < b -> a < b / c)%R.
Proof.
  intros Hc H. apply (Rmult_lt_reg_r c); [exact Hc |].
  unfold Rdiv. rewrite Rmult_assoc, Rinv_l by lra. lra.
Qed.

Lemma Rdiv_le_mult (a b c : R) : (0 < c -> b <= a * c -> b / c <= a)%R.
Proof.
  intros Hc H. apply (Rmult_le_reg_r c); [exact Hc |].
  unfold Rdiv. rewrite Rmult_assoc, Rinv_l by lra. lra.
Qed.

(** *** Mantissas: digits, alignment, shifts *)

Lemma digits2_pos_size (p : positive) : digits2_pos p = Pos.size p.
Proof. induction p; simpl; congruence. Qed.

Lemma digits2_bounds (p : positive) :
  2 ^ (Zpos (digits2_pos p) - 1) <= Zpos p < 2 ^ Zpos (digits2_pos p).
Proof.
  rewrite digits2_pos_size.
  pose proof (Pos.size_gt p) as Hgt. pose proof (Pos.size_le p) as Hle.
  apply Pos2Z.pos_lt_pos in Hgt. apply Pos2Z.pos_le_pos in Hle.
  rewrite Pos2Z.inj_pow in Hgt, Hle.
  change (Z.pos p~0) with (2 * Z.pos p) in Hle.
  replace (Z.pos (Pos.size p)) with (Z.succ (Z.pos (Pos.size p) - 1)) in Hle by lia.
  rewrite Z.pow_succ_r in Hle by lia. lia.
Qed.

(** The magnitude of a positive dyadic: [digits m + e]. *)
Lemma mag_le (m1 m2 : positive) (e1 e2 : Z) :
  (F2R (Zpos m1) e1 <= F2R (Zpos m2) e2)%R ->
  Zpos (digits2_pos m1) + e1 <= Zpos (digits2_pos m2) + e2.
Proof.
  intros H.
  destruct (digits2_bounds m1) as [Hlo _]. destruct (digits2_bounds m2) as [_ Hhi].
  assert (Zpos (digits2_pos m1) - 1 + e1 < Zpos (digits2_pos m2) + e2); [| lia].
  apply bpow_lt_inv. rewrite !bpow_add.
  rewrite (bpow_IZR (Zpos (digits2_pos m1) - 1)), (bpow_IZR (Zpos (digits2_pos m2))) by lia.
  apply IZR_le in Hlo. apply IZR_lt in Hhi. unfold F2R in H.
  pose proof (bpow_pos e1). pose proof (bpow_pos e2). nra.
Qed.

Lemma iter_xO_pow (d m : positive) : Zpos (Pos.iter xO m d) = Zpos m * 2 ^ Zpos d.
Proof.
  induction d as [| d IH] using Pos.peano_ind.
  - cbn [Pos.iter]. change (2 ^ 1) with 2. lia.
  - rewrite Pos.iter_succ, Pos2Z.inj_succ, Z.pow_succ_r by lia.
    change (Z.pos (Pos.iter xO m d)~0) with (2 * Z.pos (Pos.iter xO m d)). lia.
Qed.

Lemma shl_align_spec (mx : positive) (ex ex' : Z) :
  F2R (Zpos (fst (shl_align mx ex ex'))) (snd (shl_align mx ex ex')) = F2R (Zpos mx) ex /\
  snd (shl_align mx ex ex') = Z.min ex ex'.
Proof.
  unfold shl_align. destruct (ex' - ex) as [| d | d] eqn:Hd; cbn [fst snd].
  - split; [reflexivity | lia].
  - split; [reflexivity | lia].
  - split; [| lia]. rewrite iter_xO_pow.
    replace ex' with (ex - Zpos d) by lia. apply F2R_shift. lia.
Qed.

Lemma shr_record_of_loc_m (m : Z) (l : location) : shr_m (shr_record_of_loc m l) = m.
Proof. destruct l as [| []]; reflexivity. Qed.

Lemma shr_1_above (mrs : shr_record) (e : Z) (x : R) :
  0 <= shr_m mrs -> above mrs e x ->
  above (shr_1 mrs) (e + 1) x /\ 0 <= shr_m (shr_1 mrs).
Proof.
  destruct mrs as [m r s]. unfold above. cbn [shr_m shr_r shr_s].
  intros Hm [Hle Hlt].
  pose proof (bpow_pos e) as Hpos.
  destruct m as [| p | p]; [| destruct p as [p | p |] |]; cbn [shr_1 shr_m shr_r shr_s];
    try lia.
  - (* 0 *)
    unfold F2R in *. rewrite Rmult_0_l in *. cbn [orb]. split; [split |]; auto with zarith.
  - (* 2p+1 *)
    rewrite <- F2R_double. unfold F2R in *.
    change (Z.pos p~1) with (2 * Z.pos p + 1) in Hle.
    rewrite plus_IZR in Hle. split; [| lia]. split; [nra | intros _; nra].
  - (* 2p *)
    rewrite <- F2R_double. change (2 * Z.pos p) with (Z.pos p~0).
    split; [| lia]. split; [exact Hle |]. cbn [orb]. exact Hlt.
  - (* 1 *)
    unfold F2R in *. rewrite Rmult_0_l. split; [| lia]. split; [nra | intros _; nra].
Qed.

Lemma iter_shr_1_above (p : positive) :
  forall (mrs : shr_record) (e : Z) (x : R),
    0 <= shr_m mrs -> above mrs e x ->
    above (SpecFloat.iter_pos shr_1 p mrs) (e + Zpos p) x /\ 0 <= shr_m (SpecFloat.iter_pos shr_1 p mrs).
Proof.
  induction p as [p IH | p IH |]; intros mrs e x Hm Ha; cbn [SpecFloat.iter_pos].
  - destruct (shr_1_above mrs e x Hm Ha) as [Ha1 Hm1].
    destruct (IH _ _ _ Hm1 Ha1) as [Ha2 Hm2].
    destruct (IH _ _ _ Hm2 Ha2) as [Ha3 Hm3].
    replace (e + Z.pos p~1) with (e + 1 + Z.pos p + Z.pos p) by lia. auto.
  - destruct (IH _ _ _ Hm Ha) as [Ha2 Hm2].
    destruct (IH _ _ _ Hm2 Ha2) as [Ha3 Hm3].
    replace (e + Z.pos p~0) with (e + Z.pos p + Z.pos p) by lia. auto.
  - apply shr_1_above; assumption.
Qed.

Lemma shr_above (mrs : shr_record) (e n : Z) (x : R) :
  0 <= shr_m mrs -> above mrs e x ->
  above (fst (shr mrs e n)) (snd (shr mrs e n)) x /\
  0 <= shr_m (fst (shr mrs e n)) /\
  snd (shr mrs e n) = Z.max e (e + n).
Proof.
  intros Hm Ha. destruct n as [| p | p]; cbn [shr fst snd].
  - repeat split; try apply Ha; lia.
  - destruct (iter_shr_1_above p mrs e x Hm Ha) as [H1 H2]. repeat split; try apply H1; lia.
  - repeat split; try apply Ha; lia.
Qed.

Lemma shr_1_nonneg (mrs : shr_record) : 0 <= shr_m mrs -> 0 <= shr_m (shr_1 mrs).
Proof. destruct mrs as [[| [q | q |] | q] r s]; cbn; lia. Qed.

Lemma iter_shr_1_nonneg (p : positive) :
  forall mrs : shr_record,
    0 <= shr_m mrs -> 0 <= shr_m (SpecFloat.iter_pos shr_1 p mrs).
Proof.
  induction p as [p IH | p IH |]; intros mrs Hm; cbn [SpecFloat.iter_pos].
  - apply IH, IH, shr_1_nonneg, Hm.
  - apply IH, IH, Hm.
  - apply shr_1_nonneg, Hm.
Qed.

Lemma shr_1_below (mrs : shr_record) (e : Z) (x : R) :
  0 <= shr_m mrs -> below mrs e x -> below (shr_1 mrs) (e + 1) x.
Proof.
  destruct mrs as [m r s]. unfold below. cbn [shr_m].
  intros Hm Hlt. rewrite <- F2R_double.
  assert (Hstep : forall m', m + 1 <= 2 * (m' + 1) ->
                        (x < F2R (2 * (m' + 1)) e)%R).
  { intros m' Hm'. apply (F2R_le _ _ e) in Hm'. lra. }
  destruct m as [| p | p]; [| destruct p as [p | p |] |]; cbn [shr_1 shr_m];
    try lia; apply Hstep; lia.
Qed.

Lemma iter_shr_1_below (p : positive) :
  forall (mrs : shr_record) (e : Z) (x : R),
    0 <= shr_m mrs -> below mrs e x ->
    below (SpecFloat.iter_pos shr_1 p mrs) (e + Zpos p) x.
Proof.
  induction p as [p IH | p IH |]; intros mrs e x Hm Hb; cbn [SpecFloat.iter_pos].
  - replace (e + Z.pos p~1) with (e + 1 + Z.pos p + Z.pos p) by lia.
    apply IH; [apply iter_shr_1_nonneg, shr_1_nonneg, Hm |].
    apply IH; [apply shr_1_nonneg, Hm |].
    apply shr_1_below; assumption.
  - replace (e + Z.pos p~0) with (e + Z.pos p + Z.pos p) by lia.
    apply IH; [apply iter_shr_1_nonneg, Hm |].
    apply IH; assumption.
  - apply shr_1_below; assumption.
Qed.

Lemma shr_below (mrs : shr_record) (e n : Z) (x : R) :
  0 <= shr_m mrs -> below mrs e x ->
  below (fst (shr mrs e n)) (snd (shr mrs e n)) x.
Proof.
  intros Hm Hb. destruct n as [| p | p]; cbn [shr fst snd]; try exact Hb.
  apply iter_shr_1_below; assumption.
Qed.

Lemma digits2_le (p : positive) (k : Z) : Zpos p < 2 ^ k -> Zpos (digits2_pos p) <= k.
Proof.
  intros H. destruct (digits2_bounds p) as [Hlo _].
  destruct (Z.le_gt_cases (Zpos (digits2_pos p)) k) as [Hle | Hgt]; [exact Hle |].
  assert (2 ^ k <= 2 ^ (Zpos (digits2_pos p) - 1)) by (apply Z.pow_le_mono_r; lia). lia.
Qed.

Lemma Zdigits2_le (m k : Z) : 0 <= m < 2 ^ k -> 0 <= k -> Zdigits2 m <= k.
Proof.
  intros [H0 H] Hk. destruct m as [| p | p]; cbn [Zdigits2]; [exact Hk | | lia].
  apply digits2_le. exact H.
Qed.

Lemma round_nearest_even_step (mrs : shr_record) :
  let m' := round_nearest_even (shr_m mrs) (loc_of_shr_record mrs) in
  m' = shr_m mrs \/ (m' = shr_m mrs + 1 /\ orb (shr_r mrs) (shr_s mrs) = true).
Proof.
  destruct mrs as [m [|] [|]]; cbn; auto.
  destruct (Z.even m); auto.
Qed.

Lemma new_location_exact (nb k : Z) :
  new_location nb k = loc_Exact \/
  (k <> 0 /\ exists c, new_location nb k = loc_Inexact c).
Proof.
  unfold new_location.
  destruct (Z.even nb); unfold new_location_even, new_location_odd;
    (destruct (Z.eqb_spec k 0) as [-> | Hk];
     [left; reflexivity | right; split; [exact Hk | eexists; reflexivity]]).
Qed.

(** *** Rounding stays below a representable bound

    For a format of precision [prec] and exponent bound [emax]: when the
    exact result of an operation is at most a float [V] of the format, so is
    its rounding.  The operations are those of the conversion: addition,
    change of format, division and multiplication. *)

Section Rounding.

Variables prec emax : Z.
Hypothesis prec_pos : 0 < prec.

Lemma fexp_mono (a b : Z) : a <= b -> fexp prec emax a <= fexp prec emax b.
Proof. unfold fexp. lia. Qed.

Lemma fexp_ge_emin (a : Z) : emin prec emax <= fexp prec emax a.
Proof. unfold fexp. lia. Qed.

(** The exponent the format gives a value bounded by a canonical float is
    at most the exponent of that float. *)
Lemma fexp_digits_le (m e : Z) (mv : positive) (ev : Z) :
  0 <= m ->
  (F2R m e <= F2R (Zpos mv) ev)%R ->
  canonical_mantissa prec emax mv ev = true ->
  e <= ev ->
  fexp prec emax (Zdigits2 m + e) <= ev.
Proof using prec_pos.
  intros Hm Hle Hcan He.
  unfold canonical_mantissa in Hcan. apply Z.eqb_eq in Hcan.
  destruct m as [| p | p]; [| | lia].
  - cbn [Zdigits2]. rewrite Z.add_0_l.
    pose proof (fexp_ge_emin (Z.pos (digits2_pos mv) + ev)).
    unfold fexp in *. lia.
  - cbn [Zdigits2]. rewrite <- Hcan. apply fexp_mono. apply mag_le. exact Hle.
Qed.

Lemma fexp_mag_le (m : positive) (e : Z) (mv : positive) (ev : Z) :
  (F2R (Zpos m) e <= F2R (Zpos mv) ev)%R ->
  canonical_mantissa prec emax mv ev = true ->
  fexp prec emax (Zpos (digits2_pos m) + e) <= ev.
Proof.
  intros Hle Hcan. unfold canonical_mantissa in Hcan. apply Z.eqb_eq in Hcan.
  rewrite <- Hcan. apply fexp_mono. apply mag_le. exact Hle.
Qed.

(** Rounding stays below a canonical float that bounds the exact value. *)
Lemma binary_round_aux_upper (sx : bool) (mx ex : Z) (lx : location)
    (x : R) (mv : positive) (ev : Z) :
  0 <= mx ->
  above (shr_record_of_loc mx lx) ex x ->
  (x <= F2R (Zpos mv) ev)%R ->
  canonical_mantissa prec emax mv ev = true ->
  ev <= emax - prec ->
  ex <= ev ->
  match binary_round_aux prec emax sx mx ex lx with
  | S754_zero s => s = sx
  | S754_finite s m e => s = sx /\ (F2R (Zpos m) e <= F2R (Zpos mv) ev)%R /\ e <= ev
  | _ => False
  end.
Proof using prec_pos.
  intros Hmx Ha Hx Hcan Hev Hex.
  unfold binary_round_aux, shr_fexp.
  set (n1 := fexp prec emax (Zdigits2 mx + ex) - ex).
  pose proof (shr_above (shr_record_of_loc mx lx) ex n1 x) as H1.
  rewrite shr_record_of_loc_m in H1. specialize (H1 Hmx Ha).
  destruct (shr (shr_record_of_loc mx lx) ex n1) as [mrs1 e1]. cbn [fst snd] in H1.
  destruct H1 as (Ha1 & Hm1 & He1).
  assert (Hmxle : (F2R mx ex <= F2R (Zpos mv) ev)%R).
  { destruct Ha as [Ha _]. rewrite shr_record_of_loc_m in Ha. lra. }
  assert (He1v : e1 <= ev).
  { pose proof (fexp_digits_le mx ex mv ev Hmx Hmxle Hcan Hex).
    subst e1 n1. lia. }
  set (m2 := round_nearest_even (shr_m mrs1) (loc_of_shr_record mrs1)).
  assert (Hm2 : 0 <= m2 /\ (F2R m2 e1 <= F2R (Zpos mv) ev)%R).
  { destruct (round_nearest_even_step mrs1) as [Heq | [Heq Hrs]]; fold m2 in Heq.
    - rewrite Heq. split; [exact Hm1 |]. destruct Ha1 as [Ha1 _]. lra.
    - rewrite Heq. split; [lia |].
      destruct Ha1 as [_ Ha1]. specialize (Ha1 Hrs).
      assert (HK : F2R (Zpos mv * 2 ^ (ev - e1)) e1 = F2R (Zpos mv) ev).
      { rewrite <- (F2R_shift (Zpos mv) ev (ev - e1)) by lia. f_equal. lia. }
      rewrite <- HK. apply F2R_le.
      assert (shr_m mrs1 < Z.pos mv * 2 ^ (ev - e1)); [| lia].
      apply (F2R_lt_inv _ _ e1). rewrite HK. lra. }
  destruct Hm2 as [Hm2 Hm2v].
  set (n2 := fexp prec emax (Zdigits2 m2 + e1) - e1).
  pose proof (shr_above (shr_record_of_loc m2 loc_Exact) e1 n2 (F2R m2 e1)) as H2.
  cbn [shr_record_of_loc shr_m] in H2.
  assert (Ha2 : above {| shr_m := m2; shr_r := false; shr_s := false |} e1 (F2R m2 e1)).
  { split; cbn; [lra | discriminate]. }
  specialize (H2 Hm2 Ha2).
  cbn [shr_record_of_loc].
  destruct (shr {| shr_m := m2; shr_r := false; shr_s := false |} e1 n2) as [mrs2 e2].
  cbn [fst snd] in H2. destruct H2 as ([Ha3 _] & Hm3 & He2).
  assert (He2v : e2 <= ev).
  { pose proof (fexp_digits_le m2 e1 mv ev Hm2 Hm2v Hcan He1v).
    subst e2 n2. lia. }
  destruct (shr_m mrs2) as [| p | p]; [reflexivity | | lia].
  destruct (Z.leb_spec e2 (emax - prec)); [| lia].
  repeat split; [lra | exact He2v].
Qed.

Lemma binary_round_upper (sx : bool) (mx : positive) (ex : Z)
    (mv : positive) (ev : Z) :
  (F2R (Zpos mx) ex <= F2R (Zpos mv) ev)%R ->
  canonical_mantissa prec emax mv ev = true ->
  ev <= emax - prec ->
  match binary_round prec emax sx mx ex with
  | S754_zero s => s = sx
  | S754_finite s m e => s = sx /\ (F2R (Zpos m) e <= F2R (Zpos mv) ev)%R /\ e <= ev
  | _ => False
  end.
Proof using prec_pos.
  intros Hle Hcan Hev. unfold binary_round.
  pose proof (shl_align_spec mx ex (fexp prec emax (Zpos (digits2_pos mx) + ex))) as [Hval Hexp].
  pose proof (fexp_mag_le mx ex mv ev Hle Hcan) as Hfexp.
  destruct (shl_align mx ex (fexp prec emax (Zpos (digits2_pos mx) + ex))) as [mz ez].
  cbn [fst snd] in Hval, Hexp.
  apply (binary_round_aux_upper sx (Zpos mz) ez loc_Exact (F2R (Zpos mz) ez));
    try assumption; try lia.
  - split; cbn; [lra | discriminate].
  - lra.
Qed.

(** The result of rounding is within one unit of the grid from the exact
    value, the grid [2^g] being that of the input or that of the format,
    whichever is coarser. *)
Lemma binary_round_aux_faithful (sx : bool) (mx ex : Z) (lx : location) (x : R) :
  0 <= mx ->
  above (shr_record_of_loc mx lx) ex x ->
  (x < F2R (mx + 1) ex)%R ->
  Z.max ex (fexp prec emax (Zdigits2 mx + ex)) + 1 <= emax - prec ->
  rounds_to sx (Z.max ex (fexp prec emax (Zdigits2 mx + ex))) x
    (binary_round_aux prec emax sx mx ex lx).
Proof using prec_pos.
  intros Hmx Ha Hb Hmax.
  set (g := Z.max ex (fexp prec emax (Zdigits2 mx + ex))) in *.
  unfold binary_round_aux, shr_fexp.
  set (n1 := fexp prec emax (Zdigits2 mx + ex) - ex).
  pose proof (shr_above (shr_record_of_loc mx lx) ex n1 x) as H1.
  pose proof (shr_below (shr_record_of_loc mx lx) ex n1 x) as H1'.
  unfold below in H1' at 1.
  rewrite shr_record_of_loc_m in H1, H1'. specialize (H1 Hmx Ha). specialize (H1' Hmx Hb).
  destruct (shr (shr_record_of_loc mx lx) ex n1) as [mrs1 e1]. cbn [fst snd] in H1, H1'.
  destruct H1 as (Ha1 & Hm1 & He1). unfold below in H1'.
  assert (Hg : e1 = g) by (subst e1 n1 g; lia). clear He1. subst e1.
  pose proof (bpow_pos g) as Hgpos.
  assert (Hunit : forall m, F2R (m + 1) g = (F2R m g + powerRZ 2 g)%R).
  { intros m. rewrite F2R_add. unfold F2R at 2. lra. }
  (* the mantissa has at most [prec] digits *)
  assert (Hm1prec : shr_m mrs1 < 2 ^ prec).
  { assert (Hge : ex <= g) by (subst g; lia).
    assert (Hlt : shr_m mrs1 * 2 ^ (g - ex) < mx + 1).
    { apply (F2R_lt_inv _ _ ex).
      assert (HK : F2R (shr_m mrs1 * 2 ^ (g - ex)) ex = F2R (shr_m mrs1) g).
      { rewrite <- (F2R_shift (shr_m mrs1) g (g - ex)) by lia. f_equal. lia. }
      rewrite HK. destruct Ha1 as [Ha1 _]. lra. }
    assert (Hd : mx < 2 ^ Zdigits2 mx).
    { destruct mx as [| p | p]; [cbn; lia | apply digits2_bounds | lia]. }
    assert (Hdpos : 0 <= Zdigits2 mx) by (destruct mx; cbn; lia).
    assert (Hdg : Zdigits2 mx <= prec + (g - ex)) by (subst g; unfold fexp; lia).
    destruct (Z.lt_ge_cases (shr_m mrs1) (2 ^ prec)) as [Hok | Hbad]; [exact Hok |].
    exfalso.
    assert (2 ^ Zdigits2 mx <= 2 ^ (prec + (g - ex))) by (apply Z.pow_le_mono_r; lia).
    rewrite Z.pow_add_r in H by lia.
    assert (0 < 2 ^ (g - ex)) by (apply Z.pow_pos_nonneg; lia).
    nia. }
  set (m2 := round_nearest_even (shr_m mrs1) (loc_of_shr_record mrs1)).
  assert (Hm2 : 0 <= m2 <= 2 ^ prec /\
                (F2R m2 g - powerRZ 2 g <= x <= F2R m2 g + powerRZ 2 g)%R /\
                (m2 = 0 -> (0 <= x)%R)).
  { destruct Ha1 as [Ha1 _].
    destruct (round_nearest_even_step mrs1) as [Heq | [Heq _]]; fold m2 in Heq; rewrite Heq.
    - rewrite Hunit in H1'. split; [lia |]. split; [lra |].
      intros H0. rewrite H0 in Ha1. unfold F2R in Ha1. lra.
    - rewrite Hunit in *. split; [lia |]. split; [lra |]. lia. }
  destruct Hm2 as (Hm2 & Hm2x & Hm20).
  assert (Hgmin : emin prec emax <= g).
  { pose proof (fexp_ge_emin (Zdigits2 mx + ex)). subst g. lia. }
  destruct (Z.eq_dec m2 (2 ^ prec)) as [Hpow | Hnpow].
  - (* the rounded mantissa is [2^prec]: one more shift, which is exact *)
    assert (Hd2 : Zdigits2 m2 = prec + 1).
    { rewrite Hpow. destruct (2 ^ prec) as [| p | p] eqn:Ep; try lia.
      cbn [Zdigits2]. destruct (digits2_bounds p) as [Hlo Hhi]. rewrite <- Ep in Hlo, Hhi.
      apply Z.pow_le_mono_r_iff in Hlo; try lia.
      apply Z.pow_lt_mono_r_iff in Hhi; try lia. }
    rewrite Hd2. replace (fexp prec emax (prec + 1 + g) - g) with 1 by (unfold fexp; lia).
    assert (Heven : exists p, m2 = Zpos p~0).
    { assert (He : Z.even m2 = true).
      { rewrite Hpow. replace prec with (Z.succ (prec - 1)) by lia.
        rewrite Z.pow_succ_r by lia. apply Z.even_mul. }
      assert (2 ^ 1 <= 2 ^ prec) by (apply Z.pow_le_mono_r; lia).
      destruct m2 as [| [p | p |] | p]; try discriminate; try lia.
      exists p. reflexivity. }
    destruct Heven as [p Hp]. rewrite Hp in *.
    cbn [shr_record_of_loc shr SpecFloat.iter_pos shr_1 shr_m fst snd].
    destruct (Z.leb_spec (g + 1) (emax - prec)); [| lia].
    cbn [rounds_to]. split; [reflexivity |].
    rewrite <- F2R_double. exact Hm2x.
  - (* otherwise the mantissa fits and nothing is shifted *)
    assert (Hn2 : fexp prec emax (Zdigits2 m2 + g) - g <= 0).
    { assert (Zdigits2 m2 <= prec) by (apply Zdigits2_le; lia). unfold fexp. lia. }
    cbn [shr_record_of_loc].
    assert (Hshr : shr {| shr_m := m2; shr_r := false; shr_s := false |} g
                       (fexp prec emax (Zdigits2 m2 + g) - g)
                   = ({| shr_m := m2; shr_r := false; shr_s := false |}, g)).
    { destruct (fexp prec emax (Zdigits2 m2 + g) - g); try reflexivity. lia. }
    rewrite Hshr. cbn [shr_m].
    destruct m2 as [| p | p]; [| | lia].
    + cbn [rounds_to]. split; [reflexivity |].
      unfold F2R in Hm2x. specialize (Hm20 eq_refl). lra.
    + destruct (Z.leb_spec g (emax - prec)); [| lia].
      cbn [rounds_to]. split; [reflexivity | exact Hm2x].
Qed.

(** Addition of two finite floats whose exact sum lies in [0, V]. *)
Lemma SFadd_upper (sx : bool) (mx : positive) (ex : Z)
    (sy : bool) (my : positive) (ey : Z) (mv : positive) (ev : Z) :
  (0 <= SF2R (S754_finite sx mx ex) + SF2R (S754_finite sy my ey) <= F2R (Zpos mv) ev)%R ->
  canonical_mantissa prec emax mv ev = true ->
  ev <= emax - prec ->
  bounded_by mv ev (SFadd prec emax (S754_finite sx mx ex) (S754_finite sy my ey)).
Proof using prec_pos.
  intros Hsum Hcan Hev. cbn [SFadd SF2R] in *.
  set (ez := Z.min ex ey) in *.
  pose proof (shl_align_spec mx ex ez) as [Hvx Hexx].
  pose proof (shl_align_spec my ey ez) as [Hvy Hexy].
  replace (snd (shl_align mx ex ez)) with ez in Hvx by lia.
  replace (snd (shl_align my ey ez)) with ez in Hvy by lia.
  set (ax := fst (shl_align mx ex ez)) in *. set (ay := fst (shl_align my ey ez)) in *.
  assert (HS : F2R (cond_Zopp sx (Zpos ax) + cond_Zopp sy (Zpos ay)) ez
               = (F2R (cond_Zopp sx (Zpos mx)) ex + F2R (cond_Zopp sy (Zpos my)) ey)%R).
  { rewrite F2R_add. destruct sx, sy; cbn [cond_Zopp]; rewrite ?F2R_opp, ?Hvx, ?Hvy;
      change (Z.neg ax) with (- Z.pos ax); change (Z.neg ay) with (- Z.pos ay);
      change (Z.neg mx) with (- Z.pos mx); change (Z.neg my) with (- Z.pos my);
      rewrite ?F2R_opp, ?Hvx, ?Hvy; reflexivity. }
  rewrite <- HS in Hsum.
  destruct (cond_Zopp sx (Zpos ax) + cond_Zopp sy (Zpos ay)) as [| p | p];
    cbn [binary_normalize bounded_by].
  - reflexivity.
  - apply (binary_round_upper false p ez mv ev); try assumption. lra.
  - exfalso. change (Z.neg p) with (- Z.pos p) in Hsum. rewrite F2R_opp in Hsum.
    pose proof (F2R_pos p ez). lra.
Qed.

(** Conversion to another format keeps a non-negative bound. *)
Lemma binary_round_bounded (m : positive) (e : Z)
    (mv : positive) (ev : Z) (mv' : positive) (ev' : Z) :
  bounded_by mv ev (S754_finite false m e) ->
  (F2R (Zpos mv) ev <= F2R (Zpos mv') ev')%R ->
  canonical_mantissa prec emax mv' ev' = true ->
  ev' <= emax - prec ->
  bounded_by mv' ev' (binary_round prec emax false m e).
Proof using prec_pos.
  intros (_ & Hle & _) HV Hcan Hev.
  apply binary_round_upper; try assumption. lra.
Qed.

(** The quotient mantissa and its location bracket the exact quotient. *)
Lemma SFdiv_core_located (mx : positive) (ex : Z) (my : positive) (ey : Z) :
  let '(q, ez, lz) := SFdiv_core_binary prec emax (Zpos mx) ex (Zpos my) ey in
  0 <= q /\
  above (shr_record_of_loc q lz) ez (F2R (Zpos mx) ex / F2R (Zpos my) ey) /\
  (F2R (Zpos mx) ex / F2R (Zpos my) ey < F2R (q + 1) ez)%R /\
  ez = Z.min (fexp prec emax (Zpos (digits2_pos mx) + ex - (Zpos (digits2_pos my) + ey)))
             (ex - ey).
Proof.
  unfold SFdiv_core_binary. cbn [Zdigits2].
  set (e' := Z.min (fexp prec emax (Zpos (digits2_pos mx) + ex - (Zpos (digits2_pos my) + ey)))
                   (ex - ey)).
  set (s := ex - ey - e').
  assert (Hs : 0 <= s) by (subst s e'; lia).
  set (m' := match s with Z.pos _ => Z.shiftl (Zpos mx) s | 0 => Zpos mx | Z.neg _ => 0 end).
  assert (Hm' : m' = Zpos mx * 2 ^ s).
  { subst m'. destruct s as [| p | p]; [cbn; lia | | lia].
    rewrite Z.shiftl_mul_pow2 by lia. reflexivity. }
  pose proof (Z_div_mod m' (Zpos my) ltac:(lia)) as Hdiv.
  destruct (Z.div_eucl m' (Zpos my)) as [q r]. destruct Hdiv as [Hqr Hr].
  assert (Hq : 0 <= q) by nia.
  assert (Hval : F2R (Zpos mx) ex
                 = (IZR (Zpos my * q + r) * powerRZ 2 e' * powerRZ 2 ey)%R).
  { rewrite <- Hqr, Hm'. rewrite <- (F2R_shift (Zpos mx) ex s Hs).
    unfold F2R. replace (ex - s) with (e' + ey) by (subst s; lia).
    rewrite bpow_add. ring. }
  pose proof (F2R_pos my ey) as HYpos.
  pose proof (bpow_pos e') as He'pos. pose proof (bpow_pos ey) as Heypos.
  assert (Hpp : (0 < powerRZ 2 e' * powerRZ 2 ey)%R) by (apply Rmult_lt_0_compat; assumption).
  assert (Hr0 : (0 <= IZR r)%R) by (apply IZR_le; lia).
  assert (Hrlt : (IZR r < IZR (Zpos my))%R) by (apply IZR_lt; lia).
  split; [exact Hq |]. split; [| split; [| reflexivity]].
  - split; rewrite shr_record_of_loc_m.
    + apply Rle_div_mult; [lra |]. rewrite Hval. unfold F2R. rewrite plus_IZR, mult_IZR. nra.
    + intros Hrs. apply Rlt_div_mult; [lra |].
      assert (Hne : r <> 0).
      { destruct (new_location_exact (Zpos my) r) as [He | [Hne _]]; [| exact Hne].
        rewrite He in Hrs. discriminate. }
      assert (0 < IZR r)%R by (apply IZR_lt; lia).
      rewrite Hval. unfold F2R. rewrite plus_IZR, mult_IZR. nra.
  - (* x / y < (q + 1) * 2^e' *)
    assert (Hlt : (F2R (Zpos mx) ex < F2R (q + 1) e' * F2R (Zpos my) ey)%R).
    { rewrite Hval. unfold F2R. rewrite !plus_IZR, mult_IZR. nra. }
    unfold Rdiv. apply (Rmult_lt_reg_r (F2R (Zpos my) ey)); [exact HYpos |].
    rewrite Rmult_assoc, Rinv_l by lra. lra.
Qed.

(** Division of a float in [0, VX] by a positive float [Y], with
    [VX / Y <= V]. *)
Lemma SFdiv_upper (x : spec_float) (my : positive) (ey : Z)
    (mvx : positive) (evx : Z) (mv : positive) (ev : Z) :
  bounded_by mvx evx x ->
  (F2R (Zpos mvx) evx <= F2R (Zpos mv) ev * F2R (Zpos my) ey)%R ->
  canonical_mantissa prec emax mv ev = true ->
  ev <= emax - prec ->
  fexp prec emax (Zpos (digits2_pos mvx) + evx - (Zpos (digits2_pos my) + ey)) <= ev ->
  bounded_by mv ev (SFdiv prec emax x (S754_finite false my ey)).
Proof using prec_pos.
  intros Hx HV Hcan Hev Hfexp.
  destruct x as [s | s | | s mx ex]; cbn [bounded_by] in Hx; try contradiction.
  - subst s. reflexivity.
  - destruct Hx as (-> & Hle & Hex). cbn [SFdiv xorb].
    pose proof (SFdiv_core_located mx ex my ey) as Hcore.
    destruct (SFdiv_core_binary prec emax (Zpos mx) ex (Zpos my) ey) as [[q ez] lz].
    destruct Hcore as (Hq & Habove & _ & Hez).
    pose proof (F2R_pos my ey) as HYpos.
    apply (binary_round_aux_upper false q ez lz (F2R (Zpos mx) ex / F2R (Zpos my) ey));
      try assumption.
    + apply Rdiv_le_mult; [lra |]. lra.
    + pose proof (mag_le mx mvx ex evx Hle).
      pose proof (fexp_mono
                    (Zpos (digits2_pos mx) + ex - (Zpos (digits2_pos my) + ey))
                    (Zpos (digits2_pos mvx) + evx - (Zpos (digits2_pos my) + ey))
                    ltac:(lia)).
      lia.
Qed.

(** Multiplication of a float in [0, VX] by a positive float [Y], with
    [VX * Y <= V]. *)
Lemma SFmul_upper (x : spec_float) (my : positive) (ey : Z)
    (mvx : positive) (evx : Z) (mv : positive) (ev : Z) :
  bounded_by mvx evx x ->
  (F2R (Zpos mvx) evx * F2R (Zpos my) ey <= F2R (Zpos mv) ev)%R ->
  canonical_mantissa prec emax mv ev = true ->
  ev <= emax - prec ->
  evx + ey <= ev ->
  bounded_by mv ev (SFmul prec emax x (S754_finite false my ey)).
Proof using prec_pos.
  intros Hx HV Hcan Hev Hexp.
  destruct x as [s | s | | s mx ex]; cbn [bounded_by] in Hx; try contradiction.
  - subst s. reflexivity.
  - destruct Hx as (-> & Hle & Hex). cbn [SFmul xorb].
    pose proof (F2R_pos my ey) as HYpos.
    apply (binary_round_aux_upper false (Zpos (mx * my)) (ex + ey) loc_Exact
             (F2R (Zpos mx) ex * F2R (Zpos my) ey)); try assumption; try lia.
    + split; cbn; [| discriminate].
      unfold F2R. rewrite Pos2Z.inj_mul, mult_IZR, bpow_add. lra.
    + pose proof (F2R_pos mx ex). nra.
Qed.

(** A valid float between [-B] and [B], [B] a normal float, is a zero or
    a finite float whose magnitude is at most that of [B]. *)
Lemma SFleb_magnitude (a : spec_float) (mc : positive) (ec : Z) :
  valid_binary prec emax a = true ->
  2 ^ (prec - 1) <= Zpos mc ->
  SFleb (S754_finite true mc ec) a = true ->
  SFleb a (S754_finite false mc ec) = true ->
  match a with
  | S754_zero _ => True
  | S754_finite _ m e => (F2R (Zpos m) e <= F2R (Zpos mc) ec)%R
  | _ => False
  end.
Proof using prec_pos.
  intros Hvalid Hnormal Hlo Hhi.
  destruct a as [s | s | | s m e]; [exact I | destruct s; discriminate | discriminate |].
  assert (Hcmp : e < ec \/ (e = ec /\ Zpos m <= Zpos mc)).
  { destruct s.
    - unfold SFleb, SFcompare in Hlo.
      destruct (Z.compare_spec ec e) as [Heq | Hlt | Hgt]; try discriminate; [| left; lia].
      right. split; [lia |]. fold (Pos.compare mc m) in Hlo.
      destruct (Pos.compare_spec mc m) as [Hc | Hc | Hc]; try discriminate; lia.
    - unfold SFleb, SFcompare in Hhi.
      destruct (Z.compare_spec e ec) as [Heq | Hlt | Hgt]; try discriminate; [| left; lia].
      right. split; [lia |]. fold (Pos.compare m mc) in Hhi.
      destruct (Pos.compare_spec m mc) as [Hc | Hc | Hc]; try discriminate; lia. }
  destruct Hcmp as [Hlt | [-> Hle]]; [| apply F2R_le; exact Hle].
  cbn [valid_binary] in Hvalid. unfold bounded, canonical_mantissa in Hvalid.
  apply andb_prop in Hvalid. destruct Hvalid as [Hcan _]. apply Z.eqb_eq in Hcan.
  assert (Hdig : Zpos (digits2_pos m) <= prec) by (unfold fexp in Hcan; lia).
  destruct (digits2_bounds m) as [_ Hm].
  assert (Hm' : Zpos m < 2 ^ prec).
  { apply (Z.lt_le_trans _ _ _ Hm). apply Z.pow_le_mono_r; lia. }
  apply F2R_le_aligned; [lia |].
  assert (2 ^ prec <= Zpos mc * 2 ^ (ec - e)); [| lia].
  replace prec with ((prec - 1) + 1) at 1 by lia. rewrite Z.pow_add_r by lia.
  assert (2 ^ 1 <= 2 ^ (ec - e)) by (apply Z.pow_le_mono_r; lia).
  assert (0 < 2 ^ (prec - 1)) by (apply Z.pow_pos_nonneg; lia).
  nia.
Qed.

End Rounding.

(** *** The casts of lines 42-44 *)

(** [M_PI] is a [double], and no [double] is nearer to the decimal
    3.14159265358979323846 of the macro: the distance is at most half the
    gap [2^-51] between neighbouring doubles (both sides scaled by
    [2^51 * 10^20]). *)
Lemma M_PI_nearest :
  exists m : positive,
    M_PI = S754_finite false m (-51) /\ F64.valid M_PI = true /\
    2 * Z.abs (Zpos m * 10 ^ 20 - 314159265358979323846 * 2 ^ 51) <= 10 ^ 20.
Proof.
  exists 7074237752028440%positive. repeat split. vm_compute. discriminate.
Qed.

(** [(float)M_PI] is 0x40490FDB, above [M_PI]. *)
Lemma M_PI_f_value :
  M_PI_f = S754_finite false 13176795 (-22) /\ F32.valid M_PI_f = true /\
  SFltb M_PI (F64.of_float M_PI_f) = true.
Proof. repeat split. Qed.

(** Both ends of each range are reached. *)
Lemma scale_endpoints :
  static_cast_int (scale_pi (SFopp M_PI_f)) = Ok 0 /\
  static_cast_int (scale_pi M_PI_f) = Ok 18 /\
  static_cast_int (scale_half_pi (SFopp HALF_PI_f)) = Ok 0 /\
  static_cast_int (scale_half_pi HALF_PI_f) = Ok 18.
Proof. repeat split. Qed.

(** The truncation of a float in [0, V] with [V < n + 1] is an [int] in
    [0, n]. *)
Lemma static_cast_int_bounded (mv : positive) (ev : Z) (r : spec_float) (n : Z) :
  bounded_by mv ev r ->
  (F2R (Zpos mv) ev < IZR (n + 1))%R ->
  0 <= n <= Int.INT_MAX ->
  exists b, static_cast_int r = Ok b /\ 0 <= b <= n.
Proof.
  intros Hr HV Hn. unfold static_cast_int, Int.checked, Int.in_range.
  assert (Hmin : Int.INT_MIN <= 0) by (unfold Int.INT_MIN; lia).
  destruct r as [s | s | | s m e]; cbn [bounded_by] in Hr; try contradiction; cbn [Ztrunc].
  - exists 0. split; [| lia].
    destruct (Z.leb_spec Int.INT_MIN 0), (Z.leb_spec 0 Int.INT_MAX); try lia. reflexivity.
  - destruct Hr as (-> & Hle & _).
    set (mag := Z.shiftl (Zpos m) e).
    assert (Hmag : 0 <= mag /\ (IZR mag <= F2R (Zpos m) e)%R).
    { subst mag. destruct (Z.le_gt_cases 0 e) as [He | He].
      - rewrite Z.shiftl_mul_pow2 by exact He. split; [lia |].
        unfold F2R. rewrite mult_IZR, <- bpow_IZR by exact He. lra.
      - rewrite Z.shiftl_div_pow2 by lia.
        assert (Hpow : 0 < 2 ^ (- e)) by (apply Z.pow_pos_nonneg; lia).
        pose proof (Z.mul_div_le (Zpos m) (2 ^ (- e)) Hpow) as Hdiv.
        split; [apply Z.div_pos; lia |].
        rewrite <- F2R_0. rewrite <- (F2R_shift (Z.pos m / 2 ^ (- e)) 0 (- e)) by lia.
        replace (0 - - e) with e by lia. apply F2R_le. lia. }
    destruct Hmag as [Hmag0 Hmag1].
    assert (mag < n + 1) by (apply lt_IZR; lra).
    exists mag. split; [| lia].
    destruct (Z.leb_spec Int.INT_MIN mag), (Z.leb_spec mag Int.INT_MAX); try lia. reflexivity.
Qed.

Lemma scale_pi_eq (angle : spec_float) :
  scale_pi angle
  = scale (S754_finite false 13176795 (-22)) (S754_finite false 7074237752028440 (-50)) angle.
Proof. reflexivity. Qed.

Lemma scale_half_pi_eq (angle : spec_float) :
  scale_half_pi angle
  = scale (S754_finite false 13176795 (-23)) (S754_finite false 7074237752028440 (-51)) angle.
Proof. reflexivity. Qed.

Lemma within_inv (B a : spec_float) :
  within B a = true ->
  F32.valid a = true /\ SFleb (SFopp B) a = true /\ SFleb a B = true.
Proof.
  unfold within. intros H. andb_elim H. auto.
Qed.

Lemma scale_bucket (mc : positive) (ec : Z) (md : positive) (ed : Z) (a : spec_float) :
  2 ^ 23 <= Zpos mc < 2 ^ 24 ->
  -148 <= ec <= 0 ->
  2 ^ 52 <= Zpos md < 2 ^ 53 ->
  ed = ec - 28 ->
  Zpos mc * 2 ^ 81 <= 4503603922337792 * Zpos md ->
  within (S754_finite false mc ec) a = true ->
  exists b,
    static_cast_int (scale (S754_finite false mc ec) (S754_finite false md ed) a) = Ok b /\
    0 <= b <= 18.
Proof.
  intros Hmc Hec Hmd Hed Hratio Hin.
  apply within_inv in Hin. destruct Hin as (Hvalid & Hlo & Hhi).
  pose proof (SFleb_magnitude 24 128 ltac:(lia) a mc ec Hvalid ltac:(lia) Hlo Hhi) as Hmag.
  assert (Hdig : forall (m : positive) (k : Z), 0 < k -> 2 ^ (k - 1) <= Zpos m < 2 ^ k ->
                 Zpos (digits2_pos m) = k).
  { intros m k Hk [H1 H2]. destruct (digits2_bounds m) as [H3 H4].
    destruct (Z.lt_trichotomy (Zpos (digits2_pos m)) k) as [Hlt | [Heq | Hgt]]; [| exact Heq |].
    - assert (2 ^ Zpos (digits2_pos m) <= 2 ^ (k - 1)) by (apply Z.pow_le_mono_r; lia). lia.
    - assert (2 ^ k <= 2 ^ (Zpos (digits2_pos m) - 1)) by (apply Z.pow_le_mono_r; lia). lia. }
  (* the sum, at most twice the offset *)
  assert (Hsum : bounded_by mc (ec + 1) (F32.add a (S754_finite false mc ec))).
  { assert (Hcan : canonical_mantissa 24 128 mc (ec + 1) = true).
    { unfold canonical_mantissa, fexp, emin. rewrite (Hdig mc 24) by lia. apply Z.eqb_eq. lia. }
    pose proof (F2R_pos mc ec) as Hpos.
    assert (Htwice : F2R (Zpos mc) (ec + 1) = (2 * F2R (Zpos mc) ec)%R).
    { rewrite <- F2R_double. unfold F2R. rewrite mult_IZR. ring. }
    destruct a as [s | s | | s m e]; try contradiction.
    - cbn. repeat split; [| lia]. lra.
    - apply (SFadd_upper 24 128 ltac:(lia)); try assumption; try lia.
      cbn [SF2R]. rewrite Htwice. pose proof (F2R_pos m e).
      destruct s; cbn [cond_Zopp].
      + change (Z.neg m) with (- Z.pos m). rewrite F2R_opp. lra.
      + lra. }
  (* the same value as a double *)
  assert (Hdbl : bounded_by (mc * 536870912) ed
                   (F64.of_float (F32.add a (S754_finite false mc ec)))).
  { destruct (F32.add a (S754_finite false mc ec)) as [s | s | | s m e];
      cbn [bounded_by] in Hsum; try contradiction; [exact Hsum |].
    destruct Hsum as (-> & Hle & He).
    apply (binary_round_bounded 53 1024 ltac:(lia) m e mc (ec + 1)); try lia.
    - cbn. auto.
    - rewrite Pos2Z.inj_mul. change (Z.pos 536870912) with (2 ^ 29).
      replace ed with (ec + 1 - 29) by lia. rewrite F2R_shift by lia. lra.
    - unfold canonical_mantissa, fexp, emin.
      rewrite (Hdig (mc * 536870912)%positive 53) by lia. apply Z.eqb_eq. lia. }
  (* the quotient, at most 1 + 2^-20 *)
  assert (Hquo : bounded_by (fst quotient_bound) (snd quotient_bound)
                   (F64.div (F64.of_float (F32.add a (S754_finite false mc ec)))
                            (S754_finite false md ed))).
  { apply (SFdiv_upper 53 1024 ltac:(lia) _ md ed (mc * 536870912) ed); try assumption; try lia.
    - rewrite F2R_mul. cbn [fst snd quotient_bound].
      apply F2R_le_aligned_r; [lia |].
      replace (ed - (-52 + ed)) with 52 by lia. rewrite Pos2Z.inj_mul.
      change (Z.pos 536870912) with (2 ^ 29). 
      replace (2 ^ 81) with (2 ^ 29 * 2 ^ 52) in Hratio by reflexivity. lia.
    - reflexivity.
    - cbn [fst snd quotient_bound]. lia.
    - rewrite (Hdig (mc * 536870912)%positive 53), (Hdig md 53) by lia.
      cbn [fst snd quotient_bound]. unfold fexp, emin. lia. }
  (* the product, at most 18.5 *)
  assert (Hprod : bounded_by (fst product_bound) (snd product_bound)
                    (scale (S754_finite false mc ec) (S754_finite false md ed) a)).
  { unfold scale. change (F64.of_int 18) with (S754_finite false 5066549580791808 (-48)).
    apply (SFmul_upper 53 1024 ltac:(lia) _ _ _ (fst quotient_bound) (snd quotient_bound));
      try assumption; try lia.
    - rewrite F2R_mul. apply F2R_le_aligned; [cbn; lia |]. vm_compute. discriminate.
    - reflexivity.
    - cbn. lia.
    - cbn. lia. }
  apply (static_cast_int_bounded _ _ _ 18 Hprod).
  - rewrite <- F2R_0. apply F2R_lt_aligned; [cbn; lia |]. vm_compute. reflexivity.
  - unfold Int.INT_MAX. lia.
Qed.

Lemma scale_pi_bucket (a : spec_float) :
  within M_PI_f a = true ->
  exists b, static_cast_int (scale_pi a) = Ok b /\ 0 <= b <= 18.
Proof.
  intros H. rewrite scale_pi_eq.
  apply scale_bucket; try lia; try exact H.
Qed.

Lemma scale_half_pi_bucket (a : spec_float) :
  within HALF_PI_f a = true ->
  exists b, static_cast_int (scale_half_pi a) = Ok b /\ 0 <= b <= 18.
Proof.
  intros H. rewrite scale_half_pi_eq.
  apply scale_bucket; try lia; try exact H.
Qed.

(** *** Division by one *)

(** Division by [1.0f] is exact on every float. *)
Lemma div_one (a : spec_float) : F32.valid a = true -> F32.div a F32.one = a.
Proof.
  intros Hvalid.
  destruct a as [s | s | | s m e]; cbn [F32.div SFdiv F32.one];
    rewrite ?xorb_false_r; try reflexivity.
  cbn [F32.valid valid_binary] in Hvalid. unfold bounded, canonical_mantissa in Hvalid.
  apply andb_prop in Hvalid. destruct Hvalid as [Hcan Hmax].
  apply Z.eqb_eq in Hcan. apply Z.leb_le in Hmax.
  unfold SFdiv_core_binary. cbn [Zdigits2].
  change (Z.pos (digits2_pos 8388608)) with 24.
  set (d := Z.pos (digits2_pos m)) in *.
  assert (Hd : 0 < d) by (subst d; lia).
  set (e' := Z.min (fexp F32.prec F32.emax (d + e - (24 + -23))) (e - -23)).
  assert (Hcases : (e' = e - 1 /\ -148 <= e) \/ (e' = e /\ e = -149)).
  { subst e'. unfold fexp, emin, F32.prec, F32.emax in *. lia. }
  assert (Hfexp : fexp F32.prec F32.emax (d + e) = e) by exact Hcan.
  destruct Hcases as [[He' He] | [He' He]]; rewrite He'.
  - (* normal: the quotient is [2 * m] one exponent below *)
    replace (e - -23 - (e - 1)) with 24 by lia.
    cbv beta iota. rewrite Z.shiftl_mul_pow2 by lia.
    pose proof (Z_div_mod (Z.pos m * 2 ^ 24) 8388608 ltac:(lia)) as Hdiv.
    destruct (Z.div_eucl (Z.pos m * 2 ^ 24) 8388608) as [q r].
    destruct Hdiv as [Hqr Hr].
    assert (Hq : q = Z.pos m~0 /\ r = 0).
    { change (Z.pos m~0) with (2 * Z.pos m). change (2 ^ 24) with (8388608 * 2) in Hqr. lia. }
    destruct Hq as [-> ->].
    unfold binary_round_aux, shr_fexp. cbn [Zdigits2 digits2_pos].
    rewrite Pos2Z.inj_succ. fold d.
    replace (Z.succ d + (e - 1)) with (d + e) by lia. rewrite Hfexp.
    replace (e - (e - 1)) with 1 by lia.
    cbn [new_location Z.even new_location_even Z.eqb shr_record_of_loc shr SpecFloat.iter_pos
         shr_1 loc_of_shr_record round_nearest_even shr_m orb].
    cbn [Zdigits2]. fold d. replace (e - 1 + 1) with e by lia.
    rewrite Hfexp, Z.sub_diag. cbn [shr shr_m].
    destruct (Z.leb_spec e (F32.emax - F32.prec)); [reflexivity | lia].
  - (* the least exponent: the quotient is [m] itself *)
    replace (e - -23 - e) with 23 by lia.
    cbv beta iota. rewrite Z.shiftl_mul_pow2 by lia.
    pose proof (Z_div_mod (Z.pos m * 2 ^ 23) 8388608 ltac:(lia)) as Hdiv.
    destruct (Z.div_eucl (Z.pos m * 2 ^ 23) 8388608) as [q r].
    destruct Hdiv as [Hqr Hr].
    assert (Hq : q = Z.pos m /\ r = 0).
    { change (2 ^ 23) with 8388608 in Hqr. lia. }
    destruct Hq as [-> ->].
    unfold binary_round_aux, shr_fexp. cbn [Zdigits2]. fold d.
    rewrite Hfexp, Z.sub_diag.
    cbn [new_location Z.even new_location_even Z.eqb shr_record_of_loc shr
         loc_of_shr_record round_nearest_even shr_m].
    cbn [Zdigits2]. fold d. rewrite Hfexp, Z.sub_diag. cbn [shr shr_m].
    destruct (Z.leb_spec e (F32.emax - F32.prec)); [reflexivity | lia].
Qed.


(** *** Division by a norm next to one *)

Lemma Zdigits2_mag (q ez k : Z) :
  0 <= q -> ez <= k -> (F2R q ez < powerRZ 2 k)%R -> Zdigits2 q + ez <= k.
Proof.
  intros Hq He H. destruct q as [| p | p]; cbn [Zdigits2]; [lia | | lia].
  destruct (digits2_bounds p) as [Hlo _].
  assert (Zpos (digits2_pos p) - 1 + ez < k); [| lia].
  apply bpow_lt_inv. rewrite bpow_add, (bpow_IZR (Zpos (digits2_pos p) - 1)) by lia.
  apply IZR_le in Hlo. unfold F2R in H. pose proof (bpow_pos ez). nra.
Qed.

Lemma near_one_inv (n : spec_float) :
  near_one n = true ->
  exists (mn : positive) (en : Z),
    n = S754_finite false mn en /\ -24 <= en <= -23 /\ Zpos (digits2_pos mn) = 24 /\
    (1 - powerRZ 2 (-23) <= F2R (Zpos mn) en <= 1 + powerRZ 2 (-23))%R.
Proof.
  unfold near_one. intros H.
  apply andb_prop in H. destruct H as [H Hhi]. apply andb_prop in H. destruct H as [Hv Hlo].
  destruct n as [s | s | | s m e]; try (destruct s; discriminate); try discriminate.
  destruct s; [discriminate |].
  unfold SFleb, SFcompare in Hlo, Hhi.
  assert (Hcases : (e = -24 /\ 16777214 <= Zpos m) \/ (e = -23 /\ Zpos m <= 8388609)).
  { destruct (Z.compare_spec (-24) e) as [He | He | He]; try discriminate.
    - left. split; [lia |]. fold (Pos.compare 16777214 m) in Hlo.
      destruct (Pos.compare_spec 16777214 m); try discriminate; lia.
    - right. destruct (Z.compare_spec e (-23)) as [He' | He' | He']; try discriminate; try lia.
      split; [lia |]. fold (Pos.compare m 8388609) in Hhi.
      destruct (Pos.compare_spec m 8388609); try discriminate; lia. }
  cbn [F32.valid valid_binary] in Hv. unfold bounded, canonical_mantissa in Hv.
  apply andb_prop in Hv. destruct Hv as [Hcan _]. apply Z.eqb_eq in Hcan.
  assert (Hd : Zpos (digits2_pos m) = 24).
  { unfold fexp, emin, F32.prec, F32.emax in Hcan. lia. }
  destruct (digits2_bounds m) as [Hmlo Hmhi]. rewrite Hd in Hmlo, Hmhi.
  exists m, e. split; [reflexivity |]. split; [lia |]. split; [exact Hd |].
  assert (Hu : (powerRZ 2 (-23) * IZR (2 ^ 23) = 1)%R).
  { rewrite <- bpow_IZR, <- bpow_add by lia. reflexivity. }
  change (2 ^ 23) with 8388608 in Hu.
  assert (Hu' : (powerRZ 2 (-24) * IZR (2 ^ 1) = powerRZ 2 (-23))%R).
  { rewrite <- bpow_IZR, <- bpow_add by lia. reflexivity. }
  change (2 ^ 1) with 2 in Hu'.
  unfold F2R.
  destruct Hcases as [[-> Hm] | [-> Hm]].
  - assert (IZR 16777214 <= IZR (Zpos m) <= IZR 16777215)%R by (split; apply IZR_le; lia).
    pose proof (bpow_pos (-24)). nra.
  - assert (IZR 8388608 <= IZR (Zpos m) <= IZR 8388609)%R by (split; apply IZR_le; lia).
    pose proof (bpow_pos (-23)). nra.
Qed.

(** Dividing a component of magnitude at most 1 by a norm within [2^-23]
    of 1 moves it by at most five units in its last place. *)
Lemma div_near_one (c n : spec_float) :
  within F32.one c = true -> near_one n = true -> close (F32.div c n) c.
Proof.
  intros Hc Hn.
  destruct (near_one_inv n Hn) as (mn & en & -> & Hen & Hdn & HY).
  apply within_inv in Hc. destruct Hc as (Hvalid & Hlo & Hhi).
  pose proof (SFleb_magnitude 24 128 ltac:(lia) c 8388608 (-23) Hvalid ltac:(lia) Hlo Hhi)
    as Hmag.
  destruct c as [s | s | | s m e]; try contradiction.
  - (* a zero stays a zero *)
    cbn. rewrite Rminus_0_r, Rabs_R0. lra.
  - cbn [F32.valid valid_binary] in Hvalid. unfold bounded, canonical_mantissa in Hvalid.
    apply andb_prop in Hvalid. destruct Hvalid as [Hcan Hemax].
    apply Z.eqb_eq in Hcan. apply Z.leb_le in Hemax.
    unfold F32.prec, F32.emax in Hcan, Hemax.
    set (d := Zpos (digits2_pos m)) in *.
    set (X := F2R (Zpos m) e) in *. set (Y := F2R (Zpos mn) en) in *.
    set (U := powerRZ 2 e).
    pose proof (bpow_pos e) as HU. fold U in HU.
    (* constants *)
    assert (Hu : (powerRZ 2 (-23) * IZR (2 ^ 23) = 1)%R).
    { rewrite <- bpow_IZR, <- bpow_add by lia. reflexivity. }
    change (2 ^ 23) with 8388608 in Hu.
    assert (Hu' : powerRZ 2 (-23) = (/ 8388608)%R) by lra.
    assert (Hone : F2R 8388608 (-23) = 1%R) by (unfold F2R; lra).
    rewrite Hu' in HY. rewrite Hone in Hmag. clear Hu Hu' Hone.
    (* the component *)
    assert (Hd : 0 < d <= 24) by (subst d; unfold fexp, emin in Hcan; lia).
    assert (Hemin : -149 <= e) by (unfold fexp, emin in Hcan; lia).
    assert (HXpos : (0 < X)%R) by apply F2R_pos.
    assert (HXd : (X < powerRZ 2 (d + e))%R).
    { destruct (digits2_bounds m) as [_ Hm]. fold d in Hm. apply IZR_lt in Hm.
      rewrite bpow_add, (bpow_IZR d) by lia. unfold X, F2R. fold U. nra. }
    assert (HXU : (X < 16777216 * U)%R).
    { assert (powerRZ 2 (d + e) <= powerRZ 2 (24 + e))%R by (apply bpow_le; lia).
      rewrite (bpow_add 24 e), (bpow_IZR 24) in H by lia.
      change (2 ^ 24) with 16777216 in H. fold U in H. lra. }
    assert (HUX : (U <= X)%R).
    { unfold X, F2R. fold U. assert (1 <= IZR (Zpos m))%R by (apply IZR_le; lia). nra. }
    assert (He0 : e <= 0).
    { destruct (Z.le_gt_cases e 0) as [H | H]; [exact H | exfalso].
      assert (powerRZ 2 1 <= powerRZ 2 e)%R by (apply bpow_le; lia).
      change (powerRZ 2 1) with (2 * 1)%R in H0. fold U in H0. lra. }
    (* the exact quotient *)
    set (x := (X / Y)%R).
    assert (HYpos : (0 < Y)%R) by lra.
    assert (HxY : (x * Y = X)%R).
    { unfold x, Rdiv. rewrite Rmult_assoc, Rinv_l by lra. lra. }
    assert (Hxpos : (0 < x)%R) by (apply Rdiv_lt_0_compat; assumption).
    assert (Hx1 : (x * (1 - / 8388608) <= X)%R) by (rewrite <- HxY; nra).
    assert (Hx2 : (X <= x * (1 + / 8388608))%R) by (rewrite <- HxY; nra).
    (* the quotient mantissa *)
    cbn [F32.div SFdiv]. fold F32.prec F32.emax.
    pose proof (SFdiv_core_located 24 128 m e mn en) as Hcore.
    change F32.prec with 24. change F32.emax with 128.
    destruct (SFdiv_core_binary 24 128 (Z.pos m) e (Z.pos mn) en) as [[q ez] lz].
    destruct Hcore as (Hq & Habove & Hbelow & Hez).
    fold X Y x in Habove, Hbelow. fold d in Hez. rewrite Hdn in Hez.
    assert (Hez_le : ez <= e) by (unfold fexp, emin in *; lia).
    assert (Hqmag : Zdigits2 q + ez <= d + e + 1).
    { apply Zdigits2_mag; [exact Hq | lia |].
      destruct Habove as [Hle _]. rewrite shr_record_of_loc_m in Hle.
      rewrite (bpow_add (d + e) 1). change (powerRZ 2 1) with (2 * 1)%R. lra. }
    set (g := Z.max ez (fexp 24 128 (Zdigits2 q + ez))).
    assert (Hg : g <= e + 1).
    { pose proof (fexp_mono 24 128 _ _ Hqmag). subst g. unfold fexp, emin in *. lia. }
    assert (HgU : (powerRZ 2 g <= 2 * U)%R).
    { apply bpow_le in Hg. rewrite bpow_add in Hg.
      change (powerRZ 2 1) with (2 * 1)%R in Hg. fold U in Hg. lra. }
    pose proof (binary_round_aux_faithful 24 128 ltac:(lia) (xorb s false) q ez lz x
                  Hq Habove Hbelow ltac:(fold g; lia)) as Hround.
    fold g in Hround.
    destruct (binary_round_aux 24 128 (xorb s false) q ez lz) as [s' | s' | | s' m' e'];
      cbn [rounds_to] in Hround; try contradiction; unfold close.
    + (* rounded to zero *)
      destruct Hround as [_ Hx0]. cbn [SF2R ulp]. fold U.
      apply Rabs_le. destruct s; cbn [cond_Zopp].
      * change (Z.neg m) with (- Z.pos m). rewrite F2R_opp. fold X. lra.
      * fold X. lra.
    + destruct Hround as [Hs Hx0]. cbn [SF2R ulp]. fold U.
      rewrite Hs. replace (xorb s false) with s by (destruct s; reflexivity).
      apply Rabs_le. destruct s; cbn [cond_Zopp].
      * change (Z.neg m') with (- Z.pos m'). change (Z.neg m) with (- Z.pos m).
        rewrite !F2R_opp. fold X. lra.
      * fold X. lra.
Qed.

(** *** std::string and print *)

Lemma size_of_small (v : Z) : 0 <= v < Size.modulus -> Size.of_Z v = v.
Proof. intros H. unfold Size.of_Z. apply Z.mod_small. exact H. Qed.

Lemma string_fill_ok (count : Z) (ch : ascii) :
  count <= string_max_size ->
  string_fill count ch = Ok (string_repeat (Z.to_nat count) ch).
Proof.
  intros H. unfold string_fill.
  destruct (Z.leb_spec count string_max_size); [reflexivity | lia].
Qed.

Lemma string_fill_throws (count : Z) (ch : ascii) :
  string_max_size < count -> string_fill count ch = Throw length_error.
Proof.
  intros H. unfold string_fill.
  destruct (Z.leb_spec count string_max_size); [lia | reflexivity].
Qed.

Lemma string_repeat_length (n : nat) (ch : ascii) :
  String.length (string_repeat n ch) = n.
Proof. induction n as [| n IH]; simpl; [reflexivity | now rewrite IH]. Qed.

Lemma string_app_length (s t : string) :
  String.length (s ++ t) = (String.length s + String.length t)%nat.
Proof. induction s as [| c s IH]; simpl; [reflexivity | now rewrite IH]. Qed.

Lemma gauge_bar (b : Z) : 0 <= b <= 18 -> gauge b = Ok (bar b).
Proof.
  intros Hb. unfold gauge, bar, Int.sub, Int.checked, Int.in_range.
  assert (Hmod : Size.modulus = 18446744073709551616) by reflexivity.
  assert (Hmax : string_max_size = 4611686018427387903) by reflexivity.
  rewrite (size_of_small b) by lia.
  rewrite string_fill_ok by lia. cbn [bind].
  replace ((Int.INT_MIN <=? 18 - b) && (18 - b <=? Int.INT_MAX)) with true.
  2:{ symmetry. apply andb_true_intro. unfold Int.INT_MIN, Int.INT_MAX.
      split; apply Z.leb_le; lia. }
  cbn [bind].
  rewrite (size_of_small (18 - b)) by lia.
  rewrite string_fill_ok by lia. reflexivity.
Qed.

Lemma name_field_padded (name : string) :
  (String.length name <= 16)%nat -> name_field name = Ok (padded_name name).
Proof.
  intros H. unfold name_field, padded_name, Size.sub, string_size.
  assert (Hmod : Size.modulus = 18446744073709551616) by reflexivity.
  assert (Hmax : string_max_size = 4611686018427387903) by reflexivity.
  rewrite size_of_small by lia.
  rewrite string_fill_ok by lia. cbn [bind].
  replace (Z.to_nat (16 - Z.of_nat (String.length name)))
    with (16 - String.length name)%nat by lia.
  reflexivity.
Qed.


Lemma name_field_long (name : string) :
  16 < string_size name <= string_max_size ->
  name_field name = Throw length_error.
Proof.
  intros H. unfold name_field, Size.sub, Size.of_Z.
  assert (Hmod : Size.modulus = 18446744073709551616) by reflexivity.
  assert (Hmax : string_max_size = 4611686018427387903) by reflexivity.
  rewrite string_fill_throws; [reflexivity |].
  rewrite <- (Z.mod_add (16 - string_size name) 1 Size.modulus) by lia.
  rewrite Z.mod_small by lia. lia.
Qed.

Lemma name_field_ok_inv (name field : string) :
  string_size name <= string_max_size ->
  name_field name = Ok field ->
  (String.length name <= 16)%nat /\ field = padded_name name.
Proof.
  intros Hsize H.
  destruct (Nat.le_gt_cases (String.length name) 16) as [Hle | Hgt].
  - split; [exact Hle |]. rewrite name_field_padded in H by exact Hle. congruence.
  - rewrite name_field_long in H; [discriminate |].
    unfold string_size in *. lia.
Qed.

Lemma print_ok_inv (this : DataCollector) (r : DataCollector * string) :
  print this = Ok r ->
  exists g1 g2 g3 f,
    gauge (roll_w this) = Ok g1 /\ gauge (pitch_w this) = Ok g2 /\
    gauge (yaw_w this) = Ok g3 /\ name_field (toString (currentPose this)) = Ok f /\
    r = (this, String "013" (g1 ++ g2 ++ g3 ++ f)%string).
Proof.
  unfold print.
  destruct (gauge (roll_w this)) as [g1 | |]; cbn [bind]; try discriminate.
  destruct (gauge (pitch_w this)) as [g2 | |]; cbn [bind]; try discriminate.
  destruct (gauge (yaw_w this)) as [g3 | |]; cbn [bind]; try discriminate.
  destruct (name_field (toString (currentPose this))) as [f | |]; cbn [bind];
    try discriminate.
  intros H. injection H as <-. exists g1, g2, g3, f. repeat split; reflexivity.
Qed.

Lemma padded_name_length (name : string) :
  (String.length name <= 16)%nat -> String.length (padded_name name) = 18%nat.
Proof.
  intros H. unfold padded_name. cbn [String.length append].
  rewrite !string_app_length, string_repeat_length. cbn [String.length]. lia.
Qed.

(** *** The closed form (C1) *)

Lemma SFsub_opp_r (prec emax : Z) (a b : spec_float) :
  SFsub prec emax a (SFopp b) = SFadd prec emax a b.
Proof.
  destruct a as [sa | sa | | sa ma ea], b as [sb | sb | | sb mb eb]; simpl;
    try reflexivity;
    try (destruct sa, sb; reflexivity);
    destruct sb; reflexivity.
Qed.

Lemma rescale_pi (angle : spec_float) :
  rescale (SFopp M_PI_f) (F64.sub M_PI (SFopp M_PI)) angle = scale_pi angle.
Proof.
  unfold rescale, scale_pi, F32.sub, F32.add.
  rewrite SFsub_opp_r. reflexivity.
Qed.

Lemma rescale_half_pi (angle : spec_float) :
  rescale (SFopp HALF_PI_f) (F64.sub HALF_PI (SFopp HALF_PI)) angle = scale_half_pi angle.
Proof.
  unfold rescale, scale_half_pi, F32.sub, F32.add.
  rewrite SFsub_opp_r. reflexivity.
Qed.

(** C1: on every orientation event the three angles are the closed form
    applied to the normalized quaternion, each angle is mapped linearly from
    its range ([-pi, pi] for roll and yaw, [-pi/2, pi/2] for pitch) onto 18
    buckets and truncated to an [int]; the pose is kept. *)
Theorem onOrientationData_closed_form
    (this : DataCollector) (myo : Myo) (timestamp : Z) (quat : myo.Quaternion) :
  let '(r, p, y) := euler_angles (normalized quat) in
  onOrientationData this myo timestamp quat =
    (roll_w <- bucket_pi r ;;
     pitch_w <- bucket_half_pi p ;;
     yaw_w <- bucket_pi y ;;
     Ok (mkDataCollector roll_w pitch_w yaw_w (currentPose this))).
Proof.
  unfold euler_angles, bucket_pi, bucket_half_pi.
  rewrite !rescale_pi, rescale_half_pi.
  unfold onOrientationData, roll, pitch, yaw.
  destruct (normalized quat) as [x y z w]. reflexivity.
Qed.

(** *** The range of the bar lengths (C2) *)

Lemma onOrientationData_in_range
    (this : DataCollector) (myo : Myo) (timestamp : Z) (quat : myo.Quaternion) :
  angles_expected quat = true ->
  exists this',
    onOrientationData this myo timestamp quat = Ok this' /\ bars_in_range this'.
Proof.
  unfold angles_expected. intros Hr. andb_elim Hr. rename Hr0 into Hy, Hr1 into Hp.
  destruct (scale_pi_bucket _ Hr) as (r & Er & Br).
  destruct (scale_half_pi_bucket _ Hp) as (p & Ep & Bp).
  destruct (scale_pi_bucket _ Hy) as (y & Ey & By).
  unfold onOrientationData. rewrite Er, Ep, Ey. cbn [bind].
  eexists. split; [reflexivity |]. unfold bars_in_range. cbn. auto.
Qed.

Lemma perform_in_range (this this' : DataCollector) (op : Operation) :
  operation_expected op = true ->
  bars_in_range this ->
  perform this op = Ok this' ->
  bars_in_range this'.
Proof.
  intros Hop Hin. destruct op as [myo ts quat | myo ts pose |]; cbn [perform].
  - destruct (onOrientationData_in_range this myo ts quat Hop) as (d & -> & Hd).
    intros H. injection H as <-. exact Hd.
  - intros H. injection H as <-. unfold onPose. cbn [currentPose pitch_w].
    destruct (Pose_eq_dec pose fist); [destruct (pitch_w this <? 5) |]; exact Hin.
  - destruct (print this) as [[d out] | |] eqn:Hp; cbn [bind]; try discriminate.
    intros H. injection H as <-. apply print_ok_inv in Hp.
    destruct Hp as (g1 & g2 & g3 & f & _ & _ & _ & _ & Hp).
    injection Hp as -> _. exact Hin.
Qed.

(** C2: an angle within its range ([-pi, pi] for roll and yaw, [-pi/2,
    pi/2] for pitch, the bounds as [float]s) is converted to a bar length
    within [0, 18]; the three fields are 0 after construction and stay
    within [0, 18] after every sequence of member calls whose orientation
    events have their angles in range. *)
Theorem bars_stay_in_range (ops : list Operation) :
  (forall angle, within M_PI_f angle = true ->
     exists b, static_cast_int (scale_pi angle) = Ok b /\ 0 <= b <= 18) /\
  (forall angle, within HALF_PI_f angle = true ->
     exists b, static_cast_int (scale_half_pi angle) = Ok b /\ 0 <= b <= 18) /\
  bars_in_range DataCollector_new /\
  (forallb operation_expected ops = true ->
   forall this', perform_all DataCollector_new ops = Ok this' -> bars_in_range this').
Proof.
  split; [exact scale_pi_bucket |]. split; [exact scale_half_pi_bucket |].
  assert (Hnew : bars_in_range DataCollector_new).
  { unfold bars_in_range. cbn. lia. }
  split; [exact Hnew |].
  generalize DataCollector_new Hnew. clear Hnew.
  induction ops as [| op ops IH]; intros this Hin Hops this'; cbn [perform_all].
  - intros H. injection H as <-. exact Hin.
  - cbn [forallb] in Hops. apply andb_prop in Hops. destruct Hops as [Hop Hops].
    destruct (perform this op) as [d | |] eqn:Hd; cbn [bind]; try discriminate.
    apply (IH d); [| exact Hops].
    exact (perform_in_range this d op Hop Hin Hd).
Qed.

(** *** The identity quaternion (C3) *)

Lemma normalized_identity : normalized identity_quat = identity_quat.
Proof. reflexivity. Qed.

(** C3: for the identity quaternion the three angles are 0 and the three
    buckets are 9, given the values Annex F fixes for [atan2f(+0, 1)] and
    [asinf(+0)]. *)
Theorem identity_quaternion_buckets
    (this : DataCollector) (myo : Myo) (timestamp : Z) :
  atan2f F32.zero F32.one = F32.zero ->
  asinf F32.zero = F32.zero ->
  roll (normalized identity_quat) = F32.zero /\
  pitch (normalized identity_quat) = F32.zero /\
  yaw (normalized identity_quat) = F32.zero /\
  onOrientationData this myo timestamp identity_quat =
    Ok (mkDataCollector 9 9 9 (currentPose this)).
Proof.
  intros Hatan Hasin.
  assert (Hr : roll (normalized identity_quat) = F32.zero).
  { rewrite normalized_identity. exact Hatan. }
  assert (Hp : pitch (normalized identity_quat) = F32.zero).
  { rewrite normalized_identity. exact Hasin. }
  assert (Hy : yaw (normalized identity_quat) = F32.zero).
  { rewrite normalized_identity. exact Hatan. }
  repeat split; try assumption.
  unfold onOrientationData. rewrite Hr, Hp, Hy. reflexivity.
Qed.

(** *** Rendering (C4, C5) *)

(** C4: for a bucket value [b] within 0..18 the gauge is [b] asterisks
    followed by [18 - b] spaces between its brackets, 20 characters in
    all; and what [print] sends for an object whose three fields are in
    that range (and whose pose name fits) is a carriage return, the gauges
    of roll, pitch and yaw in this order, and the gesture-name field. *)
Theorem gauge_renders_bar (b : Z) :
  0 <= b <= 18 ->
  gauge b = Ok (bar b) /\
  String.length (bar b) = 20%nat /\
  (forall this : DataCollector,
     bars_in_range this ->
     (String.length (toString (currentPose this)) <= 16)%nat ->
     print this =
       Ok (this,
           String "013"
             (bar (roll_w this) ++ bar (pitch_w this) ++ bar (yaw_w this)
              ++ padded_name (toString (currentPose this)))%string)).
Proof.
  intros Hb. split; [apply gauge_bar; exact Hb |]. split.
  - unfold bar. cbn [String.length append].
    rewrite !string_app_length, !string_repeat_length. cbn [String.length]. lia.
  - intros this (Hr & Hp & Hy) Hname. unfold print.
    rewrite !gauge_bar by assumption. cbn [bind].
    rewrite name_field_padded by exact Hname. reflexivity.
Qed.

(** C5 as amended: a name of at most 16 characters is printed in full and
    padded with spaces to exactly 16 characters between the brackets; a
    longer name is not truncated: the fill constructor throws
    [std::length_error] and [print] does not return.  So whenever the field
    is printed it holds the whole name. *)
Theorem name_field_pads_short_names (this : DataCollector) :
  let name := toString (currentPose this) in
  string_size name <= string_max_size ->
  ((String.length name <= 16)%nat ->
     name_field name = Ok (padded_name name) /\
     String.length (padded_name name) = 18%nat) /\
  ((16 < String.length name)%nat ->
     name_field name = Throw length_error /\ forall r, print this <> Ok r) /\
  (forall field, name_field name = Ok field ->
     (String.length name <= 16)%nat /\ field = padded_name name).
Proof.
  intros name Hsize. split; [| split].
  - intros Hle. split; [apply name_field_padded | apply padded_name_length]; exact Hle.
  - intros Hgt.
    assert (Hthrow : name_field name = Throw length_error).
    { apply name_field_long. unfold string_size in *. lia. }
    split; [exact Hthrow |].
    intros r Hr. apply print_ok_inv in Hr.
    destruct Hr as (g1 & g2 & g3 & f & _ & _ & _ & Hf & _).
    fold name in Hf. congruence.
  - intros field. apply name_field_ok_inv. exact Hsize.
Qed.

(** *** Purity and failure (C6) *)

Lemma static_cast_int_no_throw (x : spec_float) (e : exn) :
  static_cast_int x <> Throw e.
Proof.
  unfold static_cast_int, Int.checked.
  destruct (Ztrunc x) as [z |]; [destruct (Int.in_range z) |]; discriminate.
Qed.

Lemma scale_pi_nan : static_cast_int (scale_pi S754_nan) = Undefined.
Proof. reflexivity. Qed.

Lemma scale_half_pi_nan : static_cast_int (scale_half_pi S754_nan) = Undefined.
Proof. reflexivity. Qed.

(** C6 as amended: the three bar lengths computed by [onOrientationData]
    depend on the quaternion alone (not on the object, the device or the
    timestamp), and the computation succeeds whenever the three angles are
    within their ranges; but it has a failure mode: when an angle is a NaN
    the conversion to [int] is undefined, and nothing guards against a zero
    norm, for which every normalized component is the NaN of 0/0. *)
Theorem conversion_depends_on_quaternion_only
    (this1 this2 : DataCollector) (myo1 myo2 : Myo) (timestamp1 timestamp2 : Z)
    (quat : myo.Quaternion) :
  bars (onOrientationData this1 myo1 timestamp1 quat)
  = bars (onOrientationData this2 myo2 timestamp2 quat) /\
  (angles_expected quat = true ->
   exists this', onOrientationData this1 myo1 timestamp1 quat = Ok this') /\
  (roll (normalized quat) = S754_nan \/ pitch (normalized quat) = S754_nan \/
   yaw (normalized quat) = S754_nan ->
   onOrientationData this1 myo1 timestamp1 quat = Undefined) /\
  (norm zero_quat = F32.zero /\
   normalized zero_quat = myo.mkQuaternion S754_nan S754_nan S754_nan S754_nan /\
   (atan2f S754_nan S754_nan = S754_nan ->
    onOrientationData this1 myo1 timestamp1 zero_quat = Undefined)).
Proof.
  split; [| split; [| split]].
  - unfold bars, onOrientationData.
    destruct (static_cast_int (scale_pi (roll (normalized quat)))); cbn [bind];
      try reflexivity.
    destruct (static_cast_int (scale_half_pi (pitch (normalized quat)))); cbn [bind];
      try reflexivity.
    destruct (static_cast_int (scale_pi (yaw (normalized quat)))); cbn [bind];
      reflexivity.
  - intros H. destruct (onOrientationData_in_range this1 myo1 timestamp1 quat H) as (d & Hd & _).
    exists d. exact Hd.
  - unfold onOrientationData. intros [H | [H | H]]; rewrite H.
    + rewrite scale_pi_nan. reflexivity.
    + rewrite scale_half_pi_nan.
      destruct (static_cast_int (scale_pi (roll (normalized quat)))) as [r | e |] eqn:Er;
        [reflexivity | | reflexivity].
      exfalso. exact (static_cast_int_no_throw _ _ Er).
    + rewrite scale_pi_nan.
      destruct (static_cast_int (scale_pi (roll (normalized quat)))) as [r | e |] eqn:Er;
        cbn [bind]; [| exfalso; exact (static_cast_int_no_throw _ _ Er) | reflexivity].
      destruct (static_cast_int (scale_half_pi (pitch (normalized quat)))) as [p | e |] eqn:Ep;
        [reflexivity | | reflexivity].
      exfalso. exact (static_cast_int_no_throw _ _ Ep).
  - repeat split. intros Hnan. unfold onOrientationData.
    change (roll (normalized zero_quat)) with (atan2f S754_nan S754_nan).
    rewrite Hnan, scale_pi_nan. reflexivity.
Qed.

(** *** Normalizing a unit quaternion (C7) *)

(** C7: normalizing a unit quaternion returns the same quaternion.  When
    the norm the code computes is exactly [1.0f] the components come back
    bit for bit; when it is one of the neighbours of [1.0f] (rounding can
    make it so for a quaternion of norm 1), each component, of magnitude at
    most 1, comes back within five units in its last place. *)
Theorem normalized_unit_quaternion (quat : myo.Quaternion) :
  valid_quat quat = true ->
  (norm quat = F32.one -> normalized quat = quat) /\
  (near_one (norm quat) = true -> unit_range quat = true ->
   close (myo.x (normalized quat)) (myo.x quat) /\
   close (myo.y (normalized quat)) (myo.y quat) /\
   close (myo.z (normalized quat)) (myo.z quat) /\
   close (myo.w (normalized quat)) (myo.w quat)).
Proof.
  unfold valid_quat, unit_range. intros Hvalid. andb_elim Hvalid.
  split.
  - intros Hnorm. unfold normalized. rewrite Hnorm.
    destruct quat as [x y z w]. cbn [myo.x myo.y myo.z myo.w] in *.
    rewrite !div_one by assumption. reflexivity.
  - intros Hnear Hrange. andb_elim Hrange.
    unfold normalized. cbn [myo.x myo.y myo.z myo.w].
    repeat split; apply div_near_one; assumption.
Qed.

(** *** Startup and the top-level handler (C8) *)

(** C8: startup throws exactly when no device was found; the exception is
    the [std::runtime_error] of line 107, startup has no other failure, and
    in that case [main] writes the greeting, the error line and the prompt,
    waits for a key and returns 1. *)
Theorem startup_error_iff_no_device (found : option Myo) (slices : list (list Event)) :
  ((exists e, snd (startup found) = Throw e) <-> found = None) /\
  (forall e, snd (startup found) = Throw e ->
     e = runtime_error "Unable to find a Myo!") /\
  snd (startup found) <> Undefined /\
  (found = None ->
     main found slices =
       ([cout ("Bike signs." ++ endl);
         cout ("Attempting to find a Myo..." ++ endl);
         cerr ("Error: Unable to find a Myo!" ++ endl);
         cerr "Press enter to continue.";
         cin_ignore]%string,
        Exit 1)) /\
  (forall myo, found = Some myo -> snd (startup found) = Ok myo).
Proof.
  destruct found as [myo |]; cbn [startup snd]; repeat split.
  - intros [e H]. discriminate.
  - discriminate.
  - intros e H. discriminate.
  - discriminate.
  - discriminate.
  - intros myo' H. injection H as <-. reflexivity.
  - exists (runtime_error "Unable to find a Myo!"). reflexivity.
  - intros e H. injection H as <-. reflexivity.
  - discriminate.
  - discriminate.
Qed.

(** *** Vibration (C9) *)

Lemma onPose_calls (this : DataCollector) (myo : Myo) (timestamp : Z) (pose : Pose) :
  (pose = fist /\ pitch_w this < 5 /\
   snd (onPose this myo timestamp pose) = [vibrate myo myo.VibrationMedium]) \/
  (~ (pose = fist /\ pitch_w this < 5) /\ snd (onPose this myo timestamp pose) = []).
Proof.
  unfold onPose. cbn [currentPose pitch_w].
  destruct (Pose_eq_dec pose fist) as [Heq | Hne].
  - destruct (Z.ltb_spec (pitch_w this) 5) as [Hlt | Hge].
    + left. auto.
    + right. split; [| reflexivity]. intros [_ H]. lia.
  - right. split; [| reflexivity]. intros [H _]. contradiction.
Qed.

Lemma deliver_calls (this this' : DataCollector) (ev : Event) (calls : list Call) :
  deliver this ev = Ok (this', calls) ->
  (exists myo timestamp,
     ev = PoseEvent myo timestamp fist /\ pitch_w this < 5 /\
     calls = [vibrate myo myo.VibrationMedium]) \/
  (~ (exists myo timestamp, ev = PoseEvent myo timestamp fist /\ pitch_w this < 5) /\
   calls = []).
Proof.
  destruct ev as [myo ts quat | myo ts pose]; cbn [deliver].
  - destruct (onOrientationData this myo ts quat) as [d | |]; cbn [bind];
      try discriminate.
    intros H. injection H as _ <-. right. split; [| reflexivity].
    intros (m & t & H & _). discriminate.
  - intros H. injection H as H.
    assert (Hcalls : snd (onPose this myo ts pose) = calls) by (rewrite H; reflexivity).
    destruct (onPose_calls this myo ts pose) as [(-> & Hlt & Hc) | (Hno & Hc)].
    + left. exists myo, ts. repeat split; [exact Hlt | congruence].
    + right. split; [| congruence].
      intros (m & t & He & Hlt). injection He as _ _ ->. apply Hno. auto.
Qed.

Lemma run_calls (events : list Event) :
  forall (this this' : DataCollector) (calls : list Call),
    run this events = Ok (this', calls) ->
    forall c, In c calls ->
      exists before after at_event calls_before myo timestamp,
        events = before ++ PoseEvent myo timestamp fist :: after /\
        run this before = Ok (at_event, calls_before) /\
        pitch_w at_event < 5 /\
        c = vibrate myo myo.VibrationMedium.
Proof.
  induction events as [| ev rest IH]; intros this this' calls; cbn [run].
  - intros H. injection H as _ <-. intros c [].
  - destruct (deliver this ev) as [[d calls1] | |] eqn:Hd; cbn [bind fst snd];
      try discriminate.
    destruct (run d rest) as [[d' calls2] | |] eqn:Hr; cbn [bind fst snd];
      try discriminate.
    intros H. injection H as _ <-. intros c Hin.
    apply in_app_or in Hin. destruct Hin as [Hin | Hin].
    + destruct (deliver_calls this d ev calls1 Hd) as [(m & t & -> & Hlt & ->) | (_ & ->)];
        [| destruct Hin].
      destruct Hin as [<- | []].
      exists [], rest, this, [], m, t. repeat split. exact Hlt.
    + destruct (IH d d' calls2 Hr c Hin)
        as (before & after & st & calls0 & m & t & -> & Hb & Hlt & ->).
      exists (ev :: before), after, st, (calls1 ++ calls0), m, t.
      repeat split; [| exact Hlt].
      cbn [run]. rewrite Hd. cbn [bind fst snd]. rewrite Hb. reflexivity.
Qed.

(** C9: a pose event makes the [vibrate] call, once and with
    [VibrationMedium], exactly when it carries [fist] while the stored
    [pitch_w] is below 5; an orientation event makes no call; and every call
    made while a slice of events is delivered is the [vibrate] of such a
    pose event, [pitch_w] being the value stored when that event arrives. *)
Theorem vibrate_iff_fist_and_low_pitch (this : DataCollector) :
  (forall myo timestamp pose,
     (pose = fist /\ pitch_w this < 5 ->
      snd (onPose this myo timestamp pose) = [vibrate myo myo.VibrationMedium]) /\
     (~ (pose = fist /\ pitch_w this < 5) ->
      snd (onPose this myo timestamp pose) = [])) /\
  (forall ev this' calls,
     deliver this ev = Ok (this', calls) ->
     (calls <> [] <->
      exists myo timestamp, ev = PoseEvent myo timestamp fist /\ pitch_w this < 5)) /\
  (forall events this' calls,
     run this events = Ok (this', calls) ->
     forall c, In c calls ->
       exists before after at_event calls_before myo timestamp,
         events = before ++ PoseEvent myo timestamp fist :: after /\
         run this before = Ok (at_event, calls_before) /\
         pitch_w at_event < 5 /\
         c = vibrate myo myo.VibrationMedium).
Proof.
  split; [| split].
  - intros myo ts pose.
    destruct (onPose_calls this myo ts pose) as [(Hf & Hlt & Hc) | (Hno & Hc)]; split;
      intros H; try exact Hc; contradiction || (exfalso; apply H; auto).
  - intros ev this' calls Hd.
    destruct (deliver_calls this this' ev calls Hd) as [(m & t & He & Hlt & ->) | (Hno & ->)].
    + split; [| discriminate]. intros _. exists m, t. auto.
    + split; [congruence |]. intros H. contradiction.
  - intros events this' calls. apply run_calls.
Qed.

(** *** Frames (C10) *)

(** C10: [onOrientationData] keeps [currentPose]; [onPose] keeps the three
    bar lengths and stores the pose; [print] keeps the whole object. *)
Theorem callbacks_write_their_own_fields
    (this : DataCollector) (myo : Myo) (timestamp : Z)
    (quat : myo.Quaternion) (pose : Pose) :
  (forall this', onOrientationData this myo timestamp quat = Ok this' ->
     currentPose this' = currentPose this) /\
  (let this' := fst (onPose this myo timestamp pose) in
   roll_w this' = roll_w this /\ pitch_w this' = pitch_w this /\
   yaw_w this' = yaw_w this /\ currentPose this' = pose) /\
  (forall this' out, print this = Ok (this', out) -> this' = this).
Proof.
  split; [| split].
  - intros this'. unfold onOrientationData.
    destruct (static_cast_int (scale_pi (roll (normalized quat)))); cbn [bind];
      try discriminate.
    destruct (static_cast_int (scale_half_pi (pitch (normalized quat)))); cbn [bind];
      try discriminate.
    destruct (static_cast_int (scale_pi (yaw (normalized quat)))); cbn [bind];
      try discriminate.
    intros H. injection H as <-. reflexivity.
  - unfold onPose. cbn [currentPose pitch_w].
    destruct (Pose_eq_dec pose fist); [destruct (pitch_w this <? 5) |];
      cbn; repeat split; reflexivity.
  - intros this' out H. apply print_ok_inv in H.
    destruct H as (g1 & g2 & g3 & f & _ & _ & _ & _ & H). congruence.
Qed.

(** *** Beyond the zero norm: the argument of [asinf] can exceed 1 *)

Lemma right_angle_quat_argument :
  F32.valid (norm right_angle_quat) = true /\
  SFltb F32.zero (norm right_angle_quat) = true /\
  (let n := normalized right_angle_quat in
   F32.mul F32.two (F32.sub (F32.mul (myo.w n) (myo.y n)) (F32.mul (myo.z n) (myo.x n))))
  = S754_finite false 8388609 (-23) /\
  SFltb F32.one (S754_finite false 8388609 (-23)) = true.
Proof. repeat split. Qed.

(** For the quaternion (0, 3, 0, 3), whose norm is not zero, rounding makes
    the argument of [asinf] the float just above 1; with [asinf] a NaN
    there (a domain error), the conversion is undefined. *)
Theorem right_angle_pitch_is_undefined
    (this : DataCollector) (myo : Myo) (timestamp : Z) :
  asinf (S754_finite false 8388609 (-23)) = S754_nan ->
  onOrientationData this myo timestamp right_angle_quat = Undefined.
Proof.
  intros Hnan. unfold onOrientationData.
  change (pitch (normalized right_angle_quat))
    with (asinf (S754_finite false 8388609 (-23))).
  rewrite Hnan, scale_half_pi_nan.
  destruct (static_cast_int (scale_pi (roll (normalized right_angle_quat))))
    as [r | e |] eqn:Er; [reflexivity | | reflexivity].
  exfalso. exact (static_cast_int_no_throw _ _ Er).
Qed.

(** *** The main loop has no exit *)

Lemma run_in_range (events : list Event) :
  forall this : DataCollector,
    forallb event_expected events = true ->
    bars_in_range this ->
    exists this' calls,
      run this events = Ok (this', calls) /\ bars_in_range this'.
Proof.
  induction events as [| ev rest IH]; intros this Hexp Hin; cbn [run].
  - exists this, []. split; [reflexivity | exact Hin].
  - cbn [forallb] in Hexp. apply andb_prop in Hexp. destruct Hexp as [Hev Hrest].
    assert (Hd : exists d calls, deliver this ev = Ok (d, calls) /\ bars_in_range d).
    { destruct ev as [myo ts quat | myo ts pose]; cbn [deliver].
      - destruct (onOrientationData_in_range this myo ts quat Hev) as (d & -> & Hd).
        exists d, []. split; [reflexivity | exact Hd].
      - exists (fst (onPose this myo ts pose)), (snd (onPose this myo ts pose)).
        split; [now destruct (onPose this myo ts pose) |].
        apply (perform_in_range this _ (call_onPose myo ts pose)); auto. }
    destruct Hd as (d & calls & -> & Hd). cbn [bind fst snd].
    destruct (IH d Hrest Hd) as (d' & calls' & -> & Hd'). cbn [bind fst snd].
    exists d', (calls ++ calls'). split; [reflexivity | exact Hd'].
Qed.

Lemma print_in_range (this : DataCollector) :
  bars_in_range this ->
  (String.length (toString (currentPose this)) <= 16)%nat ->
  exists out, print this = Ok (this, out).
Proof.
  intros (Hr & Hp & Hy) Hname. unfold print.
  rewrite !gauge_bar by assumption. cbn [bind].
  rewrite name_field_padded by exact Hname. cbn [bind].
  eexists. reflexivity.
Qed.

Lemma loop_keeps_running (slices : list (list Event)) :
  forall collector : DataCollector,
    (forall pose, (String.length (toString pose) <= 16)%nat) ->
    forallb (forallb event_expected) slices = true ->
    bars_in_range collector ->
    snd (loop collector slices) = Running.
Proof.
  induction slices as [| events rest IH]; intros collector Hnames Hexp Hin; cbn [loop].
  - reflexivity.
  - cbn [forallb] in Hexp. apply andb_prop in Hexp. destruct Hexp as [Hev Hrest].
    destruct (run_in_range events collector Hev Hin) as (d & calls & -> & Hd).
    destruct (print_in_range d Hd (Hnames _)) as (out & ->).
    specialize (IH d Hnames Hrest Hd).
    destruct (loop d rest) as [acts st]. exact IH.
Qed.

(** Once a device is found, [main] never leaves its loop as long as every
    pose name has at most 16 characters and the angles of every orientation
    event are within their ranges: whatever number of event slices has been
    processed, the program is still running. *)
Theorem main_keeps_running (myo : Myo) (slices : list (list Event)) :
  (forall pose, (String.length (toString pose) <= 16)%nat) ->
  forallb (forallb event_expected) slices = true ->
  snd (main (Some myo) slices) = Running.
Proof.
  intros Hnames Hexp. unfold main. cbn [startup].
  assert (Hnew : bars_in_range DataCollector_new).
  { unfold bars_in_range. cbn. lia. }
  pose proof (loop_keeps_running slices DataCollector_new Hnames Hexp Hnew) as H.
  destruct (loop DataCollector_new slices) as [acts st]. exact H.
Qed.

(** *** print outside the range of the bars *)


Lemma gauge_out_of_range (v : Z) :
  gauge_operand v = true -> v < 0 \/ 18 < v -> gauge v = Throw length_error.
Proof.
  unfold gauge_operand, Int.in_range, Int.INT_MIN, Int.INT_MAX. intros Hop Hv.
  apply andb_prop in Hop. destruct Hop as [Hv1 Hv2].
  apply andb_prop in Hv1. destruct Hv1 as [Hv1 Hv1'].
  apply andb_prop in Hv2. destruct Hv2 as [Hv2 Hv2'].
  apply Z.leb_le in Hv1, Hv1', Hv2, Hv2'.
  assert (Hmod : Size.modulus = 18446744073709551616) by reflexivity.
  assert (Hmax : string_max_size = 4611686018427387903) by reflexivity.
  unfold gauge. destruct Hv as [Hneg | Hbig].
  - rewrite string_fill_throws; [reflexivity |].
    unfold Size.of_Z. rewrite <- (Z.mod_add v 1 Size.modulus) by lia.
    rewrite Z.mod_small by lia. lia.
  - rewrite (size_of_small v) by lia. rewrite string_fill_ok by lia. cbn [bind].
    unfold Int.sub, Int.checked, Int.in_range, Int.INT_MIN, Int.INT_MAX.
    replace ((- 2 ^ 31 <=? 18 - v) && (18 - v <=? 2 ^ 31 - 1)) with true
      by (symmetry; apply andb_true_intro; split; apply Z.leb_le; lia).
    cbn [bind].
    rewrite string_fill_throws; [reflexivity |].
    unfold Size.of_Z. rewrite <- (Z.mod_add (18 - v) 1 Size.modulus) by lia.
    rewrite Z.mod_small by lia. lia.
Qed.

Lemma gauge_cases (v : Z) :
  gauge_operand v = true ->
  (0 <= v <= 18 /\ gauge v = Ok (bar v)) \/
  (~ 0 <= v <= 18 /\ gauge v = Throw length_error).
Proof.
  intros Hop. destruct (Z_le_dec 0 v) as [H0 | H0]; [destruct (Z_le_dec v 18) as [H1 | H1] |].
  - left. split; [lia |]. apply gauge_bar. lia.
  - right. split; [lia |]. apply gauge_out_of_range; [exact Hop | lia].
  - right. split; [lia |]. apply gauge_out_of_range; [exact Hop | lia].
Qed.

(** [print] has exactly one failure: it throws [std::length_error] as soon
    as a bar length is outside 0..18 or the pose name has more than 16
    characters, and succeeds otherwise. *)
Theorem print_throws_outside_range (this : DataCollector) :
  gauge_operand (roll_w this) = true ->
  gauge_operand (pitch_w this) = true ->
  gauge_operand (yaw_w this) = true ->
  string_size (toString (currentPose this)) <= string_max_size ->
  (print this = Throw length_error <->
   ~ (bars_in_range this /\ (String.length (toString (currentPose this)) <= 16)%nat)) /\
  ((exists out, print this = Ok (this, out)) <->
   bars_in_range this /\ (String.length (toString (currentPose this)) <= 16)%nat).
Proof.
  intros Hr Hp Hy Hname.
  assert (Hcases :
    (bars_in_range this /\ (String.length (toString (currentPose this)) <= 16)%nat /\
     exists out, print this = Ok (this, out)) \/
    (~ (bars_in_range this /\ (String.length (toString (currentPose this)) <= 16)%nat) /\
     print this = Throw length_error)).
  { unfold print, bars_in_range.
    destruct (gauge_cases _ Hr) as [[Hr1 ->] | [Hr1 ->]]; cbn [bind];
      [| right; split; [tauto | reflexivity]].
    destruct (gauge_cases _ Hp) as [[Hp1 ->] | [Hp1 ->]]; cbn [bind];
      [| right; split; [tauto | reflexivity]].
    destruct (gauge_cases _ Hy) as [[Hy1 ->] | [Hy1 ->]]; cbn [bind];
      [| right; split; [tauto | reflexivity]].
    destruct (Nat.le_gt_cases (String.length (toString (currentPose this))) 16) as [Hle | Hgt].
    - left. rewrite name_field_padded by exact Hle. cbn [bind].
      repeat split; try lia. eexists. reflexivity.
    - right. rewrite name_field_long by (unfold string_size in *; lia).
      split; [lia | reflexivity]. }
  destruct Hcases as [(Hb & Hn & out & Hok) | (Hno & Hthrow)].
  - split; split.
    + intros H. congruence.
    + intros H. exfalso. apply H. auto.
    + auto.
    + intros _. exists out. exact Hok.
  - split; split.
    + auto.
    + auto.
    + intros [out H]. congruence.
    + intros H. contradiction.
Qed.

(** *** The width of the display *)

Lemma bar_length (b : Z) : 0 <= b <= 18 -> String.length (bar b) = 20%nat.
Proof.
  intros Hb. unfold bar. cbn [String.length append].
  rewrite !string_app_length, !string_repeat_length. cbn [String.length]. lia.
Qed.




(** *** The opposite quaternion *)

Lemma binary_round_aux_opp (prec emax : Z) (s : bool) (m e : Z) (l : location) :
  binary_round_aux prec emax (negb s) m e l = SFopp (binary_round_aux prec emax s m e l).
Proof.
  unfold binary_round_aux.
  destruct (shr_fexp prec emax m e l) as [mrs' e'].
  destruct (shr_fexp prec emax (round_nearest_even (shr_m mrs') (loc_of_shr_record mrs'))
              e' loc_Exact) as [mrs'' e''].
  destruct (shr_m mrs''); [reflexivity | | reflexivity].
  destruct (e'' <=? emax - prec); reflexivity.
Qed.

Lemma SFmul_opp_opp (prec emax : Z) (a b : spec_float) :
  SFmul prec emax (SFopp a) (SFopp b) = SFmul prec emax a b.
Proof.
  destruct a as [sa | sa | | sa ma ea], b as [sb | sb | | sb mb eb];
    cbn [SFopp SFmul]; rewrite ?xorb_negb_negb; reflexivity.
Qed.

Lemma SFdiv_opp_l (prec emax : Z) (a n : spec_float) :
  SFdiv prec emax (SFopp a) n = SFopp (SFdiv prec emax a n).
Proof.
  destruct a as [sa | sa | | sa ma ea], n as [sn | sn | | sn mn en];
    cbn [SFopp SFdiv]; rewrite <- ?negb_xorb_l; try reflexivity.
  destruct (SFdiv_core_binary prec emax (Z.pos ma) ea (Z.pos mn) en) as [[mz ez] lz].
  apply binary_round_aux_opp.
Qed.

Lemma norm_neg_quat (quat : myo.Quaternion) : norm (neg_quat quat) = norm quat.
Proof.
  destruct quat as [x y z w]. unfold norm, neg_quat, F32.mul. cbn [myo.x myo.y myo.z myo.w].
  rewrite !SFmul_opp_opp. reflexivity.
Qed.

Lemma normalized_neg_quat (quat : myo.Quaternion) :
  normalized (neg_quat quat) = neg_quat (normalized quat).
Proof.
  unfold normalized. rewrite norm_neg_quat.
  unfold neg_quat, F32.div. cbn [myo.x myo.y myo.z myo.w].
  rewrite !SFdiv_opp_l. reflexivity.
Qed.

Lemma angles_neg_quat (n : myo.Quaternion) :
  roll (neg_quat n) = roll n /\ pitch (neg_quat n) = pitch n /\ yaw (neg_quat n) = yaw n.
Proof.
  destruct n as [x y z w]. unfold roll, pitch, yaw, neg_quat, F32.mul.
  cbn [myo.x myo.y myo.z myo.w]. rewrite !SFmul_opp_opp. repeat split.
Qed.

(** A quaternion and its opposite, which denote the same rotation, give the
    same result, bit for bit and for every input: negating the four
    components changes neither the norm nor any of the products the angles
    are computed from. *)
Theorem opposite_quaternion_same_result
    (this : DataCollector) (myo : Myo) (timestamp : Z) (quat : myo.Quaternion) :
  norm (neg_quat quat) = norm quat /\
  normalized (neg_quat quat) = neg_quat (normalized quat) /\
  onOrientationData this myo timestamp (neg_quat quat)
  = onOrientationData this myo timestamp quat.
Proof.
  split; [apply norm_neg_quat |]. split; [apply normalized_neg_quat |].
  unfold onOrientationData. rewrite normalized_neg_quat.
  destruct (angles_neg_quat (normalized quat)) as (-> & -> & ->). reflexivity.
Qed.

(** *** Components that are not finite *)

Lemma binary_round_aux_sign (prec emax : Z) (m e : Z) (l : location) :
  unsigned (binary_round_aux prec emax false m e l).
Proof.
  unfold binary_round_aux.
  destruct (shr_fexp prec emax m e l) as [mrs' e'].
  destruct (shr_fexp prec emax (round_nearest_even (shr_m mrs') (loc_of_shr_record mrs'))
              e' loc_Exact) as [mrs'' e''].
  destruct (shr_m mrs''); cbn; auto.
  destruct (e'' <=? emax - prec); reflexivity.
Qed.

Lemma square_unsigned (c : spec_float) : unsigned (F32.mul c c).
Proof.
  destruct c as [s | s | | s m e]; cbn [F32.mul SFmul unsigned]; auto using xorb_nilpotent.
  rewrite xorb_nilpotent. apply binary_round_aux_sign.
Qed.

Lemma square_overflowed (c : spec_float) : is_finite c = false -> overflowed (F32.mul c c).
Proof.
  destruct c as [s | s | | s m e]; try discriminate; intros _; cbn [F32.mul SFmul].
  - left. now rewrite xorb_nilpotent.
  - right. reflexivity.
Qed.

Lemma add_unsigned (a b : spec_float) : unsigned a -> unsigned b -> unsigned (F32.add a b).
Proof.
  destruct a as [sa | sa | | sa ma ea], b as [sb | sb | | sb mb eb];
    cbn [unsigned]; intros Ha Hb; subst; cbn [F32.add SFadd unsigned]; auto.
  cbn [cond_Zopp]. cbn [Z.add binary_normalize]. unfold binary_round.
  destruct (shl_align _ _ _) as [mz ez].
  apply binary_round_aux_sign.
Qed.

Lemma add_overflowed_l (a b : spec_float) :
  overflowed a -> unsigned b -> overflowed (F32.add a b).
Proof.
  intros [-> | ->] Hb; [| right; reflexivity].
  destruct b as [sb | sb | | sb mb eb]; cbn [unsigned] in Hb; subst;
    cbn [F32.add SFadd]; unfold overflowed; auto.
Qed.

Lemma add_overflowed_r (a b : spec_float) :
  unsigned a -> overflowed b -> overflowed (F32.add a b).
Proof.
  intros Ha [-> | ->].
  - destruct a as [sa | sa | | sa ma ea]; cbn [unsigned] in Ha; subst;
      cbn [F32.add SFadd]; unfold overflowed; auto.
  - right. destruct a; reflexivity.
Qed.

Lemma overflowed_unsigned (r : spec_float) : overflowed r -> unsigned r.
Proof. intros [-> | ->]; cbn; auto. Qed.

Lemma sqrt_overflowed (r : spec_float) : overflowed r -> overflowed (F32.sqrt r).
Proof. intros [-> | ->]; cbn; unfold overflowed; auto. Qed.

(** The norm of a quaternion with an infinite or NaN component is positive
    infinity or a NaN. *)
Lemma norm_overflowed (quat : myo.Quaternion) :
  finite_quat quat = false -> overflowed (norm quat).
Proof.
  destruct quat as [x y z w]. unfold finite_quat, norm. cbn [myo.x myo.y myo.z myo.w].
  intros H. apply sqrt_overflowed.
  pose proof (square_unsigned x) as Ux. pose proof (square_unsigned y) as Uy.
  pose proof (square_unsigned z) as Uz. pose proof (square_unsigned w) as Uw.
  destruct (is_finite x) eqn:Fx.
  2:{ auto using add_overflowed_l, square_overflowed. }
  destruct (is_finite y) eqn:Fy.
  2:{ auto using add_overflowed_l, add_overflowed_r, square_overflowed. }
  destruct (is_finite z) eqn:Fz.
  2:{ auto using add_overflowed_l, add_overflowed_r, add_unsigned, square_overflowed. }
  destruct (is_finite w) eqn:Fw; [discriminate |].
  auto using add_overflowed_r, add_unsigned, square_overflowed.
Qed.

Lemma div_overflowed (c n : spec_float) :
  is_finite c = false -> overflowed n -> F32.div c n = S754_nan.
Proof.
  intros Hc [-> | ->]; destruct c; try discriminate; reflexivity.
Qed.

Lemma mul_nan_r (a : spec_float) : F32.mul a S754_nan = S754_nan.
Proof. destruct a; reflexivity. Qed.

Lemma sub_nan_r (a : spec_float) : F32.sub a S754_nan = S754_nan.
Proof. destruct a; reflexivity. Qed.

(** The argument of [asinf] is a NaN as soon as a component of the
    normalized quaternion is. *)
Lemma pitch_argument_nan (x y z w : spec_float) :
  x = S754_nan \/ y = S754_nan \/ z = S754_nan \/ w = S754_nan ->
  F32.mul F32.two (F32.sub (F32.mul w y) (F32.mul z x)) = S754_nan.
Proof.
  intros [-> | [-> | [-> | ->]]]; rewrite ?mul_nan_r, ?sub_nan_r, ?mul_nan_r; reflexivity.
Qed.

(** Nothing checks the quaternion received: when one of its components is
    an infinity or a NaN, the norm is infinite or a NaN, that component of
    the normalized quaternion is a NaN, so is the pitch ([asinf] of a NaN
    being a NaN), and its conversion to [int] is undefined. *)
Theorem non_finite_component_is_undefined
    (this : DataCollector) (myo : Myo) (timestamp : Z) (quat : myo.Quaternion) :
  asinf S754_nan = S754_nan ->
  finite_quat quat = false ->
  overflowed (norm quat) /\
  pitch (normalized quat) = S754_nan /\
  onOrientationData this myo timestamp quat = Undefined.
Proof.
  intros Hasin Hq. pose proof (norm_overflowed quat Hq) as Hn.
  assert (Hp : pitch (normalized quat) = S754_nan).
  { unfold pitch, normalized. rewrite pitch_argument_nan; [exact Hasin |].
    unfold finite_quat in Hq.
    destruct (is_finite (myo.x quat)) eqn:Fx; [| auto using div_overflowed].
    destruct (is_finite (myo.y quat)) eqn:Fy; [| auto using div_overflowed].
    destruct (is_finite (myo.z quat)) eqn:Fz; [| auto using div_overflowed].
    destruct (is_finite (myo.w quat)) eqn:Fw; [discriminate | auto 6 using div_overflowed]. }
  repeat split; try assumption.
  unfold onOrientationData. rewrite Hp, scale_half_pi_nan.
  destruct (static_cast_int (scale_pi (roll (normalized quat)))) as [r | e |] eqn:Er;
    [reflexivity | | reflexivity].
  exfalso. exact (static_cast_int_no_throw _ _ Er).
Qed.

(** *** The latest event wins *)

Lemma bars_onOrientationData
    (this1 this2 : DataCollector) (myo1 myo2 : Myo) (timestamp1 timestamp2 : Z)
    (quat : myo.Quaternion) :
  bars (onOrientationData this1 myo1 timestamp1 quat)
  = bars (onOrientationData this2 myo2 timestamp2 quat).
Proof.
  unfold bars, onOrientationData.
  destruct (static_cast_int (scale_pi (roll (normalized quat)))); cbn [bind];
    try reflexivity.
  destruct (static_cast_int (scale_half_pi (pitch (normalized quat)))); cbn [bind];
    try reflexivity.
  destruct (static_cast_int (scale_pi (yaw (normalized quat)))); cbn [bind];
    reflexivity.
Qed.

Lemma onOrientationData_pose
    (this this' : DataCollector) (myo : Myo) (timestamp : Z) (quat : myo.Quaternion) :
  onOrientationData this myo timestamp quat = Ok this' ->
  currentPose this' = currentPose this.
Proof.
  unfold onOrientationData.
  destruct (static_cast_int (scale_pi (roll (normalized quat)))); cbn [bind];
    try discriminate.
  destruct (static_cast_int (scale_half_pi (pitch (normalized quat)))); cbn [bind];
    try discriminate.
  destruct (static_cast_int (scale_pi (yaw (normalized quat)))); cbn [bind];
    try discriminate.
  intros H. injection H as <-. reflexivity.
Qed.

Lemma onPose_fields (this : DataCollector) (myo : Myo) (timestamp : Z) (pose : Pose) :
  fst (onPose this myo timestamp pose)
  = {| roll_w := roll_w this; pitch_w := pitch_w this; yaw_w := yaw_w this;
       currentPose := pose |}.
Proof.
  unfold onPose. cbn [currentPose pitch_w].
  destruct (Pose_eq_dec pose fist); [destruct (pitch_w this <? 5) |]; reflexivity.
Qed.

Lemma last_quat_some (events : list Event) (quat : myo.Quaternion) :
  last_quat events (Some quat)
  = match last_quat events None with Some q => Some q | None => Some quat end.
Proof.
  revert quat. induction events as [| [m t q | m t p] rest IH]; intros quat; cbn [last_quat].
  - reflexivity.
  - rewrite (IH q). destruct (last_quat rest None); reflexivity.
  - apply IH.
Qed.

(** What a slice of events leaves in the collector is what its last
    events say, nothing accumulates: the pose is that of the last pose
    event and the three bar lengths are those computed for the quaternion of
    the last orientation event; without such an event they are unchanged. *)
Theorem run_keeps_the_latest
    (this this' : DataCollector) (events : list Event) (calls : list Call)
    (myo : Myo) (timestamp : Z) :
  run this events = Ok (this', calls) ->
  currentPose this' = last_pose events (currentPose this) /\
  bars (Ok this')
  = match last_quat events None with
    | Some quat => bars (onOrientationData this myo timestamp quat)
    | None => bars (Ok this)
    end.
Proof.
  (* the object the bars of the last quaternion are computed on does not matter *)
  generalize this at 3. intros d. revert this this' calls.
  induction events as [| ev rest IH]; intros this this' calls; cbn [run].
  - intros H. injection H as <- _. split; reflexivity.
  - destruct (deliver this ev) as [[this1 calls1] | |] eqn:Hd; cbn [bind fst snd];
      try discriminate.
    destruct (run this1 rest) as [[this2 calls2] | |] eqn:Hr; cbn [bind fst snd];
      try discriminate.
    intros H. injection H as <- _.
    destruct (IH _ _ _ Hr) as [Hpose Hbars].
    destruct ev as [m t q | m t p]; cbn [deliver last_pose last_quat] in *.
    + destruct (onOrientationData this m t q) as [this1' | |] eqn:Ho; cbn [bind] in Hd;
        try discriminate.
      injection Hd as <- _.
      rewrite Hpose, (onOrientationData_pose _ _ _ _ _ Ho). split; [reflexivity |].
      rewrite last_quat_some, Hbars.
      destruct (last_quat rest None); [reflexivity |].
      rewrite <- Ho. apply bars_onOrientationData.
    + injection Hd as Hd.
      assert (Hf : this1 = fst (onPose this m t p)) by (rewrite Hd; reflexivity).
      rewrite onPose_fields in Hf. subst this1.
      cbn [currentPose] in Hpose. split; [exact Hpose |].
      rewrite Hbars. destruct (last_quat rest None); reflexivity.
Qed.

(** *** How main ends *)

Lemma string_fill_throw (count : Z) (ch : ascii) (e : exn) :
  string_fill count ch = Throw e -> e = length_error.
Proof.
  unfold string_fill. destruct (count <=? string_max_size); [discriminate |]. congruence.
Qed.

Lemma gauge_throw (v : Z) (e : exn) : gauge v = Throw e -> e = length_error.
Proof.
  unfold gauge.
  destruct (string_fill (Size.of_Z v) "*") as [stars | e1 |] eqn:Es; cbn [bind];
    [| intros H; injection H as <-; exact (string_fill_throw _ _ _ Es) | discriminate].
  unfold Int.sub, Int.checked. destruct (Int.in_range (18 - v)); cbn [bind]; [| discriminate].
  destruct (string_fill (Size.of_Z (18 - v)) " ") as [spaces | e1 |] eqn:Ep; cbn [bind];
    [discriminate | intros H; injection H as <-; exact (string_fill_throw _ _ _ Ep)
    | discriminate].
Qed.

Lemma print_throw (this : DataCollector) (e : exn) :
  print this = Throw e -> e = length_error.
Proof.
  unfold print.
  destruct (gauge (roll_w this)) as [g1 | e1 |] eqn:E1; cbn [bind];
    [| intros H; injection H as <-; exact (gauge_throw _ _ E1) | discriminate].
  destruct (gauge (pitch_w this)) as [g2 | e2 |] eqn:E2; cbn [bind];
    [| intros H; injection H as <-; exact (gauge_throw _ _ E2) | discriminate].
  destruct (gauge (yaw_w this)) as [g3 | e3 |] eqn:E3; cbn [bind];
    [| intros H; injection H as <-; exact (gauge_throw _ _ E3) | discriminate].
  unfold name_field.
  destruct (string_fill _ " ") as [spaces | e4 |] eqn:E4; cbn [bind];
    [discriminate | intros H; injection H as <-; exact (string_fill_throw _ _ _ E4)
    | discriminate].
Qed.

Lemma onOrientationData_no_throw
    (this : DataCollector) (myo : Myo) (timestamp : Z) (quat : myo.Quaternion) (e : exn) :
  onOrientationData this myo timestamp quat <> Throw e.
Proof.
  unfold onOrientationData.
  destruct (static_cast_int (scale_pi (roll (normalized quat)))) as [r | e1 |] eqn:Er;
    cbn [bind]; [| exfalso; exact (static_cast_int_no_throw _ _ Er) | discriminate].
  destruct (static_cast_int (scale_half_pi (pitch (normalized quat)))) as [p | e1 |] eqn:Ep;
    cbn [bind]; [| exfalso; exact (static_cast_int_no_throw _ _ Ep) | discriminate].
  destruct (static_cast_int (scale_pi (yaw (normalized quat)))) as [y | e1 |] eqn:Ey;
    cbn [bind]; [discriminate | exfalso; exact (static_cast_int_no_throw _ _ Ey)
    | discriminate].
Qed.

Lemma run_no_throw (events : list Event) :
  forall (this : DataCollector) (e : exn), run this events <> Throw e.
Proof.
  induction events as [| ev rest IH]; intros this e; cbn [run]; [discriminate |].
  destruct (deliver this ev) as [[this1 calls1] | e1 |] eqn:Hd; cbn [bind fst snd];
    [| | discriminate].
  - destruct (run this1 rest) as [[this2 calls2] | e2 |] eqn:Hr; cbn [bind];
      [discriminate | | discriminate].
    exfalso. exact (IH _ _ Hr).
  - exfalso. destruct ev as [m t q | m t p]; cbn [deliver] in Hd; [| discriminate].
    destruct (onOrientationData this m t q) as [d | e2 |] eqn:Ho; cbn [bind] in Hd;
      try discriminate.
    exact (onOrientationData_no_throw _ _ _ _ _ Ho).
Qed.

Lemma loop_exit (slices : list (list Event)) :
  forall (collector : DataCollector) (code : Z),
    snd (loop collector slices) = Exit code ->
    code = 1 /\
    exists before, fst (loop collector slices) = before ++ fst (handler length_error).
Proof.
  induction slices as [| events rest IH]; intros collector code; cbn [loop snd fst].
  - discriminate.
  - destruct (run collector events) as [[collector' calls] | e |] eqn:Hr.
    + destruct (print collector') as [[collector'' out] | e |] eqn:Hp.
      * specialize (IH collector'' code).
        destruct (loop collector'' rest) as [acts st]. cbn [fst snd] in *.
        intros H. destruct (IH H) as [Hcode [before Hacts]].
        split; [exact Hcode |].
        exists (map call calls ++ cout out :: before).
        rewrite Hacts, <- app_assoc. reflexivity.
      * apply print_throw in Hp. subst e. cbn [handler fst snd].
        intros H. injection H as <-. split; [reflexivity |].
        exists (map call calls). reflexivity.
      * discriminate.
    + exfalso. exact (run_no_throw _ _ _ Hr).
    + discriminate.
Qed.

(** [main] returns in one way only, through the handler of lines 132-137:
    the exit status is 1, never 0, and the last things done are the error
    line, the prompt and the wait for a key.  The error reported is
    [Unable to find a Myo!] when no device was found; once a device is
    found it can only be the [std::length_error] of [print]. *)
Theorem main_exits_only_on_error
    (found : option Myo) (slices : list (list Event)) (code : Z) :
  snd (main found slices) = Exit code ->
  code = 1 /\
  exists before e,
    fst (main found slices)
    = before ++ [cerr ("Error: " ++ what e ++ endl); cerr "Press enter to continue.";
                 cin_ignore]%string /\
    ((found = None /\ e = runtime_error "Unable to find a Myo!") \/
     (found <> None /\ e = length_error)).
Proof.
  unfold main. destruct found as [myo |]; cbn [startup].
  - pose proof (loop_exit slices DataCollector_new code) as H.
    destruct (loop DataCollector_new slices) as [acts st]. cbn [fst snd] in *.
    intros Hst. destruct (H Hst) as [Hcode [before Hacts]].
    split; [exact Hcode |].
    exists (fst (startup (Some myo)) ++ before), length_error. split.
    + rewrite Hacts. cbn [startup handler fst]. rewrite <- !app_assoc. reflexivity.
    + right. split; [discriminate | reflexivity].
  - cbn [handler fst snd]. intros H. injection H as <-. split; [reflexivity |].
    eexists _, (runtime_error "Unable to find a Myo!"). split.
    + reflexivity.
    + left. split; reflexivity.
Qed.

(** *** Fists before the first orientation event *)

Lemma run_poses_only (events : list Event) :
  forall this : DataCollector,
    poses_only events = true ->
    pitch_w this < 5 ->
    run this events
    = Ok ({| roll_w := roll_w this; pitch_w := pitch_w this; yaw_w := yaw_w this;
             currentPose := last_pose events (currentPose this) |},
          map (fun myo => vibrate myo myo.VibrationMedium) (fists events)).
Proof.
  induction events as [| [m t q | m t p] rest IH]; intros this Hposes Hlow;
    cbn [run poses_only forallb last_pose fists] in *.
  - destruct this; reflexivity.
  - discriminate.
  - cbn [deliver bind].
    pose proof (onPose_fields this m t p) as Hf.
    assert (Hc : snd (onPose this m t p)
                 = if Pose_eq_dec p fist then [vibrate m myo.VibrationMedium] else []).
    { unfold onPose. cbn [currentPose pitch_w].
      destruct (Pose_eq_dec p fist); [| reflexivity].
      destruct (Z.ltb_spec (pitch_w this) 5); [reflexivity | lia]. }
    rewrite Hf, (IH _ Hposes) by exact Hlow. cbn [bind fst snd roll_w pitch_w yaw_w currentPose].
    rewrite Hc. destruct (Pose_eq_dec p fist); reflexivity.
Qed.

(** The pitch bar is 0 from the constructor until the first orientation
    event arrives, and 0 is below the threshold of 5: during that time
    every [fist] pose makes its device vibrate, once per pose event and in
    the order of the events, whatever the real pitch of the arm is. *)
Theorem fist_before_orientation_vibrates (events : list Event) :
  poses_only events = true ->
  run DataCollector_new events
  = Ok ({| roll_w := 0; pitch_w := 0; yaw_w := 0;
           currentPose := last_pose events Pose_default |},
        map (fun myo => vibrate myo myo.VibrationMedium) (fists events)).
Proof.
  intros H. rewrite (run_poses_only events DataCollector_new H); [reflexivity |].
  cbn. lia.
Qed.

(** *** The address shown at startup *)

Lemma hex_digit_value_digit (d : Z) : 0 <= d < 16 -> hex_digit_value (hex_digit d) = d.
Proof.
  intros H.
  assert (Hd : d = 0 \/ d = 1 \/ d = 2 \/ d = 3 \/ d = 4 \/ d = 5 \/ d = 6 \/ d = 7 \/
               d = 8 \/ d = 9 \/ d = 10 \/ d = 11 \/ d = 12 \/ d = 13 \/ d = 14 \/ d = 15)
    by lia.
  repeat (destruct Hd as [-> | Hd]; [reflexivity |]). subst d. reflexivity.
Qed.

Lemma hex_value_from_app (s t : string) :
  forall acc, hex_value_from acc (s ++ t) = hex_value_from (hex_value_from acc s) t.
Proof.
  induction s as [| c s IH]; intros acc; cbn [append hex_value_from]; [reflexivity | apply IH].
Qed.

Lemma hex_value_from_zeros (k : nat) : hex_value_from 0 (string_repeat k "0") = 0.
Proof.
  induction k as [| k IH]; cbn [string_repeat hex_value_from]; [reflexivity |].
  change (16 * 0 + hex_digit_value "0") with 0. exact IH.
Qed.

Lemma append_empty_r (s : string) : (s ++ "")%string = s.
Proof. induction s as [| c s IH]; cbn [append]; [reflexivity | now rewrite IH]. Qed.

(** The digits [hex_digits] puts in front of [acc]: they denote [n], and
    there are as many as [n] needs. *)
Lemma hex_digits_spec (fuel : nat) :
  forall (n : Z) (acc : string),
    0 <= n < 16 ^ Z.of_nat fuel -> (0 < fuel)%nat ->
    exists d,
      hex_digits fuel n acc = (d ++ acc)%string /\
      hex_value_from 0 d = n /\
      (1 <= String.length d)%nat /\
      (0 < n -> 16 ^ (Z.of_nat (String.length d) - 1) <= n < 16 ^ Z.of_nat (String.length d)) /\
      (n = 0 -> String.length d = 1%nat).
Proof.
  induction fuel as [| fuel IH]; intros n acc Hn Hfuel; [lia |].
  - cbn [hex_digits].
    assert (Hmod : 0 <= n mod 16 < 16) by (apply Z.mod_pos_bound; lia).
    assert (Hdm : n = 16 * (n / 16) + n mod 16) by (apply Z.div_mod; lia).
    destruct (Z.eqb_spec (n / 16) 0) as [Hq | Hq].
    + exists (String (hex_digit (n mod 16)) EmptyString).
      cbn [append hex_value_from String.length].
      rewrite hex_digit_value_digit by exact Hmod.
      repeat split; try lia.
    + assert (Hq' : 0 < n / 16) by (assert (0 <= n / 16) by (apply Z.div_pos; lia); lia).
      assert (Hlt : 0 <= n / 16 < 16 ^ Z.of_nat fuel).
      { split; [lia |]. apply Z.div_lt_upper_bound; [lia |].
        rewrite Nat2Z.inj_succ, Z.pow_succ_r in Hn by lia. lia. }
      assert (Hfuel' : (0 < fuel)%nat).
      { destruct fuel; [| lia]. change (16 ^ Z.of_nat 0) with 1 in Hlt. lia. }
      destruct (IH (n / 16) (String (hex_digit (n mod 16)) acc) Hlt Hfuel')
        as (d & Hd & Hv & Hlen & Hmag & _).
      specialize (Hmag Hq').
      exists (d ++ String (hex_digit (n mod 16)) EmptyString)%string.
      split; [| split; [| split; [| split]]].
      * rewrite Hd. clear. induction d as [| c d IHd]; cbn [append]; [reflexivity |].
        now rewrite IHd.
      * rewrite hex_value_from_app, Hv. cbn [hex_value_from].
        rewrite hex_digit_value_digit by exact Hmod. lia.
      * rewrite string_app_length. cbn [String.length]. lia.
      * intros _. rewrite string_app_length. cbn [String.length].
        replace (Z.of_nat (String.length d + 1) - 1) with (Z.succ (Z.of_nat (String.length d) - 1))
          by lia.
        replace (Z.of_nat (String.length d + 1)) with (Z.succ (Z.of_nat (String.length d)))
          by lia.
        rewrite !Z.pow_succ_r by lia. lia.
      * intros H0. rewrite H0 in Hq'. cbn in Hq'. lia.
Qed.

(** The line that follows the greeting shows the whole address of the
    device in hexadecimal: the digits denote the address, there are exactly
    12 of them when the address is a 48-bit one (zeros are put in front),
    and a longer address is not cut. *)
Theorem address_is_shown_in_full (myo : Myo) (slices : list (list Event)) :
  0 <= macAddress myo < 2 ^ 64 ->
  let digits := setw 12 "0" (to_hex (macAddress myo)) in
  (exists rest,
     fst (main (Some myo) slices)
     = [cout ("Bike signs." ++ endl); cout ("Attempting to find a Myo..." ++ endl);
        cout ("Connected to " ++ digits ++ "." ++ endl ++ endl)]%string ++ rest) /\
  hex_value digits = macAddress myo /\
  (macAddress myo < 2 ^ 48 -> String.length digits = 12%nat) /\
  (2 ^ 48 <= macAddress myo -> (12 < String.length digits)%nat).
Proof.
  intros Hmac digits. split.
  - unfold main. cbn [startup].
    destruct (loop DataCollector_new slices) as [acts st]. cbn [fst].
    exists acts. reflexivity.
  - destruct (hex_digits_spec 16 (macAddress myo) EmptyString)
      as (d & Hd & Hv & Hlen & Hmag & Hzero); [change (Z.of_nat 16) with 16; lia | lia |].
    rewrite append_empty_r in Hd.
    assert (Hdigits : digits = (string_repeat (12 - String.length d) "0" ++ d)%string).
    { unfold digits, setw, to_hex. rewrite Hd. reflexivity. }
    rewrite Hdigits. unfold hex_value.
    rewrite hex_value_from_app, hex_value_from_zeros, string_app_length, string_repeat_length.
    split; [exact Hv |].
    destruct (Z.eq_dec (macAddress myo) 0) as [H0 | H0].
    + rewrite (Hzero H0). split; [reflexivity | lia].
    + assert (Hpos : 0 < macAddress myo) by lia. specialize (Hmag Hpos).
      change (2 ^ 48) with (16 ^ 12).
      split; intros Hsize.
      * assert (Z.of_nat (String.length d) - 1 < 12); [| lia].
        apply (Z.pow_lt_mono_r_iff 16); lia.
      * assert (12 < Z.of_nat (String.length d)); [| lia].
        apply (Z.pow_lt_mono_r_iff 16); lia.
Qed.

(** *** Rounding to nearest even is monotone *)

Lemma shr_1_spec (m : Z) (r s : bool) :
  0 <= m ->
  shr_1 {| shr_m := m; shr_r := r; shr_s := s |}
  = {| shr_m := Z.div2 m; shr_r := Z.odd m; shr_s := r || s |}.
Proof.
  intros Hm. destruct m as [| [p | p |] | p]; try lia; reflexivity.
Qed.

Lemma F2R_unit (m e : Z) : F2R m e = (IZR m * (2 * powerRZ 2 (e - 1)))%R.
Proof.
  unfold F2R. replace e with ((e - 1) + 1) at 1 by lia.
  rewrite bpow_add. change (powerRZ 2 1) with (2 * 1)%R. ring.
Qed.

Lemma F2R_unit4 (m e : Z) : F2R m (e + 1) = (IZR m * (4 * powerRZ 2 (e - 1)))%R.
Proof.
  unfold F2R. replace (e + 1) with ((e - 1) + 2) by lia.
  rewrite bpow_add. change (powerRZ 2 2) with (2 * (2 * 1))%R. ring.
Qed.

Lemma shr_1_located (mrs : shr_record) (e : Z) (x : R) :
  0 <= shr_m mrs -> located mrs e x -> located (shr_1 mrs) (e + 1) x.
Proof.
  destruct mrs as [m r s]. cbn [shr_m]. intros Hm. rewrite shr_1_spec by exact Hm.
  unfold located. cbn [shr_m shr_r shr_s].
  replace (e + 1 - 1) with e by lia.
  pose proof (bpow_pos (e - 1)) as Hu.
  assert (Hm2 : IZR m = (2 * IZR (Z.div2 m) + (if Z.odd m then 1 else 0))%R).
  { rewrite (Z.div2_odd m) at 1. rewrite plus_IZR, mult_IZR.
    destruct (Z.odd m); reflexivity. }
  rewrite !F2R_unit4, !(F2R_unit _ e). unfold F2R.
  rewrite ?plus_IZR, ?mult_IZR, Hm2.
  set (u := powerRZ 2 (e - 1)) in *. set (p := IZR (Z.div2 m)).
  destruct (Z.odd m), r, s; cbn [orb]; intros H; nra.
Qed.

Lemma iter_shr_1_located (p : positive) :
  forall (mrs : shr_record) (e : Z) (x : R),
    0 <= shr_m mrs -> located mrs e x ->
    located (SpecFloat.iter_pos shr_1 p mrs) (e + Zpos p) x.
Proof.
  induction p as [p IH | p IH |]; intros mrs e x Hm Hl; cbn [SpecFloat.iter_pos].
  - replace (e + Z.pos p~1) with (e + 1 + Z.pos p + Z.pos p) by lia.
    apply IH; [apply iter_shr_1_nonneg, shr_1_nonneg, Hm |].
    apply IH; [apply shr_1_nonneg, Hm |].
    apply shr_1_located; assumption.
  - replace (e + Z.pos p~0) with (e + Z.pos p + Z.pos p) by lia.
    apply IH; [apply iter_shr_1_nonneg, Hm |].
    apply IH; assumption.
  - apply shr_1_located; assumption.
Qed.

Lemma shr_located (mrs : shr_record) (e n : Z) (x : R) :
  0 <= shr_m mrs -> located mrs e x ->
  located (fst (shr mrs e n)) (snd (shr mrs e n)) x /\
  0 <= shr_m (fst (shr mrs e n)) /\
  snd (shr mrs e n) = Z.max e (e + n).
Proof.
  intros Hm Hl. destruct n as [| p | p]; cbn [shr fst snd].
  - repeat split; [exact Hl | exact Hm | lia].
  - repeat split; [apply iter_shr_1_located; assumption
                  | apply iter_shr_1_nonneg; exact Hm | lia].
  - repeat split; [exact Hl | exact Hm | lia].
Qed.

(** A located number lies in the cell of the mantissa. *)
Lemma located_cell (mrs : shr_record) (e : Z) (x : R) :
  located mrs e x -> (F2R (shr_m mrs) e <= x < F2R (shr_m mrs + 1) e)%R.
Proof.
  destruct mrs as [m r s]. unfold located. cbn [shr_m shr_r shr_s].
  pose proof (bpow_pos (e - 1)) as Hu.
  rewrite !(F2R_unit _ e). unfold F2R. rewrite ?plus_IZR, ?mult_IZR.
  destruct r, s; intros H; nra.
Qed.

(** Rounding the located mantissa gives a nearest multiple of [2^e]. *)
Lemma round_nearest_even_nearest (mrs : shr_record) (e : Z) (x : R) :
  0 <= shr_m mrs -> located mrs e x ->
  nearest e (round_nearest_even (shr_m mrs) (loc_of_shr_record mrs)) x.
Proof.
  destruct mrs as [m r s]. unfold located, nearest. cbn [shr_m shr_r shr_s].
  intros Hm. pose proof (bpow_pos (e - 1)) as Hu.
  assert (Hodd : Z.even m = false -> Z.even (m + 1) = true).
  { intros H. rewrite Z.even_add, H. reflexivity. }
  rewrite !(F2R_unit _ e). unfold F2R.
  destruct r, s; cbn [loc_of_shr_record round_nearest_even]; intros H;
    rewrite ?plus_IZR, ?mult_IZR in H.
  - (* upper half *)
    rewrite plus_IZR. split; [lia |]. split.
    + apply Rabs_le. nra.
    + intros Habs. exfalso. unfold Rabs in Habs. destruct (Rcase_abs _); nra.
  - (* midpoint *)
    destruct (Z.even m) eqn:Hev; rewrite ?plus_IZR.
    + split; [lia |]. split; [apply Rabs_le; nra | auto].
    + split; [lia |]. split; [apply Rabs_le; nra | auto].
  - (* lower half *)
    split; [lia |]. split.
    + apply Rabs_le. nra.
    + intros Habs. exfalso. unfold Rabs in Habs. destruct (Rcase_abs _); nra.
  - (* exact *)
    rewrite H.
    replace (IZR m * (2 * powerRZ 2 (e - 1)) - IZR m * (2 * powerRZ 2 (e - 1)))%R
      with 0%R by ring.
    rewrite Rabs_R0. split; [lia |]. split; [lra | intros Habs; lra].
Qed.

Lemma Rabs_bound (a b : R) : (Rabs a <= b -> - b <= a <= b)%R.
Proof. unfold Rabs. destruct (Rcase_abs a); lra. Qed.

Lemma Rabs_eq_neg (a b : R) : (0 <= b -> a = - b -> Rabs a = b)%R.
Proof. intros Hb ->. rewrite Rabs_Ropp. apply Rabs_pos_eq. exact Hb. Qed.

Lemma bpow_half (g : Z) : powerRZ 2 g = (2 * powerRZ 2 (g - 1))%R.
Proof.
  replace g with ((g - 1) + 1) at 1 by lia. rewrite bpow_add.
  change (powerRZ 2 1) with (2 * 1)%R. ring.
Qed.

Section RoundToNearest.

Variables prec emax : Z.
Hypothesis prec_pos : 0 < prec.

(** Nearest multiples of numbers in order are in order, whatever the
    binades the numbers are in. *)
Lemma nearest_mono (gx mx : Z) (x : R) (gy my : Z) (y : R) :
  in_binade prec emax gx x -> nearest gx mx x ->
  in_binade prec emax gy y -> nearest gy my y ->
  (x <= y)%R ->
  (F2R mx gx <= F2R my gy)%R.
Proof.
  intros (Hgx & Hxhi & Hxlo) (Hmx & Hxn & Hxe) (Hgy & Hyhi & Hylo) (Hmy & Hyn & Hye) Hxy.
  apply Rabs_bound in Hxn, Hyn.
  destruct (Z.lt_trichotomy gx gy) as [Hlt | [Heq | Hgt]].
  - (* [x] in a lower binade: the power of two between them separates *)
    specialize (Hylo ltac:(lia)).
    assert (Hx : (x < powerRZ 2 (gy + prec - 1))%R).
    { apply (Rlt_le_trans _ _ _ Hxhi). apply bpow_le. lia. }
    apply (Rle_trans _ (powerRZ 2 (gy + prec - 1))).
    + assert (Hle : mx <= 2 ^ prec).
      { assert (IZR mx < IZR (2 ^ prec + 1))%R; [| apply lt_IZR in H; lia].
        rewrite plus_IZR, <- bpow_IZR by lia.
        unfold F2R in Hxn. rewrite (bpow_half gx) in Hxn.
        replace (gx + prec) with ((gx - 1) + 1 + prec) in Hxhi by lia.
        rewrite !bpow_add in Hxhi. change (powerRZ 2 1) with (2 * 1)%R in Hxhi.
        pose proof (bpow_pos (gx - 1)). pose proof (bpow_pos prec). nra. }
      apply (Rle_trans _ (F2R (2 ^ prec) gx)); [apply F2R_le; exact Hle |].
      unfold F2R. rewrite <- bpow_IZR, <- bpow_add by lia. apply bpow_le. lia.
    + assert (Hge : 2 ^ (prec - 1) <= my).
      { assert (IZR (2 ^ (prec - 1) - 1) < IZR my)%R; [| apply lt_IZR in H; lia].
        rewrite minus_IZR, <- bpow_IZR by lia.
        unfold F2R in Hyn. rewrite (bpow_half gy) in Hyn.
        replace (gy + prec - 1) with ((gy - 1) + 1 + (prec - 1)) in Hylo by lia.
        rewrite !bpow_add in Hylo. change (powerRZ 2 1) with (2 * 1)%R in Hylo.
        pose proof (bpow_pos (gy - 1)). pose proof (bpow_pos (prec - 1)). nra. }
      apply (Rle_trans _ (F2R (2 ^ (prec - 1)) gy)); [| apply F2R_le; exact Hge].
      unfold F2R. rewrite <- bpow_IZR, <- bpow_add by lia. apply bpow_le. lia.
  - (* the same binade *)
    subst gy. destruct (Z.le_gt_cases mx my) as [Hle | Hgt]; [apply F2R_le; exact Hle |].
    exfalso.
    assert (Hstep : (IZR my + 1 <= IZR mx)%R).
    { rewrite <- plus_IZR. apply IZR_le. lia. }
    pose proof (bpow_pos (gx - 1)) as Hu.
    unfold F2R in Hxn, Hyn, Hxe, Hye. rewrite (bpow_half gx) in Hxn, Hyn, Hxe, Hye.
    set (u := powerRZ 2 (gx - 1)) in Hxn, Hyn, Hxe, Hye, Hu.
    assert (Ex : (x - IZR mx * (2 * u) = - u)%R) by nra.
    assert (Ey : (y - IZR my * (2 * u) = u)%R) by nra.
    assert (Em : mx = my + 1).
    { apply eq_IZR. rewrite plus_IZR. nra. }
    assert (Hevx : Z.even mx = true).
    { apply Hxe. apply Rabs_eq_neg; [lra | exact Ex]. }
    assert (Hevy : Z.even my = true).
    { apply Hye. rewrite Ey. apply Rabs_pos_eq. lra. }
    rewrite Em, Z.even_add, Hevy in Hevx. discriminate.
  - (* [x] cannot be in a higher binade *)
    exfalso. specialize (Hxlo ltac:(lia)).
    assert (powerRZ 2 (gy + prec) <= powerRZ 2 (gx + prec - 1))%R by (apply bpow_le; lia).
    lra.
Qed.

(** The exponent of the binade is that of the format. *)
Lemma in_binade_fexp (m : positive) (e : Z) (x : R) :
  (F2R (Zpos m) e <= x < F2R (Zpos m + 1) e)%R ->
  in_binade prec emax (fexp prec emax (Zpos (digits2_pos m) + e)) x.
Proof.
  intros [Hlo Hhi]. destruct (digits2_bounds m) as [Hdlo Hdhi].
  set (d := Zpos (digits2_pos m)) in *.
  assert (Hx1 : (powerRZ 2 (d - 1 + e) <= x)%R).
  { apply (Rle_trans _ (F2R (Zpos m) e)); [| exact Hlo].
    rewrite bpow_add, bpow_IZR by lia. unfold F2R.
    apply IZR_le in Hdlo. pose proof (bpow_pos e). nra. }
  assert (Hx2 : (x < powerRZ 2 (d + e))%R).
  { apply (Rlt_le_trans _ _ _ Hhi).
    rewrite bpow_add, bpow_IZR by lia. unfold F2R.
    assert (IZR (Zpos m + 1) <= IZR (2 ^ d))%R by (apply IZR_le; lia).
    pose proof (bpow_pos e). nra. }
  unfold in_binade. split; [apply fexp_ge_emin |]. split.
  - apply (Rlt_le_trans _ _ _ Hx2). apply bpow_le. unfold fexp. lia.
  - intros Hg. apply (Rle_trans _ (powerRZ 2 (d - 1 + e))); [| exact Hx1].
    apply bpow_le. unfold fexp in *. lia.
Qed.

(** [binary_round_aux] rounds a located number to nearest even. *)
Lemma binary_round_aux_round_of (mx : positive) (ex : Z) (lx : location) (x : R) :
  located (shr_record_of_loc (Zpos mx) lx) ex x ->
  ex <= fexp prec emax (Zpos (digits2_pos mx) + ex) ->
  fexp prec emax (Zpos (digits2_pos mx) + ex) + 1 <= emax - prec ->
  round_of prec emax x (binary_round_aux prec emax false (Zpos mx) ex lx).
Proof.
  intros Hloc Hex Hmax.
  pose proof (located_cell _ _ _ Hloc) as Hcell. rewrite shr_record_of_loc_m in Hcell.
  pose proof (in_binade_fexp mx ex x Hcell) as Hbin.
  unfold binary_round_aux, shr_fexp. cbn [Zdigits2].
  set (g := fexp prec emax (Zpos (digits2_pos mx) + ex)) in *.
  pose proof (shr_located (shr_record_of_loc (Zpos mx) lx) ex (g - ex) x) as H1.
  rewrite shr_record_of_loc_m in H1. specialize (H1 ltac:(lia) Hloc).
  destruct (shr (shr_record_of_loc (Zpos mx) lx) ex (g - ex)) as [mrs1 e1].
  cbn [fst snd] in H1. destruct H1 as (Hl1 & Hm1 & He1).
  assert (Hg : e1 = g) by lia. clear He1. subst e1.
  pose proof (round_nearest_even_nearest mrs1 g x Hm1 Hl1) as Hn.
  pose proof (located_cell _ _ _ Hl1) as Hcell1.
  (* the mantissa has at most [prec] digits *)
  assert (Hm1prec : shr_m mrs1 < 2 ^ prec).
  { assert (Hlt : shr_m mrs1 * 2 ^ (g - ex) < Zpos mx + 1).
    { apply (F2R_lt_inv _ _ ex).
      assert (HK : F2R (shr_m mrs1 * 2 ^ (g - ex)) ex = F2R (shr_m mrs1) g).
      { rewrite <- (F2R_shift (shr_m mrs1) g (g - ex)) by lia. f_equal. lia. }
      rewrite HK. lra. }
    destruct (digits2_bounds mx) as [_ Hd].
    assert (Hdg : Zpos (digits2_pos mx) <= prec + (g - ex)) by (subst g; unfold fexp; lia).
    destruct (Z.lt_ge_cases (shr_m mrs1) (2 ^ prec)) as [Hok | Hbad]; [exact Hok |].
    exfalso.
    assert (2 ^ Zpos (digits2_pos mx) <= 2 ^ (prec + (g - ex)))
      by (apply Z.pow_le_mono_r; lia).
    rewrite Z.pow_add_r in H by lia.
    assert (0 < 2 ^ (g - ex)) by (apply Z.pow_pos_nonneg; lia).
    nia. }
  set (m2 := round_nearest_even (shr_m mrs1) (loc_of_shr_record mrs1)) in *.
  assert (Hm2 : 0 <= m2 <= 2 ^ prec).
  { destruct (round_nearest_even_step mrs1) as [Heq | [Heq _]]; fold m2 in Heq; lia. }
  exists g, m2. split; [exact Hbin |]. split; [exact Hn |].
  destruct (Z.eq_dec m2 (2 ^ prec)) as [Hpow | Hnpow].
  - (* the rounded mantissa is [2^prec]: one more shift, which is exact *)
    assert (Hd2 : Zdigits2 m2 = prec + 1).
    { rewrite Hpow. destruct (2 ^ prec) as [| p | p] eqn:Ep; try lia.
      cbn [Zdigits2]. destruct (digits2_bounds p) as [Hlo Hhi]. rewrite <- Ep in Hlo, Hhi.
      apply Z.pow_le_mono_r_iff in Hlo; try lia.
      apply Z.pow_lt_mono_r_iff in Hhi; try lia. }
    rewrite Hd2.
    assert (Hgmin : emin prec emax <= g) by (subst g; unfold fexp; lia).
    replace (fexp prec emax (prec + 1 + g) - g) with 1 by (unfold fexp; lia).
    assert (Heven : exists p, m2 = Zpos p~0).
    { assert (He : Z.even m2 = true).
      { rewrite Hpow. replace prec with (Z.succ (prec - 1)) by lia.
        rewrite Z.pow_succ_r by lia. apply Z.even_mul. }
      assert (2 ^ 1 <= 2 ^ prec) by (apply Z.pow_le_mono_r; lia).
      destruct m2 as [| [p | p |] | p]; try discriminate; try lia.
      exists p. reflexivity. }
    destruct Heven as [p Hp]. rewrite Hp.
    cbn [shr_record_of_loc shr SpecFloat.iter_pos shr_1 shr_m fst snd].
    destruct (Z.leb_spec (g + 1) (emax - prec)); [| lia].
    cbn [has_value]. split; [reflexivity |].
    rewrite <- F2R_double. reflexivity.
  - (* otherwise the mantissa fits and nothing is shifted *)
    assert (Hgmin : emin prec emax <= g) by (subst g; unfold fexp; lia).
    assert (Hn2 : fexp prec emax (Zdigits2 m2 + g) - g <= 0).
    { assert (Zdigits2 m2 <= prec) by (apply Zdigits2_le; lia). unfold fexp. lia. }
    cbn [shr_record_of_loc].
    assert (Hshr : shr {| shr_m := m2; shr_r := false; shr_s := false |} g
                       (fexp prec emax (Zdigits2 m2 + g) - g)
                   = ({| shr_m := m2; shr_r := false; shr_s := false |}, g)).
    { destruct (fexp prec emax (Zdigits2 m2 + g) - g); try reflexivity. lia. }
    rewrite Hshr. cbn [shr_m].
    destruct m2 as [| p | p]; [| | lia].
    + cbn [has_value]. split; [reflexivity |]. unfold F2R. lra.
    + destruct (Z.leb_spec g (emax - prec)); [| lia].
      cbn [has_value]. split; reflexivity.
Qed.

Lemma has_value_SF2R (r : spec_float) (v : R) : has_value r v -> SF2R r = v.
Proof.
  destruct r as [s | s | | s m e]; cbn [has_value SF2R]; try contradiction.
  - intros [_ ->]. reflexivity.
  - intros [-> <-]. reflexivity.
Qed.

(** Rounding to nearest even is monotone. *)
Lemma round_of_mono (x y : R) (rx ry : spec_float) :
  round_of prec emax x rx -> round_of prec emax y ry -> (x <= y)%R ->
  (SF2R rx <= SF2R ry)%R.
Proof.
  intros (gx & mx & Hbx & Hnx & Hvx) (gy & my & Hby & Hny & Hvy) Hxy.
  rewrite (has_value_SF2R _ _ Hvx), (has_value_SF2R _ _ Hvy).
  exact (nearest_mono gx mx x gy my y Hbx Hnx Hby Hny Hxy).
Qed.

(** Zero rounds to zero. *)
Lemma round_of_zero : round_of prec emax 0 (S754_zero false).
Proof.
  exists (emin prec emax), 0. split; [| split].
  - split; [lia |]. split; [apply bpow_pos | lia].
  - split; [lia |]. unfold F2R. rewrite Rmult_0_l, Rminus_0_r, Rabs_R0.
    pose proof (bpow_pos (emin prec emax - 1)). split; [lra | intros; lra].
  - cbn. split; [reflexivity |]. unfold F2R. ring.
Qed.

(** A number the format holds is rounded to itself. *)
Lemma round_of_exact (k : positive) (e : Z) (r : spec_float) :
  round_of prec emax (F2R (Zpos k) e) r ->
  Zpos (digits2_pos k) <= prec ->
  emin prec emax <= e ->
  has_value r (F2R (Zpos k) e).
Proof.
  intros (g & m & (Hg & Hhi & Hlo) & (Hm & Hn & _) & Hv) Hk He.
  assert (Hge : g <= e).
  { destruct (Z.eq_dec g (emin prec emax)) as [-> | Hne]; [exact He |].
    specialize (Hlo ltac:(lia)).
    destruct (digits2_bounds k) as [_ Hd].
    assert (Hlt : (F2R (Zpos k) e < powerRZ 2 (Zpos (digits2_pos k) + e))%R).
    { rewrite bpow_add, bpow_IZR by lia. unfold F2R.
      apply IZR_lt in Hd. pose proof (bpow_pos e). nra. }
    assert (g + prec - 1 < Zpos (digits2_pos k) + e); [| lia].
    apply bpow_lt_inv. lra. }
  assert (Hgrid : F2R (Zpos k) e = F2R (Zpos k * 2 ^ (e - g)) g).
  { rewrite <- (F2R_shift (Zpos k) e (e - g)) by lia. f_equal. lia. }
  assert (Heq : m = Zpos k * 2 ^ (e - g)).
  { rewrite Hgrid in Hn. apply Rabs_bound in Hn.
    unfold F2R in Hn. rewrite (bpow_half g) in Hn.
    pose proof (bpow_pos (g - 1)) as Hu.
    set (K := Zpos k * 2 ^ (e - g)) in *.
    assert (IZR K - 1 < IZR m < IZR K + 1)%R by nra.
    destruct H as [H1 H2]. rewrite <- minus_IZR in H1. rewrite <- plus_IZR in H2.
    apply lt_IZR in H1, H2. lia. }
  rewrite Hgrid, <- Heq. exact Hv.
Qed.

Lemma mag_eq (m1 m2 : positive) (e1 e2 : Z) :
  F2R (Zpos m1) e1 = F2R (Zpos m2) e2 ->
  Zpos (digits2_pos m1) + e1 = Zpos (digits2_pos m2) + e2.
Proof.
  intros H.
  pose proof (mag_le m1 m2 e1 e2 ltac:(lra)). pose proof (mag_le m2 m1 e2 e1 ltac:(lra)).
  lia.
Qed.

(** [binary_round] rounds to nearest even. *)
Lemma binary_round_round_of (m : positive) (e : Z) :
  fexp prec emax (Zpos (digits2_pos m) + e) + 1 <= emax - prec ->
  round_of prec emax (F2R (Zpos m) e) (binary_round prec emax false m e).
Proof.
  intros Hmax. unfold binary_round.
  pose proof (shl_align_spec m e (fexp prec emax (Zpos (digits2_pos m) + e))) as [Hval Hexp].
  destruct (shl_align m e (fexp prec emax (Zpos (digits2_pos m) + e))) as [mz ez].
  cbn [fst snd] in Hval, Hexp.
  pose proof (mag_eq mz m ez e Hval) as Hmag.
  rewrite <- Hval.
  apply binary_round_aux_round_of.
  - cbn. reflexivity.
  - rewrite Hmag. lia.
  - rewrite Hmag. exact Hmax.
Qed.

(** A canonical float is its own rounding. *)
Lemma round_of_canonical (m : positive) (e : Z) :
  canonical_mantissa prec emax m e = true ->
  round_of prec emax (F2R (Zpos m) e) (S754_finite false m e).
Proof.
  intros Hcan. unfold canonical_mantissa in Hcan. apply Z.eqb_eq in Hcan.
  exists e, (Zpos m). split; [| split].
  - rewrite <- Hcan at 1. apply in_binade_fexp. split; [lra |].
    unfold F2R. rewrite plus_IZR. pose proof (bpow_pos e). nra.
  - split; [lia |]. replace (F2R (Zpos m) e - F2R (Zpos m) e)%R with 0%R by ring.
    rewrite Rabs_R0. pose proof (bpow_pos (e - 1)). split; [lra | intros; lra].
  - cbn. split; reflexivity.
Qed.

(** Addition of a zero or finite float and a positive canonical float, the
    exact sum being in [0, V]. *)
Lemma SFadd_round_of (a : spec_float) (mb : positive) (eb : Z) (mv : positive) (ev : Z) :
  is_finite a = true ->
  canonical_mantissa prec emax mb eb = true ->
  (0 <= SF2R a + F2R (Zpos mb) eb <= F2R (Zpos mv) ev)%R ->
  canonical_mantissa prec emax mv ev = true ->
  ev + 1 <= emax - prec ->
  round_of prec emax (SF2R a + F2R (Zpos mb) eb)
    (SFadd prec emax a (S754_finite false mb eb)).
Proof.
  intros Hfin Hcanb Hsum Hcan Hev.
  destruct a as [sa | sa | | sa ma ea]; try discriminate.
  - cbn [SFadd SF2R]. rewrite Rplus_0_l. apply round_of_canonical. exact Hcanb.
  - cbn [SFadd SF2R] in *.
    set (ez := Z.min ea eb) in *.
    pose proof (shl_align_spec ma ea ez) as [Hvx Hexx].
    pose proof (shl_align_spec mb eb ez) as [Hvy Hexy].
    replace (snd (shl_align ma ea ez)) with ez in Hvx by lia.
    replace (snd (shl_align mb eb ez)) with ez in Hvy by lia.
    set (ax := fst (shl_align ma ea ez)) in *. set (ay := fst (shl_align mb eb ez)) in *.
    assert (HS : F2R (cond_Zopp sa (Zpos ax) + cond_Zopp false (Zpos ay)) ez
                 = (F2R (cond_Zopp sa (Zpos ma)) ea + F2R (Zpos mb) eb)%R).
    { rewrite F2R_add. cbn [cond_Zopp]. rewrite Hvy. destruct sa; cbn [cond_Zopp].
      - change (Z.neg ax) with (- Z.pos ax). change (Z.neg ma) with (- Z.pos ma).
        rewrite !F2R_opp, Hvx. reflexivity.
      - rewrite Hvx. reflexivity. }
    rewrite <- HS in *.
    destruct (cond_Zopp sa (Zpos ax) + cond_Zopp false (Zpos ay)) as [| p | p];
      cbn [binary_normalize].
    + replace (F2R 0 ez) with 0%R by (unfold F2R; ring). apply round_of_zero.
    + apply binary_round_round_of.
      pose proof (fexp_mag_le prec emax p ez mv ev ltac:(lra) Hcan). lia.
    + exfalso. change (Z.neg p) with (- Z.pos p) in Hsum. rewrite F2R_opp in Hsum.
      pose proof (F2R_pos p ez). lra.
Qed.

(** The mantissa of a rounding has at most [prec] digits, or is [2^prec]. *)
Lemma nearest_bound (g m : Z) (x : R) :
  in_binade prec emax g x -> nearest g m x -> m <= 2 ^ prec.
Proof.
  intros (Hg & Hhi & _) (Hm & Hn & _). apply Rabs_bound in Hn.
  assert (IZR m < IZR (2 ^ prec + 1))%R; [| apply lt_IZR in H; lia].
  rewrite plus_IZR, <- bpow_IZR by lia.
  unfold F2R in Hn. rewrite (bpow_half g) in Hn.
  replace (g + prec) with ((g - 1) + 1 + prec) in Hhi by lia.
  rewrite !bpow_add in Hhi. change (powerRZ 2 1) with (2 * 1)%R in Hhi.
  pose proof (bpow_pos (g - 1)). pose proof (bpow_pos prec). nra.
Qed.

(** The location [new_location] gives the remainder [k] of a division by
    [nb]: that of [k / nb] in [[0, 1)]. *)
Lemma new_location_spec (nb k : Z) :
  0 <= k < nb ->
  new_location nb k = if k =? 0 then loc_Exact else loc_Inexact (2 * k ?= nb).
Proof.
  intros Hk. unfold new_location, new_location_even, new_location_odd.
  destruct (Z.even nb) eqn:Hev; [reflexivity |].
  destruct (k =? 0); [reflexivity |]. f_equal.
  assert (Hodd : Z.odd nb = true) by (rewrite <- Z.negb_even, Hev; reflexivity).
  apply Z.odd_spec in Hodd. destruct Hodd as [j Hj].
  destruct (Z.compare_spec (2 * k + 1) nb), (Z.compare_spec (2 * k) nb);
    try reflexivity; lia.
Qed.

End RoundToNearest.

Section RoundedOperations.

Variables prec emax : Z.
Hypothesis prec_pos : 0 < prec.

(** The quotient mantissa and the location [SFdiv_core_binary] returns
    locate the exact quotient. *)
Lemma SFdiv_core_locates (mx : positive) (ex : Z) (my : positive) (ey : Z) :
  let '(q, ez, lz) := SFdiv_core_binary prec emax (Zpos mx) ex (Zpos my) ey in
  0 <= q /\
  located (shr_record_of_loc q lz) ez (F2R (Zpos mx) ex / F2R (Zpos my) ey) /\
  ez = Z.min (fexp prec emax (Zpos (digits2_pos mx) + ex - (Zpos (digits2_pos my) + ey)))
             (ex - ey).
Proof.
  unfold SFdiv_core_binary. cbn [Zdigits2].
  set (e' := Z.min (fexp prec emax (Zpos (digits2_pos mx) + ex - (Zpos (digits2_pos my) + ey)))
                   (ex - ey)).
  set (s := ex - ey - e').
  assert (Hs : 0 <= s) by (subst s e'; lia).
  set (m' := match s with Z.pos _ => Z.shiftl (Zpos mx) s | 0 => Zpos mx | Z.neg _ => 0 end).
  assert (Hm' : m' = Zpos mx * 2 ^ s).
  { subst m'. destruct s as [| p | p]; [cbn; lia | | lia].
    rewrite Z.shiftl_mul_pow2 by lia. reflexivity. }
  pose proof (Z_div_mod m' (Zpos my) ltac:(lia)) as Hdiv.
  destruct (Z.div_eucl m' (Zpos my)) as [q r]. destruct Hdiv as [Hqr Hr].
  assert (Hq : 0 <= q) by nia.
  split; [exact Hq |]. split; [| reflexivity].
  set (X := (F2R (Zpos mx) ex / F2R (Zpos my) ey)%R).
  pose proof (bpow_pos (e' - 1)) as Hu.
  assert (HY : (0 < IZR (Zpos my))%R) by (apply IZR_lt; lia).
  (* X * my = (my * q + r) * 2^e' *)
  assert (HX : (X * IZR (Zpos my) = (IZR (Zpos my) * IZR q + IZR r) * (2 * powerRZ 2 (e' - 1)))%R).
  { assert (Hval : F2R (Zpos mx) ex
                   = (IZR (Zpos my * q + r) * powerRZ 2 e' * powerRZ 2 ey)%R).
    { rewrite <- Hqr, Hm'. rewrite <- (F2R_shift (Zpos mx) ex s Hs).
      unfold F2R. replace (ex - s) with (e' + ey) by (subst s; lia).
      rewrite bpow_add. ring. }
    subst X. rewrite Hval. unfold F2R. rewrite plus_IZR, mult_IZR, <- bpow_half.
    pose proof (bpow_pos ey). field. split; lra. }
  assert (Hr0 : (0 <= IZR r)%R) by (apply IZR_le; lia).
  assert (Hrlt : (IZR r < IZR (Zpos my))%R) by (apply IZR_lt; lia).
  rewrite new_location_spec by lia.
  unfold located. rewrite !(F2R_unit _ e'). unfold F2R.
  rewrite ?plus_IZR, ?mult_IZR.
  set (u := powerRZ 2 (e' - 1)) in *. set (Y := IZR (Zpos my)) in *.
  assert (Hcmp : forall a b : R, (a * Y < b * Y -> a < b)%R).
  { intros a b H. apply (Rmult_lt_reg_r Y); assumption. }
  assert (Heq : forall a b : R, (a * Y = b * Y -> a = b)%R).
  { intros a b H. apply (Rmult_eq_reg_r Y); [exact H | lra]. }
  destruct (Z.eqb_spec r 0) as [-> | Hne].
  - cbn [shr_record_of_loc shr_m shr_r shr_s]. apply Heq. rewrite HX. ring.
  - assert (Hrpos : (0 < IZR r)%R) by (apply IZR_lt; lia).
    destruct (Z.compare_spec (2 * r) (Zpos my)) as [Hc | Hc | Hc];
      cbn [shr_record_of_loc shr_m shr_r shr_s].
    + apply Heq. rewrite HX. apply (f_equal IZR) in Hc. rewrite mult_IZR in Hc.
      fold Y in Hc. nra.
    + apply IZR_lt in Hc. rewrite mult_IZR in Hc. fold Y in Hc.
      split; apply Hcmp; rewrite HX; nra.
    + apply IZR_lt in Hc. rewrite mult_IZR in Hc. fold Y in Hc.
      split; apply Hcmp; rewrite HX; nra.
Qed.

Lemma Rdiv_lt_mult (a b c : R) : (0 < c -> b < a * c -> b / c < a)%R.
Proof.
  intros Hc H. apply (Rmult_lt_reg_r c); [exact Hc |].
  unfold Rdiv. rewrite Rmult_assoc, Rinv_l by lra. lra.
Qed.

(** The value of a positive mantissa with its exponent lies in the binade
    its number of digits gives. *)
Lemma F2R_digits (m : positive) (e : Z) :
  (powerRZ 2 (Zpos (digits2_pos m) - 1 + e) <= F2R (Zpos m) e
   < powerRZ 2 (Zpos (digits2_pos m) + e))%R.
Proof.
  destruct (digits2_bounds m) as [Hlo Hhi].
  rewrite !bpow_add.
  rewrite (bpow_IZR (Zpos (digits2_pos m) - 1)), (bpow_IZR (Zpos (digits2_pos m))) by lia.
  unfold F2R.
  apply IZR_le in Hlo. apply IZR_lt in Hhi. pose proof (bpow_pos e). nra.
Qed.

(** Division of two positive finite floats whose quotient is in the normal
    range. *)
Lemma SFdiv_round_of (ms : positive) (es : Z) (md : positive) (ed : Z) :
  emin prec emax + prec
  <= Zpos (digits2_pos ms) + es - (Zpos (digits2_pos md) + ed) ->
  fexp prec emax (Zpos (digits2_pos ms) + es - (Zpos (digits2_pos md) + ed) + 1) + 1
  <= emax - prec ->
  round_of prec emax (F2R (Zpos ms) es / F2R (Zpos md) ed)
    (SFdiv prec emax (S754_finite false ms es) (S754_finite false md ed)).
Proof.
  intros Hnormal Hmax. cbn [SFdiv xorb].
  pose proof (SFdiv_core_locates ms es md ed) as Hcore.
  destruct (SFdiv_core_binary prec emax (Zpos ms) es (Zpos md) ed) as [[q ez] lz].
  destruct Hcore as (Hq & Hloc & Hez).
  set (Dm := Zpos (digits2_pos ms) + es - (Zpos (digits2_pos md) + ed)) in *.
  set (X := (F2R (Zpos ms) es / F2R (Zpos md) ed)%R) in *.
  pose proof (F2R_digits ms es) as [HAlo HAhi].
  pose proof (F2R_digits md ed) as [HBlo HBhi].
  pose proof (F2R_pos md ed) as HBpos.
  assert (HXlo : (powerRZ 2 (Dm - 1) < X)%R).
  { apply Rlt_div_mult; [exact HBpos |].
    apply (Rlt_le_trans _ (powerRZ 2 (Dm - 1) * powerRZ 2 (Zpos (digits2_pos md) + ed))).
    - pose proof (bpow_pos (Dm - 1)). nra.
    - rewrite <- bpow_add. replace (Dm - 1 + (Zpos (digits2_pos md) + ed))
        with (Zpos (digits2_pos ms) - 1 + es) by (subst Dm; lia).
      exact HAlo. }
  assert (HXhi : (X < powerRZ 2 (Dm + 1))%R).
  { apply Rdiv_lt_mult; [exact HBpos |].
    apply (Rlt_le_trans _ (powerRZ 2 (Dm + 1) * powerRZ 2 (Zpos (digits2_pos md) - 1 + ed))).
    - rewrite <- bpow_add. replace (Dm + 1 + (Zpos (digits2_pos md) - 1 + ed))
        with (Zpos (digits2_pos ms) + es) by (subst Dm; lia).
      exact HAhi.
    - pose proof (bpow_pos (Dm + 1)). nra. }
  pose proof (located_cell _ _ _ Hloc) as [Hclo Hchi]. rewrite shr_record_of_loc_m in Hclo, Hchi.
  assert (Hezle : ez <= Dm - 1) by (unfold fexp in Hez; lia).
  assert (Hqpos : 0 < q).
  { assert (1 < q + 1); [| lia]. apply (F2R_lt_inv _ _ ez).
    apply (Rle_lt_trans _ (powerRZ 2 (Dm - 1))); [| lra].
    unfold F2R. rewrite Rmult_1_l. apply bpow_le. exact Hezle. }
  destruct q as [| qp | qp]; try lia.
  pose proof (F2R_digits qp ez) as [HQlo HQhi].
  assert (Hmag1 : Dm <= Zpos (digits2_pos qp) + ez).
  { assert (Dm - 1 < Zpos (digits2_pos qp) + ez); [| lia].
    apply bpow_lt_inv. apply (Rlt_le_trans _ _ _ HXlo).
    apply (Rle_trans _ (F2R (Zpos qp + 1) ez)); [lra |].
    destruct (digits2_bounds qp) as [_ Hd].
    rewrite bpow_add, bpow_IZR by lia. unfold F2R.
    assert (IZR (Zpos qp + 1) <= IZR (2 ^ Zpos (digits2_pos qp)))%R by (apply IZR_le; lia).
    pose proof (bpow_pos ez). nra. }
  assert (Hmag2 : Zpos (digits2_pos qp) + ez <= Dm + 1).
  { assert (Zpos (digits2_pos qp) - 1 + ez < Dm + 1); [| lia].
    apply bpow_lt_inv. lra. }
  apply binary_round_aux_round_of; [exact prec_pos | exact Hloc | |].
  - pose proof (fexp_mono prec emax Dm (Zpos (digits2_pos qp) + ez) Hmag1). lia.
  - pose proof (fexp_mono prec emax (Zpos (digits2_pos qp) + ez) (Dm + 1) Hmag2). lia.
Qed.

(** Multiplication of a zero or positive finite float by a positive
    normal float, the exact product being at most [V]. *)
Lemma SFmul_round_of (q : spec_float) (v : R) (mc : positive) (ec : Z)
    (mv : positive) (ev : Z) :
  has_value q v ->
  Zpos (digits2_pos mc) = prec ->
  (v * F2R (Zpos mc) ec <= F2R (Zpos mv) ev)%R ->
  canonical_mantissa prec emax mv ev = true ->
  ev + 1 <= emax - prec ->
  round_of prec emax (v * F2R (Zpos mc) ec) (SFmul prec emax q (S754_finite false mc ec)).
Proof.
  intros Hq Hmc Hle Hcan Hev.
  destruct q as [s | s | | s mq eq]; cbn [has_value] in Hq; try contradiction.
  - destruct Hq as [-> ->]. cbn [SFmul xorb]. rewrite Rmult_0_l. apply round_of_zero.
  - destruct Hq as [-> <-]. cbn [SFmul xorb].
    rewrite F2R_mul, <- Pos2Z.inj_mul in *.
    pose proof (mag_le mc (mq * mc) 0 0) as Hd.
    assert (Hdig : prec <= Zpos (digits2_pos (mq * mc))).
    { rewrite <- Hmc. assert (F2R (Zpos mc) 0 <= F2R (Zpos (mq * mc)) 0)%R.
      { apply F2R_le. nia. }
      specialize (Hd H). lia. }
    apply binary_round_aux_round_of; [exact prec_pos | cbn; reflexivity | |].
    + unfold fexp. lia.
    + pose proof (fexp_mag_le prec emax (mq * mc) (eq + ec) mv ev Hle Hcan). lia.
Qed.

(** A number that a format with fewer digits holds is converted exactly. *)
Lemma binary_round_exact (m : positive) (e : Z) (k : positive) (g : Z) :
  F2R (Zpos m) e = F2R (Zpos k) g ->
  Zpos (digits2_pos k) <= prec ->
  emin prec emax <= g ->
  fexp prec emax (Zpos (digits2_pos m) + e) + 1 <= emax - prec ->
  has_value (binary_round prec emax false m e) (F2R (Zpos m) e).
Proof.
  intros Hval Hk Hg Hmax.
  pose proof (binary_round_round_of prec emax prec_pos m e Hmax) as H.
  rewrite Hval in *. eapply round_of_exact; eassumption.
Qed.

(** Of two canonical mantissas the one with the smaller exponent is the
    smaller number. *)
Lemma canonical_lt (m1 : positive) (e1 : Z) (m2 : positive) (e2 : Z) :
  canonical_mantissa prec emax m1 e1 = true ->
  canonical_mantissa prec emax m2 e2 = true ->
  e1 < e2 ->
  (F2R (Zpos m1) e1 < F2R (Zpos m2) e2)%R.
Proof.
  unfold canonical_mantissa, fexp. intros H1 H2 Hlt. apply Z.eqb_eq in H1, H2.
  destruct (digits2_bounds m1) as [_ Hm1]. destruct (digits2_bounds m2) as [Hm2 _].
  assert (Hd1 : Zpos (digits2_pos m1) <= prec) by lia.
  assert (Hd2 : Zpos (digits2_pos m2) = prec) by lia.
  rewrite Hd2 in Hm2.
  apply F2R_lt_aligned; [lia |].
  assert (2 ^ Zpos (digits2_pos m1) <= 2 ^ prec) by (apply Z.pow_le_mono_r; lia).
  assert (2 ^ 1 <= 2 ^ (e2 - e1)) by (apply Z.pow_le_mono_r; lia).
  assert (2 ^ prec = 2 ^ (prec - 1) * 2 ^ 1).
  { rewrite <- Z.pow_add_r by lia. f_equal. lia. }
  assert (0 < 2 ^ (prec - 1)) by (apply Z.pow_pos_nonneg; lia).
  nia.
Qed.

(** The comparison of valid floats is that of their values. *)
Lemma SFleb_le (a b : spec_float) :
  valid_binary prec emax a = true -> valid_binary prec emax b = true ->
  is_finite a = true -> is_finite b = true ->
  SFleb a b = true ->
  (SF2R a <= SF2R b)%R.
Proof.
  intros Ha Hb Fa Fb Hle.
  destruct a as [sa | sa | | sa ma ea]; try discriminate;
    destruct b as [sb | sb | | sb mb eb]; try discriminate;
    cbn [SF2R]; unfold SFleb in Hle; cbn [SFcompare] in Hle.
  - lra.
  - destruct sb; [discriminate |]. cbn [cond_Zopp]. pose proof (F2R_pos mb eb). lra.
  - destruct sa; [| discriminate]. cbn [cond_Zopp].
    change (Z.neg ma) with (- Z.pos ma). rewrite F2R_opp. pose proof (F2R_pos ma ea). lra.
  - cbn [valid_binary] in Ha, Hb. unfold bounded in Ha, Hb.
    apply andb_prop in Ha, Hb. destruct Ha as [Ca _]. destruct Hb as [Cb _].
    pose proof (F2R_pos ma ea) as Pa. pose proof (F2R_pos mb eb) as Pb.
    destruct sa, sb; cbn [cond_Zopp];
      change (Z.neg ma) with (- Z.pos ma); change (Z.neg mb) with (- Z.pos mb);
      rewrite ?F2R_opp; try lra; try discriminate.
    + destruct (Z.compare_spec ea eb) as [Heq | Hlt | Hgt]; try discriminate.
      * subst eb. fold (Pos.compare ma mb) in Hle.
        destruct (Pos.compare_spec ma mb) as [Hc | Hc | Hc]; try discriminate.
        -- subst mb. lra.
        -- assert (F2R (Zpos mb) ea <= F2R (Zpos ma) ea)%R by (apply F2R_le; lia). lra.
      * pose proof (canonical_lt mb eb ma ea Cb Ca Hgt). lra.
    + destruct (Z.compare_spec ea eb) as [Heq | Hlt | Hgt]; try discriminate.
      * subst eb. fold (Pos.compare ma mb) in Hle.
        destruct (Pos.compare_spec ma mb) as [Hc | Hc | Hc]; try discriminate.
        -- subst mb. lra.
        -- apply F2R_le. lia.
      * pose proof (canonical_lt ma ea mb eb Ca Cb Hlt). lra.
Qed.

End RoundedOperations.

(** The truncation of a zero or positive finite float is the integer part
    of its value. *)
Lemma Ztrunc_floor (r : spec_float) (v : R) :
  has_value r v ->
  exists t, Ztrunc r = Some t /\ 0 <= t /\ (IZR t <= v < IZR t + 1)%R.
Proof.
  destruct r as [s | s | | s m e]; cbn [has_value Ztrunc]; try contradiction.
  - intros [_ ->]. exists 0. repeat split; try lia; lra.
  - intros [-> <-]. exists (Z.shiftl (Zpos m) e). split; [reflexivity |].
    destruct (Z.le_gt_cases 0 e) as [He | He].
    + rewrite Z.shiftl_mul_pow2 by exact He.
      assert (0 < 2 ^ e) by (apply Z.pow_pos_nonneg; lia).
      split; [lia |].
      unfold F2R. rewrite mult_IZR, <- bpow_IZR by exact He. lra.
    + rewrite Z.shiftl_div_pow2 by lia.
      assert (Hpow : 0 < 2 ^ (- e)) by (apply Z.pow_pos_nonneg; lia).
      pose proof (Z.mul_div_le (Zpos m) (2 ^ (- e)) Hpow) as Hlo.
      pose proof (Z.mul_succ_div_gt (Zpos m) (2 ^ (- e)) Hpow) as Hhi.
      set (t := Z.pos m / 2 ^ (- e)) in *.
      split; [apply Z.div_pos; lia |].
      assert (Hgrid : forall k, IZR k = F2R (k * 2 ^ (- e)) e).
      { intros k. rewrite <- F2R_0. rewrite <- (F2R_shift k 0 (- e)) by lia.
        f_equal. lia. }
      rewrite <- plus_IZR, !Hgrid. split.
      * apply F2R_le. lia.
      * unfold F2R. assert (IZR (Zpos m) < IZR ((t + 1) * 2 ^ (- e)))%R by (apply IZR_lt; lia).
        pose proof (bpow_pos e). nra.
Qed.

(** *** The bars are monotone in the angles *)

Lemma digits2_of_bounds (m : positive) (k : Z) :
  2 ^ (k - 1) <= Zpos m < 2 ^ k -> Zpos (digits2_pos m) = k.
Proof.
  intros [H1 H2]. destruct (digits2_bounds m) as [H3 H4].
  assert (Hk : 0 < k).
  { destruct (Z.lt_ge_cases 0 k) as [Hk | Hk]; [exact Hk |].
    destruct k as [| p | p]; try lia.
    rewrite Z.pow_neg_r in H2 by lia. lia. }
  destruct (Z.lt_trichotomy (Zpos (digits2_pos m)) k) as [Hlt | [Heq | Hgt]]; [| exact Heq |].
  - assert (2 ^ Zpos (digits2_pos m) <= 2 ^ (k - 1)) by (apply Z.pow_le_mono_r; lia). lia.
  - assert (2 ^ k <= 2 ^ (Zpos (digits2_pos m) - 1)) by (apply Z.pow_le_mono_r; lia). lia.
Qed.

Lemma within_value (mc : positive) (ec : Z) (a : spec_float) :
  2 ^ 23 <= Zpos mc ->
  within (S754_finite false mc ec) a = true ->
  F32.valid a = true /\ is_finite a = true /\
  (- F2R (Zpos mc) ec <= SF2R a <= F2R (Zpos mc) ec)%R.
Proof.
  intros Hmc Hin. apply within_inv in Hin. destruct Hin as (Hvalid & Hlo & Hhi).
  pose proof (SFleb_magnitude 24 128 ltac:(lia) a mc ec Hvalid ltac:(lia) Hlo Hhi) as Hmag.
  split; [exact Hvalid |].
  pose proof (F2R_pos mc ec) as Hpos.
  destruct a as [s | s | | s m e]; try contradiction; cbn [is_finite SF2R].
  - split; [reflexivity | lra].
  - split; [reflexivity |]. pose proof (F2R_pos m e). destruct s; cbn [cond_Zopp].
    + change (Z.neg m) with (- Z.pos m). rewrite F2R_opp. lra.
    + lra.
Qed.

(** What each stage of the conversion computes, for an offset [B] and a
    divisor [D]: the sum, the quotient and the product are the roundings to
    nearest even of the exact ones, the sum as a [float], the other two as
    [double]s. *)
Lemma scale_stages (mc : positive) (ec : Z) (md : positive) (ed : Z) (a : spec_float) :
  2 ^ 23 <= Zpos mc < 2 ^ 24 ->
  -148 <= ec <= 0 ->
  2 ^ 52 <= Zpos md < 2 ^ 53 ->
  ed = ec - 28 ->
  Zpos mc * 2 ^ 81 <= 4503603922337792 * Zpos md ->
  within (S754_finite false mc ec) a = true ->
  let B := S754_finite false mc ec in
  let D := S754_finite false md ed in
  let S := F32.add a B in
  let Q := F64.div (F64.of_float S) D in
  round_of 24 128 (SF2R a + SF2R B) S /\
  round_of 53 1024 (SF2R S / SF2R D) Q /\
  round_of 53 1024 (SF2R Q * SF2R (F64.of_int 18)) (scale B D a).
Proof.
  intros Hmc Hec Hmd Hed Hratio Hin B D S Q.
  destruct (within_value mc ec a ltac:(lia) Hin) as (Hvalid & Hfin & Hval).
  pose proof (F2R_pos mc ec) as HBpos. pose proof (F2R_pos md ed) as HDpos.
  assert (Hdc : Zpos (digits2_pos mc) = 24) by (apply digits2_of_bounds; lia).
  assert (Hdd : Zpos (digits2_pos md) = 53) by (apply digits2_of_bounds; lia).
  assert (Htwice : F2R (Zpos mc) (ec + 1) = (2 * F2R (Zpos mc) ec)%R).
  { rewrite <- F2R_double. unfold F2R. rewrite mult_IZR. ring. }
  assert (Hcan2 : canonical_mantissa 24 128 mc (ec + 1) = true).
  { unfold canonical_mantissa, fexp, emin. rewrite Hdc. apply Z.eqb_eq. lia. }
  (* the sum *)
  assert (HS : round_of 24 128 (SF2R a + SF2R B) S).
  { subst S B. cbn [SF2R cond_Zopp].
    apply (SFadd_round_of 24 128 ltac:(lia) a mc ec mc (ec + 1)); try assumption; try lia.
    - unfold canonical_mantissa, fexp, emin. rewrite Hdc. apply Z.eqb_eq. lia.
    - rewrite Htwice. lra. }
  split; [exact HS |].
  assert (HSle : (SF2R S <= F2R (Zpos mc) (ec + 1))%R).
  { change (F2R (Zpos mc) (ec + 1)) with (SF2R (S754_finite false mc (ec + 1))).
    apply (round_of_mono 24 128 ltac:(lia) (SF2R a + SF2R B) (F2R (Zpos mc) (ec + 1)));
      [exact HS | apply round_of_canonical; exact Hcan2 |].
    subst B. cbn [SF2R cond_Zopp]. rewrite Htwice. lra. }
  (* the quotient *)
  assert (Hqb : canonical_mantissa 53 1024 (fst quotient_bound) (snd quotient_bound) = true)
    by reflexivity.
  assert (HQ : round_of 53 1024 (SF2R S / SF2R D) Q).
  { subst Q. destruct HS as (g & m & Hbin & Hnear & Hv).
    pose proof (nearest_bound 24 128 ltac:(lia) g m _ Hbin Hnear) as Hm24.
    destruct Hbin as (Hg & _ & _). destruct Hnear as (Hm0 & _ & _).
    unfold emin in Hg.
    destruct S as [s | s | | s mS eS]; cbn [has_value] in Hv; try contradiction.
    - destruct Hv as [-> _]. cbn [F64.of_float F64.div SFdiv xorb SF2R].
      unfold Rdiv. rewrite Rmult_0_l. apply round_of_zero.
    - destruct Hv as [-> Hv]. cbn [SF2R cond_Zopp] in HSle |- *.
      pose proof (F2R_pos mS eS) as HSpos.
      destruct m as [| k | k]; [unfold F2R in Hv at 2; lra | | lia].
      assert (Hdk : Zpos (digits2_pos k) <= 25).
      { apply digits2_le. change (2 ^ 24) with 16777216 in Hm24.
        change (2 ^ 25) with 33554432. lia. }
      pose proof (mag_eq mS k eS g Hv) as Hmag.
      pose proof (mag_le mS mc eS (ec + 1) HSle) as Hmagle. rewrite Hdc in Hmagle.
      assert (Hconv : has_value (F64.of_float (S754_finite false mS eS)) (F2R (Zpos mS) eS)).
      { cbn [F64.of_float].
        apply (binary_round_exact 53 1024 ltac:(lia) mS eS k g Hv); unfold fexp, emin; lia. }
      destruct (F64.of_float (S754_finite false mS eS)) as [s2 | s2 | | s2 m2 e2];
        cbn [has_value] in Hconv; try contradiction; [lra |].
      destruct Hconv as [-> Hconv]. rewrite <- Hconv.
      pose proof (mag_eq m2 mS e2 eS Hconv) as Hmag2.
      subst D. cbn [SF2R cond_Zopp F64.div].
      apply (SFdiv_round_of 53 1024 ltac:(lia)); rewrite Hdd; unfold fexp, emin; lia. }
  split; [exact HQ |].
  (* the product *)
  assert (HQle : (SF2R Q <= F2R (Zpos (fst quotient_bound)) (snd quotient_bound))%R).
  { change (F2R (Zpos (fst quotient_bound)) (snd quotient_bound))
      with (SF2R (S754_finite false (fst quotient_bound) (snd quotient_bound))).
    apply (round_of_mono 53 1024 ltac:(lia) (SF2R S / SF2R D)
             (F2R (Zpos (fst quotient_bound)) (snd quotient_bound)));
      [exact HQ | apply round_of_canonical; exact Hqb |].
    subst D. cbn [SF2R cond_Zopp]. apply Rdiv_le_mult; [exact HDpos |].
    apply (Rle_trans _ _ _ HSle). rewrite F2R_mul. cbn [fst snd quotient_bound].
    apply F2R_le_aligned_r; [lia |].
    replace (ec + 1 - (-52 + ed)) with 81 by lia. lia. }
  destruct HQ as (g & m & _ & _ & Hv).
  pose proof (has_value_SF2R _ _ Hv) as HvQ. rewrite <- HvQ in Hv.
  unfold scale. fold B D S Q.
  change (F64.of_int 18) with (S754_finite false 5066549580791808 (-48)).
  cbn [SF2R cond_Zopp].
  apply (SFmul_round_of 53 1024 ltac:(lia) Q (SF2R Q) _ _
           (fst product_bound) (snd product_bound)); try exact Hv; try reflexivity.
  - apply (Rle_trans _ (F2R (Zpos (fst quotient_bound)) (snd quotient_bound)
                        * F2R 5066549580791808 (-48))).
    + pose proof (F2R_pos 5066549580791808 (-48)). nra.
    + rewrite F2R_mul. apply F2R_le_aligned; [cbn; lia |]. vm_compute. discriminate.
  - cbn. lia.
Qed.

Lemma static_cast_int_trunc (r : spec_float) (b t : Z) :
  static_cast_int r = Ok b -> Ztrunc r = Some t -> b = t.
Proof.
  unfold static_cast_int, Int.checked. intros H Ht. rewrite Ht in H.
  destruct (Int.in_range t); [congruence | discriminate].
Qed.

(** The bar is a monotone function of the angle, for an offset [B] and a
    divisor [D]. *)
Lemma scale_mono (mc : positive) (ec : Z) (md : positive) (ed : Z) (a a' : spec_float) :
  2 ^ 23 <= Zpos mc < 2 ^ 24 ->
  -148 <= ec <= 0 ->
  2 ^ 52 <= Zpos md < 2 ^ 53 ->
  ed = ec - 28 ->
  Zpos mc * 2 ^ 81 <= 4503603922337792 * Zpos md ->
  within (S754_finite false mc ec) a = true ->
  within (S754_finite false mc ec) a' = true ->
  SFleb a a' = true ->
  exists b b',
    static_cast_int (scale (S754_finite false mc ec) (S754_finite false md ed) a) = Ok b /\
    static_cast_int (scale (S754_finite false mc ec) (S754_finite false md ed) a') = Ok b' /\
    0 <= b /\ b <= b' /\ b' <= 18.
Proof.
  intros Hmc Hec Hmd Hed Hratio Hin Hin' Hle.
  destruct (scale_bucket mc ec md ed a Hmc Hec Hmd Hed Hratio Hin) as (b & Hb & Hb18).
  destruct (scale_bucket mc ec md ed a' Hmc Hec Hmd Hed Hratio Hin') as (b' & Hb' & Hb18').
  exists b, b'. repeat split; try assumption; try lia.
  destruct (scale_stages mc ec md ed a Hmc Hec Hmd Hed Hratio Hin) as (HS & HQ & HP).
  destruct (scale_stages mc ec md ed a' Hmc Hec Hmd Hed Hratio Hin') as (HS' & HQ' & HP').
  destruct (within_value mc ec a ltac:(lia) Hin) as (Hvalid & Hfin & _).
  destruct (within_value mc ec a' ltac:(lia) Hin') as (Hvalid' & Hfin' & _).
  pose proof (SFleb_le 24 128 ltac:(lia) a a' Hvalid Hvalid' Hfin Hfin' Hle) as Hval.
  pose proof (F2R_pos md ed) as HDpos.
  cbv zeta in HS, HQ, HP, HS', HQ', HP'.
  (* the sums, the quotients and the products are in order *)
  pose proof (round_of_mono 24 128 ltac:(lia) _ _ _ _ HS HS' ltac:(lra)) as HSS.
  assert (Hdiv : (SF2R (F32.add a (S754_finite false mc ec)) / SF2R (S754_finite false md ed)
                  <= SF2R (F32.add a' (S754_finite false mc ec))
                     / SF2R (S754_finite false md ed))%R).
  { cbn [SF2R cond_Zopp] in *. unfold Rdiv. apply Rmult_le_compat_r; [| exact HSS].
    apply Rlt_le, Rinv_0_lt_compat. exact HDpos. }
  pose proof (round_of_mono 53 1024 ltac:(lia) _ _ _ _ HQ HQ' Hdiv) as HQQ.
  assert (Hmul : (SF2R (F64.div (F64.of_float (F32.add a (S754_finite false mc ec)))
                          (S754_finite false md ed)) * SF2R (F64.of_int 18)
                  <= SF2R (F64.div (F64.of_float (F32.add a' (S754_finite false mc ec)))
                             (S754_finite false md ed)) * SF2R (F64.of_int 18))%R).
  { apply Rmult_le_compat_r; [| exact HQQ].
    change (F64.of_int 18) with (S754_finite false 5066549580791808 (-48)).
    cbn [SF2R cond_Zopp]. apply Rlt_le, F2R_pos. }
  pose proof (round_of_mono 53 1024 ltac:(lia) _ _ _ _ HP HP' Hmul) as HPP.
  (* and so are their integer parts *)
  destruct HP as (g & m & _ & _ & Hv). destruct HP' as (g' & m' & _ & _ & Hv').
  rewrite <- (has_value_SF2R _ _ Hv) in Hv. rewrite <- (has_value_SF2R _ _ Hv') in Hv'.
  destruct (Ztrunc_floor _ _ Hv) as (t & Ht & _ & Hfl).
  destruct (Ztrunc_floor _ _ Hv') as (t' & Ht' & _ & Hfl').
  rewrite (static_cast_int_trunc _ _ _ Hb Ht), (static_cast_int_trunc _ _ _ Hb' Ht').
  assert (IZR t < IZR (t' + 1))%R by (rewrite plus_IZR; lra).
  apply lt_IZR in H. lia.
Qed.

(** The longer the angle, the longer the bar: on its range each of the two
    conversions is a monotone function of the [float] angle, although each
    of its three operations rounds. *)
Theorem bars_are_monotone (angle angle' : spec_float) :
  SFleb angle angle' = true ->
  (within M_PI_f angle = true -> within M_PI_f angle' = true ->
   exists b b',
     static_cast_int (scale_pi angle) = Ok b /\
     static_cast_int (scale_pi angle') = Ok b' /\ b <= b') /\
  (within HALF_PI_f angle = true -> within HALF_PI_f angle' = true ->
   exists b b',
     static_cast_int (scale_half_pi angle) = Ok b /\
     static_cast_int (scale_half_pi angle') = Ok b' /\ b <= b').
Proof.
  intros Hle. split; intros Hin Hin'.
  - rewrite !scale_pi_eq.
    destruct (scale_mono 13176795 (-22) 7074237752028440 (-50) angle angle')
      as (b & b' & Hb & Hb' & _ & Hbb & _); try lia; try assumption.
    exists b, b'. auto.
  - rewrite !scale_half_pi_eq.
    destruct (scale_mono 13176795 (-23) 7074237752028440 (-51) angle angle')
      as (b & b' & Hb & Hb' & _ & Hbb & _); try lia; try assumption.
    exists b, b'. auto.
Qed.

(** *** Where the bars change *)

Lemma SFcompare_antisym (a b : spec_float) :
  is_finite a = true -> is_finite b = true ->
  SFcompare b a = option_map CompOpp (SFcompare a b).
Proof.
  destruct a as [sa | sa | | sa ma ea]; try discriminate;
    destruct b as [sb | sb | | sb mb eb]; try discriminate; intros _ _;
    cbn [SFcompare option_map].
  - reflexivity.
  - destruct sb; reflexivity.
  - destruct sa; reflexivity.
  - fold (Pos.compare ma mb). fold (Pos.compare mb ma).
    rewrite (Z.compare_antisym ea eb), (Pos.compare_antisym ma mb).
    destruct sa, sb; try reflexivity;
      destruct (ea ?= eb); try reflexivity; destruct (ma ?= mb)%positive; reflexivity.
Qed.

Lemma SFltb_false_leb (a b : spec_float) :
  is_finite a = true -> is_finite b = true ->
  SFltb a b = false -> SFleb b a = true.
Proof.
  intros Ha Hb. unfold SFltb, SFleb. rewrite (SFcompare_antisym a b Ha Hb).
  destruct (SFcompare a b) as [[| |] |] eqn:E; cbn [option_map CompOpp];
    try reflexivity; try discriminate.
  intros _. exfalso.
  destruct a as [sa | sa | | sa ma ea]; try discriminate;
    destruct b as [sb | sb | | sb mb eb]; discriminate.
Qed.

(** Below a negative float lies the float with the next mantissa. *)
Lemma SFltb_leb_pred (a : spec_float) (m : positive) (e : Z) :
  SFltb a (S754_finite true m e) = true ->
  SFleb a (S754_finite true (Pos.succ m) e) = true.
Proof.
  unfold SFltb, SFleb.
  destruct a as [sa | sa | | sa ma ea]; cbn [SFcompare]; try discriminate.
  - destruct sa; [reflexivity | discriminate].
  - destruct sa; [| discriminate].
    destruct (ea ?= e); try discriminate; [| reflexivity].
    fold (Pos.compare ma m). fold (Pos.compare ma (Pos.succ m)).
    destruct (Pos.compare_spec ma m) as [H | H | H]; try discriminate. intros _.
    destruct (Pos.compare_spec ma (Pos.succ m)) as [H' | H' | H']; try reflexivity. lia.
Qed.

(** At most a positive float and not that float: at most the float with
    the previous mantissa. *)
Lemma SFleb_neq_pred (a : spec_float) (m : positive) (e : Z) :
  SFleb a (S754_finite false (Pos.succ m) e) = true ->
  a <> S754_finite false (Pos.succ m) e ->
  SFleb a (S754_finite false m e) = true.
Proof.
  unfold SFleb.
  destruct a as [sa | sa | | sa ma ea]; cbn [SFcompare]; try discriminate; try reflexivity.
  - destruct sa; [reflexivity | discriminate].
  - destruct sa; [reflexivity |].
    destruct (Z.compare_spec ea e) as [-> | Hlt | Hgt]; try discriminate; [| reflexivity].
    fold (Pos.compare ma (Pos.succ m)). fold (Pos.compare ma m).
    destruct (Pos.compare_spec ma (Pos.succ m)) as [H | H | H]; try discriminate;
      intros _ Hne.
    + subst ma. contradiction Hne. reflexivity.
    + destruct (Pos.compare_spec ma m) as [H' | H' | H']; try reflexivity. lia.
Qed.

Lemma within_finite (B a : spec_float) :
  is_finite B = true -> within B a = true -> is_finite a = true.
Proof.
  unfold within. intros HB H. andb_elim H.
  destruct a as [s | s | | s m e]; try reflexivity.
  - destruct B as [sb | sb | | sb mb eb], s; discriminate.
  - destruct B; discriminate.
Qed.

(** The pitch bar has fewer than five asterisks exactly below the
    threshold. *)
Lemma pitch_threshold_bucket (angle : spec_float) :
  within HALF_PI_f angle = true ->
  exists b,
    static_cast_int (scale_half_pi angle) = Ok b /\
    (b < 5 <-> SFltb angle pitch_threshold = true).
Proof.
  intros Hin.
  destruct (SFltb angle pitch_threshold) eqn:Hlt.
  - apply SFltb_leb_pred in Hlt.
    change (S754_finite true (Pos.succ 11712707) (-24)) with pitch_threshold_pred in Hlt.
    destruct (scale_mono 13176795 (-23) 7074237752028440 (-51) angle pitch_threshold_pred)
      as (b & b' & Hb & Hb' & _ & Hbb & _); try lia; try assumption; try reflexivity.
    rewrite <- scale_half_pi_eq in Hb, Hb'.
    assert (Hfour : static_cast_int (scale_half_pi pitch_threshold_pred) = Ok 4)
      by (vm_compute; reflexivity).
    assert (b' = 4) by congruence. subst b'.
    exists b. split; [exact Hb |]. split; [reflexivity | lia].
  - apply SFltb_false_leb in Hlt; [| exact (within_finite HALF_PI_f _ eq_refl Hin) | reflexivity].
    destruct (scale_mono 13176795 (-23) 7074237752028440 (-51) pitch_threshold angle)
      as (b & b' & Hb & Hb' & _ & Hbb & _); try lia; try assumption; try reflexivity.
    rewrite <- scale_half_pi_eq in Hb, Hb'.
    assert (Hfive : static_cast_int (scale_half_pi pitch_threshold) = Ok 5)
      by (vm_compute; reflexivity).
    assert (b = 5) by congruence. subst b.
    exists b'. split; [exact Hb' |]. split; [lia | discriminate].
Qed.

(** After an orientation event whose pitch angle is in its range, a pose
    makes the device vibrate exactly when it is [fist] and that angle is
    below the threshold, the [float] [-11712707 * 2^-24] (0.69813 rad, 40
    degrees, below the horizontal). *)
Theorem vibrate_iff_pitch_below_threshold
    (this this' : DataCollector) (myo myo' : Myo) (timestamp timestamp' : Z)
    (quat : myo.Quaternion) (pose : Pose) :
  onOrientationData this myo timestamp quat = Ok this' ->
  within HALF_PI_f (pitch (normalized quat)) = true ->
  (snd (onPose this' myo' timestamp' pose) = [vibrate myo' myo.VibrationMedium] <->
   pose = fist /\ SFltb (pitch (normalized quat)) pitch_threshold = true) /\
  (snd (onPose this' myo' timestamp' pose) = [] <->
   ~ (pose = fist /\ SFltb (pitch (normalized quat)) pitch_threshold = true)).
Proof.
  intros Ho Hin.
  destruct (pitch_threshold_bucket _ Hin) as (b & Hb & Hiff).
  assert (Hp : pitch_w this' = b).
  { unfold onOrientationData in Ho. rewrite Hb in Ho.
    destruct (static_cast_int (scale_pi (roll (normalized quat)))); cbn [bind] in Ho;
      try discriminate.
    destruct (static_cast_int (scale_pi (yaw (normalized quat)))); cbn [bind] in Ho;
      try discriminate.
    injection Ho as <-. reflexivity. }
  rewrite <- Hp in Hiff.
  destruct (onPose_calls this' myo' timestamp' pose) as [(Hf & Hlt & ->) | (Hno & ->)].
  - split; split; try discriminate; intros H.
    + split; [exact Hf | apply Hiff; exact Hlt].
    + reflexivity.
    + exfalso. apply H. split; [exact Hf | apply Hiff; exact Hlt].
  - split; split; try discriminate; intros H.
    + exfalso. apply Hno. destruct H as [Hf Hl]. split; [exact Hf | apply Hiff; exact Hl].
    + intros [Hf Hl]. apply Hno. split; [exact Hf | apply Hiff; exact Hl].
    + reflexivity.
Qed.

Lemma spec_float_eq_dec (a b : spec_float) : {a = b} + {a <> b}.
Proof.
  decide equality; try apply Bool.bool_dec; try apply Pos.eq_dec; apply Z.eq_dec.
Qed.

(** A bar is full, 18 asterisks, for one angle only: the upper end of the
    range, [(float)M_PI] for roll and yaw and [(float)M_PI / 2.0f] for
    pitch.  Every other angle of the range gives at most 17. *)
Theorem full_bar_only_at_the_top (angle : spec_float) :
  (within M_PI_f angle = true ->
   exists b, static_cast_int (scale_pi angle) = Ok b /\ (b = 18 <-> angle = M_PI_f)) /\
  (within HALF_PI_f angle = true ->
   exists b, static_cast_int (scale_half_pi angle) = Ok b /\ (b = 18 <-> angle = HALF_PI_f)).
Proof.
  split; intros Hin.
  - destruct (spec_float_eq_dec angle M_PI_f) as [-> | Hne].
    + exists 18. split; [vm_compute; reflexivity | tauto].
    + pose proof Hin as Hin'. apply within_inv in Hin'. destruct Hin' as (_ & _ & Hle).
      change M_PI_f with (S754_finite false (Pos.succ 13176794) (-22)) in Hle, Hne.
      pose proof (SFleb_neq_pred _ _ _ Hle Hne) as Hpred.
      destruct (scale_mono 13176795 (-22) 7074237752028440 (-50) angle M_PI_f_pred)
        as (b & b' & Hb & Hb' & _ & Hbb & _); try lia; try assumption; try reflexivity.
      rewrite <- scale_pi_eq in Hb, Hb'.
      assert (H17 : static_cast_int (scale_pi M_PI_f_pred) = Ok 17) by (vm_compute; reflexivity).
      assert (b' = 17) by congruence. subst b'.
      exists b. split; [exact Hb |]. split; [lia | intros H; contradiction].
  - destruct (spec_float_eq_dec angle HALF_PI_f) as [-> | Hne].
    + exists 18. split; [vm_compute; reflexivity | tauto].
    + pose proof Hin as Hin'. apply within_inv in Hin'. destruct Hin' as (_ & _ & Hle).
      change HALF_PI_f with (S754_finite false (Pos.succ 13176794) (-23)) in Hle, Hne.
      pose proof (SFleb_neq_pred _ _ _ Hle Hne) as Hpred.
      destruct (scale_mono 13176795 (-23) 7074237752028440 (-51) angle HALF_PI_f_pred)
        as (b & b' & Hb & Hb' & _ & Hbb & _); try lia; try assumption; try reflexivity.
      rewrite <- scale_half_pi_eq in Hb, Hb'.
      assert (H17 : static_cast_int (scale_half_pi HALF_PI_f_pred) = Ok 17)
        by (vm_compute; reflexivity).
      assert (b' = 17) by congruence. subst b'.
      exists b. split; [exact Hb |]. split; [lia | intros H; contradiction].
Qed.

(** *** Quaternions whose norm underflows *)

(** The square of a float of magnitude at most [2^-75] is rounded to
    zero. *)
Lemma square_underflows (c : spec_float) :
  within tiny_bound c = true -> F32.mul c c = S754_zero false.
Proof.
  intros Hin. apply within_inv in Hin. destruct Hin as (Hvalid & Hlo & Hhi).
  pose proof (SFleb_magnitude 24 128 ltac:(lia) c 8388608 (-98) Hvalid ltac:(lia) Hlo Hhi)
    as Hmag.
  destruct c as [s | s | | s m e]; try contradiction.
  - destruct s; reflexivity.
  - cbn [F32.mul SFmul]. rewrite xorb_nilpotent. unfold F32.prec, F32.emax.
    (* the exact square is at most 2^-150 *)
    assert (Hc : (F2R (Zpos m) e <= powerRZ 2 (-75))%R).
    { apply (Rle_trans _ _ _ Hmag). unfold F2R.
      change (IZR (Z.pos 8388608)) with (IZR (2 ^ 23)). rewrite <- bpow_IZR, <- bpow_add by lia.
      apply bpow_le. lia. }
    assert (He : e <= -75).
    { assert (e < -75 + 1); [| lia]. apply bpow_lt_inv.
      assert (powerRZ 2 e <= F2R (Zpos m) e)%R.
      { unfold F2R. assert (1 <= IZR (Zpos m))%R by (apply IZR_le; lia).
        pose proof (bpow_pos e). nra. }
      assert (powerRZ 2 (-75) < powerRZ 2 (-75 + 1))%R.
      { rewrite bpow_add. change (powerRZ 2 1) with (2 * 1)%R.
        pose proof (bpow_pos (-75)). lra. }
      lra. }
    set (x := F2R (Zpos (m * m)) (e + e)).
    assert (Hx : (0 < x <= powerRZ 2 (-150))%R).
    { split; [apply F2R_pos |]. subst x. rewrite Pos2Z.inj_mul, <- F2R_mul.
      change (-150) with (-75 + -75). rewrite bpow_add.
      pose proof (F2R_pos m e). nra. }
    assert (Hfexp : fexp 24 128 (Zpos (digits2_pos (m * m)) + (e + e)) = -149).
    { pose proof (F2R_digits (m * m) (e + e)) as [Hd _]. fold x in Hd.
      assert (Zpos (digits2_pos (m * m)) - 1 + (e + e) < -150 + 1).
      { apply bpow_lt_inv. apply (Rle_lt_trans _ x); [exact Hd |].
        apply (Rle_lt_trans _ _ _ (proj2 Hx)).
        rewrite bpow_add. change (powerRZ 2 1) with (2 * 1)%R.
        pose proof (bpow_pos (-150)). lra. }
      unfold fexp, emin. lia. }
    pose proof (binary_round_aux_round_of 24 128 ltac:(lia) (m * m) (e + e) loc_Exact x) as Hr.
    specialize (Hr ltac:(cbn; reflexivity) ltac:(lia) ltac:(lia)).
    destruct Hr as (g & m2 & (Hg & Hhig & Hlog) & (Hm2 & Hn & Hev) & Hv).
    unfold emin in Hg, Hlog.
    assert (Hg' : g = -149).
    { destruct (Z.eq_dec g (-149)) as [Heq | Hne]; [exact Heq |]. exfalso.
      specialize (Hlog ltac:(lia)).
      assert (g + 24 - 1 < -150 + 1); [| lia].
      apply bpow_lt_inv. apply (Rle_lt_trans _ x); [exact Hlog |].
      apply (Rle_lt_trans _ _ _ (proj2 Hx)).
      rewrite bpow_add. change (powerRZ 2 1) with (2 * 1)%R.
      pose proof (bpow_pos (-150)). lra. }
    subst g.
    assert (Hm0 : m2 = 0).
    { pose proof (Rabs_bound _ _ Hn) as Hb. change (-149 - 1) with (-150) in Hb, Hev.
      unfold F2R in Hb, Hev. rewrite (bpow_half (-149)) in Hb, Hev.
      change (-149 - 1) with (-150) in Hb, Hev.
      pose proof (bpow_pos (-150)) as Hu.
      assert (Hle1 : m2 <= 1).
      { assert (IZR m2 < IZR 2)%R; [| apply lt_IZR in H; lia]. nra. }
      destruct (Z.eq_dec m2 1) as [H1 | H1]; [| lia]. exfalso. subst m2.
      assert (Hxe : x = powerRZ 2 (-150)) by nra.
      assert (Htie : Rabs (x - 1 * (2 * powerRZ 2 (-150))) = powerRZ 2 (-150)).
      { apply Rabs_eq_neg; [lra | rewrite Hxe; ring]. }
      specialize (Hev Htie). discriminate. }
    subst m2.
    destruct (binary_round_aux 24 128 false (Zpos (m * m)) (e + e) loc_Exact)
      as [s' | s' | | s' m' e']; cbn [has_value] in Hv; try contradiction.
    + destruct Hv as [-> _]. reflexivity.
    + destruct Hv as [_ Hv]. pose proof (F2R_pos m' e'). unfold F2R in Hv at 2. lra.
Qed.

Lemma norm_underflows (quat : myo.Quaternion) :
  tiny_quat quat = true -> norm quat = S754_zero false.
Proof.
  destruct quat as [x y z w]. unfold tiny_quat, norm. cbn [myo.x myo.y myo.z myo.w].
  intros H. andb_elim H.
  rewrite !square_underflows by assumption. reflexivity.
Qed.

Lemma div_zero_infinite_or_nan (c : spec_float) :
  infinite_or_nan (F32.div c (S754_zero false)).
Proof. destruct c; cbn; exact I. Qed.

Lemma mul_infinite_or_nan (a b : spec_float) :
  infinite_or_nan a -> infinite_or_nan b -> infinite_or_nan (F32.mul a b).
Proof. destruct a, b; cbn; try contradiction; auto. Qed.

Lemma sub_infinite_or_nan (a b : spec_float) :
  infinite_or_nan a -> infinite_or_nan b -> infinite_or_nan (F32.sub a b).
Proof.
  destruct a as [| sa | |], b as [| sb | |]; cbn; try contradiction; auto.
  destruct sa, sb; cbn; auto.
Qed.

Lemma two_infinite_or_nan (a : spec_float) : infinite_or_nan a -> infinite_or_nan (F32.mul F32.two a).
Proof. destruct a; cbn; try contradiction; auto. Qed.

(** The failure of the zero norm is not that of the zero quaternion only:
    when every component is at most [2^-75] in magnitude the four squares
    underflow to zero, the norm computed is zero, every normalized
    component is an infinity or a NaN, so is the argument of [asinf], and
    (the pitch being a NaN) the conversion to [int] is undefined. *)
Theorem underflowing_norm_is_undefined
    (this : DataCollector) (myo : Myo) (timestamp : Z) (quat : myo.Quaternion) :
  asinf S754_nan = S754_nan ->
  (forall s, asinf (S754_infinity s) = S754_nan) ->
  tiny_quat quat = true ->
  norm quat = F32.zero /\
  onOrientationData this myo timestamp quat = Undefined.
Proof.
  intros Hnan Hinf Htiny. pose proof (norm_underflows quat Htiny) as Hnorm.
  split; [exact Hnorm |].
  assert (Hp : pitch (normalized quat) = S754_nan).
  { unfold pitch, normalized. rewrite Hnorm.
    assert (Harg : infinite_or_nan
                     (F32.mul F32.two
                        (F32.sub (F32.mul (F32.div (myo.w quat) (S754_zero false))
                                          (F32.div (myo.y quat) (S754_zero false)))
                                 (F32.mul (F32.div (myo.z quat) (S754_zero false))
                                          (F32.div (myo.x quat) (S754_zero false)))))).
    { apply two_infinite_or_nan, sub_infinite_or_nan; apply mul_infinite_or_nan;
        apply div_zero_infinite_or_nan. }
    destruct (F32.mul F32.two _) as [| s | |]; try contradiction; auto. }
  unfold onOrientationData. rewrite Hp, scale_half_pi_nan.
  destruct (static_cast_int (scale_pi (roll (normalized quat)))) as [r | e |] eqn:Er;
    [reflexivity | | reflexivity].
  exfalso. exact (static_cast_int_no_throw _ _ Er).
Qed.

(** *** Quaternions whose norm overflows *)

Lemma shr_nonneg (mrs : shr_record) (e n : Z) :
  0 <= shr_m mrs -> 0 <= shr_m (fst (shr mrs e n)).
Proof.
  intros Hm. destruct n as [| p | p]; cbn [shr fst]; try exact Hm.
  apply iter_shr_1_nonneg. exact Hm.
Qed.

(** The rounding of a positive number is not negative and not a NaN. *)
Lemma binary_round_aux_non_negative (prec emax : Z) (mx : positive) (ex : Z) (lx : location) :
  non_negative (binary_round_aux prec emax false (Zpos mx) ex lx).
Proof.
  unfold binary_round_aux, shr_fexp.
  pose proof (shr_nonneg (shr_record_of_loc (Zpos mx) lx) ex
                (fexp prec emax (Zdigits2 (Zpos mx) + ex) - ex)) as H1.
  rewrite shr_record_of_loc_m in H1. specialize (H1 ltac:(lia)).
  destruct (shr (shr_record_of_loc (Zpos mx) lx) ex
              (fexp prec emax (Zdigits2 (Zpos mx) + ex) - ex)) as [mrs1 e1].
  cbn [fst] in H1.
  set (m2 := round_nearest_even (shr_m mrs1) (loc_of_shr_record mrs1)).
  assert (Hm2 : 0 <= m2).
  { destruct (round_nearest_even_step mrs1) as [Heq | [Heq _]]; fold m2 in Heq; lia. }
  pose proof (shr_nonneg (shr_record_of_loc m2 loc_Exact) e1
                (fexp prec emax (Zdigits2 m2 + e1) - e1)) as H2.
  rewrite shr_record_of_loc_m in H2. specialize (H2 Hm2).
  destruct (shr (shr_record_of_loc m2 loc_Exact) e1
              (fexp prec emax (Zdigits2 m2 + e1) - e1)) as [mrs2 e2].
  cbn [fst] in H2.
  destruct (shr_m mrs2) as [| p | p]; [reflexivity | | lia].
  destruct (e2 <=? emax - prec); reflexivity.
Qed.

Section Overflow.

Variables prec emax : Z.
Hypothesis prec_pos : 0 < prec.
Hypothesis emax_pos : emin prec emax <= emax - prec.

(** A located number whose exponent in the format is above the largest
    one is rounded to infinity. *)
Lemma binary_round_aux_overflow (mx : positive) (ex : Z) (lx : location) (x : R) :
  located (shr_record_of_loc (Zpos mx) lx) ex x ->
  ex <= fexp prec emax (Zpos (digits2_pos mx) + ex) ->
  emax - prec < fexp prec emax (Zpos (digits2_pos mx) + ex) ->
  binary_round_aux prec emax false (Zpos mx) ex lx = S754_infinity false.
Proof.
  intros Hloc Hex Hover.
  pose proof (located_cell _ _ _ Hloc) as Hcell. rewrite shr_record_of_loc_m in Hcell.
  pose proof (F2R_digits mx ex) as [Hxlo _].
  unfold binary_round_aux, shr_fexp. cbn [Zdigits2].
  set (g := fexp prec emax (Zpos (digits2_pos mx) + ex)) in *.
  assert (Hg : g = Zpos (digits2_pos mx) + ex - prec) by (subst g; unfold fexp in *; lia).
  pose proof (shr_located (shr_record_of_loc (Zpos mx) lx) ex (g - ex) x) as H1.
  rewrite shr_record_of_loc_m in H1. specialize (H1 ltac:(lia) Hloc).
  destruct (shr (shr_record_of_loc (Zpos mx) lx) ex (g - ex)) as [mrs1 e1].
  cbn [fst snd] in H1. destruct H1 as (Hl1 & Hm1 & He1).
  assert (He1g : e1 = g) by lia. clear He1. subst e1.
  pose proof (located_cell _ _ _ Hl1) as [_ Hc1].
  (* the mantissa is at least 2^(prec-1) *)
  assert (Hm1big : 2 ^ (prec - 1) <= shr_m mrs1).
  { assert (2 ^ (prec - 1) < shr_m mrs1 + 1); [| lia].
    apply (F2R_lt_inv _ _ g). apply (Rle_lt_trans _ x); [| exact Hc1].
    apply (Rle_trans _ (F2R (Zpos mx) ex)); [| lra].
    apply (Rle_trans _ (powerRZ 2 (Zpos (digits2_pos mx) - 1 + ex))); [| exact Hxlo].
    unfold F2R. rewrite <- bpow_IZR, <- bpow_add by lia. apply bpow_le. lia. }
  assert (Hpow : 0 < 2 ^ (prec - 1)) by (apply Z.pow_pos_nonneg; lia).
  set (m2 := round_nearest_even (shr_m mrs1) (loc_of_shr_record mrs1)).
  assert (Hm2 : 0 < m2).
  { destruct (round_nearest_even_step mrs1) as [Heq | [Heq _]]; fold m2 in Heq; lia. }
  destruct m2 as [| p2 | p2] eqn:Ep2; try lia.
  pose proof (shr_located (shr_record_of_loc (Zpos p2) loc_Exact) g
                (fexp prec emax (Zdigits2 (Zpos p2) + g) - g) (F2R (Zpos p2) g)) as H2.
  rewrite shr_record_of_loc_m in H2. specialize (H2 ltac:(lia) ltac:(cbn; reflexivity)).
  destruct (shr (shr_record_of_loc (Zpos p2) loc_Exact) g
              (fexp prec emax (Zdigits2 (Zpos p2) + g) - g)) as [mrs2 e2].
  cbn [fst snd] in H2. destruct H2 as (Hl2 & Hm3 & He2).
  pose proof (located_cell _ _ _ Hl2) as [_ Hc2].
  pose proof (F2R_digits p2 g) as [Hp2lo _].
  cbn [Zdigits2] in He2.
  assert (Hm3pos : 0 < shr_m mrs2).
  { assert (1 < shr_m mrs2 + 1); [| lia].
    apply (F2R_lt_inv _ _ e2). apply (Rle_lt_trans _ (F2R (Zpos p2) g)); [| exact Hc2].
    apply (Rle_trans _ (powerRZ 2 (Zpos (digits2_pos p2) - 1 + g))); [| exact Hp2lo].
    unfold F2R. rewrite Rmult_1_l. apply bpow_le. unfold fexp in He2. lia. }
  destruct (shr_m mrs2) as [| p3 | p3]; try lia.
  destruct (Z.leb_spec e2 (emax - prec)) as [Hle | Hgt]; [lia | reflexivity].
Qed.

End Overflow.

(** The square of a huge float is positive infinity. *)
Lemma square_overflows (c : spec_float) :
  huge c = true -> F32.mul c c = S754_infinity false.
Proof.
  unfold huge. intros H. andb_elim H. rename H into Hvalid, H0 into Hle, H1 into Hfin.
  destruct c as [s | s | | s m e]; try discriminate.
  cbn [F32.valid valid_binary] in Hvalid. unfold bounded, canonical_mantissa in Hvalid.
  apply andb_prop in Hvalid. destruct Hvalid as [Hcan _]. apply Z.eqb_eq in Hcan.
  assert (He : 41 <= e).
  { unfold SFleb, huge_bound in Hle. cbn [SFabs SFcompare] in Hle.
    destruct (Z.compare_spec 41 e) as [Heq | Hlt | Hgt]; try lia; discriminate. }
  assert (Hd : Zpos (digits2_pos m) = 24)
    by (unfold fexp, emin, F32.prec, F32.emax in Hcan; lia).
  destruct (digits2_bounds m) as [Hm _]. rewrite Hd in Hm. change (2 ^ (24 - 1)) with 8388608 in Hm.
  assert (Hd2 : 47 <= Zpos (digits2_pos (m * m))).
  { pose proof (mag_le 70368744177664 (m * m) 0 0) as Hmag.
    change (Zpos (digits2_pos 70368744177664)) with 47 in Hmag.
    assert (F2R 70368744177664 0 <= F2R (Zpos (m * m)) 0)%R by (apply F2R_le; nia).
    specialize (Hmag H). lia. }
  cbn [F32.mul SFmul]. rewrite xorb_nilpotent.
  apply (binary_round_aux_overflow 24 128 ltac:(lia) ltac:(unfold emin; lia)
           (m * m) (e + e) loc_Exact (F2R (Zpos (m * m)) (e + e))).
  - cbn. reflexivity.
  - unfold fexp, emin. lia.
  - unfold fexp, emin. lia.
Qed.

Lemma square_non_negative (c : spec_float) :
  is_finite c = true -> non_negative (F32.mul c c).
Proof.
  destruct c as [s | s | | s m e]; try discriminate; intros _; cbn [F32.mul SFmul].
  - cbn. apply xorb_nilpotent.
  - rewrite xorb_nilpotent. apply binary_round_aux_non_negative.
Qed.

Lemma add_non_negative (a b : spec_float) :
  non_negative a -> non_negative b -> non_negative (F32.add a b).
Proof.
  destruct a as [sa | sa | | sa ma ea], b as [sb | sb | | sb mb eb];
    cbn [non_negative]; intros Ha Hb; try contradiction; subst;
    cbn [F32.add SFadd non_negative]; auto.
  cbn [cond_Zopp]. cbn [Z.add binary_normalize]. unfold binary_round.
  destruct (shl_align _ _ _) as [mz ez].
  apply binary_round_aux_non_negative.
Qed.

Lemma add_infinity_l (b : spec_float) :
  non_negative b -> F32.add (S754_infinity false) b = S754_infinity false.
Proof. destruct b as [sb | sb | | sb mb eb]; cbn; intros H; subst; try contradiction; auto. Qed.

Lemma add_infinity_r (a : spec_float) :
  non_negative a -> F32.add a (S754_infinity false) = S754_infinity false.
Proof. destruct a as [sa | sa | | sa ma ea]; cbn; intros H; subst; try contradiction; auto. Qed.

(** The norm of a quaternion of finite floats one of which is huge is
    positive infinity. *)
Lemma norm_overflows (quat : myo.Quaternion) :
  huge_quat quat = true -> norm quat = S754_infinity false.
Proof.
  destruct quat as [x y z w]. unfold huge_quat, finite_quat, norm.
  cbn [myo.x myo.y myo.z myo.w]. intros H.
  apply andb_prop in H. destruct H as [H Hhuge].
  apply andb_prop in H. destruct H as [_ Fx]. andb_elim Fx.
  rename Fx0 into Fw, Fx1 into Fz, Fx2 into Fy.
  pose proof (square_non_negative x Fx) as Nx. pose proof (square_non_negative y Fy) as Ny.
  pose proof (square_non_negative z Fz) as Nz. pose proof (square_non_negative w Fw) as Nw.
  assert (Hsum : F32.add (F32.add (F32.add (F32.mul x x) (F32.mul y y)) (F32.mul z z))
                         (F32.mul w w) = S754_infinity false).
  { apply orb_prop in Hhuge. destruct Hhuge as [Hhuge | Hw].
    - apply orb_prop in Hhuge. destruct Hhuge as [Hhuge | Hz].
      + assert (Hxy : F32.add (F32.mul x x) (F32.mul y y) = S754_infinity false).
        { apply orb_prop in Hhuge. destruct Hhuge as [Hx | Hy].
          - rewrite (square_overflows x Hx). apply add_infinity_l. exact Ny.
          - rewrite (square_overflows y Hy). apply add_infinity_r. exact Nx. }
        rewrite Hxy, (add_infinity_l _ Nz). apply add_infinity_l. exact Nw.
      + rewrite (square_overflows z Hz), add_infinity_r by (apply add_non_negative; assumption).
        apply add_infinity_l. exact Nw.
    - rewrite (square_overflows w Hw). apply add_infinity_r.
      repeat apply add_non_negative; assumption. }
  rewrite Hsum. reflexivity.
Qed.

Lemma div_infinity (c : spec_float) :
  is_finite c = true -> exists s, F32.div c (S754_infinity false) = S754_zero s.
Proof.
  destruct c as [s | s | | s m e]; try discriminate; intros _;
    eexists; cbn [F32.div SFdiv]; reflexivity.
Qed.

Lemma angles_of_zeros (sx sy sz sw : bool) :
  let n := myo.mkQuaternion (S754_zero sx) (S754_zero sy) (S754_zero sz) (S754_zero sw) in
  (exists s, roll n = atan2f (S754_zero s) F32.one) /\
  (exists s, pitch n = asinf (S754_zero s)) /\
  (exists s, yaw n = atan2f (S754_zero s) F32.one).
Proof.
  destruct sx, sy, sz, sw; cbv zeta; repeat split; eexists; reflexivity.
Qed.

Lemma scale_zero (s : bool) :
  static_cast_int (scale_pi (S754_zero s)) = Ok 9 /\
  static_cast_int (scale_half_pi (S754_zero s)) = Ok 9.
Proof. destruct s; split; vm_compute; reflexivity. Qed.

(** When a component of a quaternion of finite floats is [2^64] or more in
    magnitude its square overflows: the norm computed is infinite, every
    normalized component is a zero, and (the arc tangent of a zero and 1
    and the arc sine of a zero being that zero) the three bars are at their
    middle, 9, whatever the rotation is. *)
Theorem overflowing_norm_shows_the_middle
    (this : DataCollector) (myo : Myo) (timestamp : Z) (quat : myo.Quaternion) :
  (forall s, atan2f (S754_zero s) F32.one = S754_zero s) ->
  (forall s, asinf (S754_zero s) = S754_zero s) ->
  huge_quat quat = true ->
  norm quat = S754_infinity false /\
  onOrientationData this myo timestamp quat
  = Ok (mkDataCollector 9 9 9 (currentPose this)).
Proof.
  intros Hatan Hasin Hhuge. pose proof (norm_overflows quat Hhuge) as Hnorm.
  split; [exact Hnorm |].
  assert (Hfin : finite_quat quat = true).
  { unfold huge_quat in Hhuge. apply andb_prop in Hhuge. destruct Hhuge as [H _].
    apply andb_prop in H. apply H. }
  unfold finite_quat in Hfin. andb_elim Hfin.
  destruct (div_infinity _ Hfin) as [sx Hx]. destruct (div_infinity _ Hfin2) as [sy Hy].
  destruct (div_infinity _ Hfin1) as [sz Hz]. destruct (div_infinity _ Hfin0) as [sw Hw].
  unfold onOrientationData, normalized. rewrite Hnorm, Hx, Hy, Hz, Hw.
  destruct (angles_of_zeros sx sy sz sw) as ([sr ->] & [sp ->] & [sy' ->]).
  rewrite !Hatan, Hasin.
  rewrite (proj1 (scale_zero sr)), (proj2 (scale_zero sp)), (proj1 (scale_zero sy')).
  reflexivity.
Qed.

(** *** Rotations about one axis *)

Lemma div_of_zero (c n : spec_float) :
  is_zero c = true -> is_finite (F32.div c n) = true -> is_zero (F32.div c n) = true.
Proof.
  destruct c as [s | s | | s m e]; try discriminate. intros _.
  destruct n as [sn | sn | | sn mn en]; cbn; auto.
Qed.

Lemma mul_zero_l (a b : spec_float) :
  is_zero a = true -> is_finite b = true -> is_zero (F32.mul a b) = true.
Proof.
  destruct a as [sa | sa | | sa ma ea]; try discriminate.
  destruct b as [sb | sb | | sb mb eb]; try discriminate; reflexivity.
Qed.

Lemma mul_zero_r (a b : spec_float) :
  is_finite a = true -> is_zero b = true -> is_zero (F32.mul a b) = true.
Proof.
  destruct b as [sb | sb | | sb mb eb]; try discriminate.
  destruct a as [sa | sa | | sa ma ea]; try discriminate; reflexivity.
Qed.

Lemma add_zeros (a b : spec_float) :
  is_zero a = true -> is_zero b = true -> is_zero (F32.add a b) = true.
Proof.
  destruct a as [sa | sa | | sa ma ea], b as [sb | sb | | sb mb eb]; try discriminate.
  destruct sa, sb; reflexivity.
Qed.

Lemma sub_zeros (a b : spec_float) :
  is_zero a = true -> is_zero b = true -> is_zero (F32.sub a b) = true.
Proof.
  destruct a as [sa | sa | | sa ma ea], b as [sb | sb | | sb mb eb]; try discriminate.
  destruct sa, sb; reflexivity.
Qed.

Lemma two_zero (a : spec_float) : is_zero a = true -> is_zero (F32.mul F32.two a) = true.
Proof. destruct a; try discriminate; reflexivity. Qed.

Lemma is_zero_finite (a : spec_float) : is_zero a = true -> is_finite a = true.
Proof. destruct a; try discriminate; reflexivity. Qed.

(** One minus twice the sum of the squares of two zeros is one. *)
Lemma one_minus_zeros (a b : spec_float) :
  is_zero a = true -> is_zero b = true ->
  F32.sub F32.one (F32.mul F32.two (F32.add (F32.mul a a) (F32.mul b b))) = F32.one.
Proof.
  destruct a as [sa | sa | | sa ma ea], b as [sb | sb | | sb mb eb]; try discriminate.
  destruct sa, sb; reflexivity.
Qed.

Lemma is_zero_inv (a : spec_float) : is_zero a = true -> exists s, a = S754_zero s.
Proof. destruct a as [s | | |]; try discriminate. exists s. reflexivity. Qed.

(** A rotation about the roll axis ([y] and [z] are zeros) moves the roll
    bar only, and a rotation about the yaw axis ([x] and [y] are zeros) the
    yaw bar only: the other two bars are at their middle, 9.  The
    normalized quaternion is supposed to be made of finite floats, and the
    arc tangent of a zero and 1 and the arc sine of a zero to be that
    zero. *)
Theorem rotation_about_one_axis
    (this : DataCollector) (myo : Myo) (timestamp : Z) (quat : myo.Quaternion) :
  (forall s, atan2f (S754_zero s) F32.one = S754_zero s) ->
  (forall s, asinf (S754_zero s) = S754_zero s) ->
  finite_quat (normalized quat) = true ->
  (is_zero (myo.y quat) = true -> is_zero (myo.z quat) = true ->
   onOrientationData this myo timestamp quat
   = (r <- static_cast_int (scale_pi (roll (normalized quat))) ;;
      Ok (mkDataCollector r 9 9 (currentPose this)))) /\
  (is_zero (myo.x quat) = true -> is_zero (myo.y quat) = true ->
   onOrientationData this myo timestamp quat
   = (y <- static_cast_int (scale_pi (yaw (normalized quat))) ;;
      Ok (mkDataCollector 9 9 y (currentPose this)))).
Proof.
  intros Hatan Hasin Hfin. unfold finite_quat in Hfin. andb_elim Hfin.
  rename Hfin into Fx, Hfin2 into Fy, Hfin1 into Fz, Hfin0 into Fw.
  unfold onOrientationData.
  destruct (normalized quat) as [nx ny nz nw] eqn:En.
  assert (Ex : nx = F32.div (myo.x quat) (norm quat)) by (unfold normalized in En; congruence).
  assert (Ey : ny = F32.div (myo.y quat) (norm quat)) by (unfold normalized in En; congruence).
  assert (Ez : nz = F32.div (myo.z quat) (norm quat)) by (unfold normalized in En; congruence).
  cbn [myo.x myo.y myo.z myo.w] in Fx, Fy, Fz, Fw.
  split.
  - intros Hy Hz.
    assert (Zy : is_zero ny = true) by (subst ny; apply div_of_zero; [exact Hy | congruence]).
    assert (Zz : is_zero nz = true) by (subst nz; apply div_of_zero; [exact Hz | congruence]).
    assert (Hp : exists s, pitch (myo.mkQuaternion nx ny nz nw) = S754_zero s).
    { cbn [pitch].
      destruct (is_zero_inv (F32.mul F32.two (F32.sub (F32.mul nw ny) (F32.mul nz nx))))
        as [s Hs].
      - apply two_zero, sub_zeros; [apply mul_zero_r | apply mul_zero_l]; assumption.
      - exists s. rewrite Hs. apply Hasin. }
    assert (Hyaw : exists s, yaw (myo.mkQuaternion nx ny nz nw) = S754_zero s).
    { cbn [yaw]. rewrite (one_minus_zeros ny nz Zy Zz).
      destruct (is_zero_inv (F32.mul F32.two (F32.add (F32.mul nw nz) (F32.mul nx ny))))
        as [s Hs].
      - apply two_zero, add_zeros; apply mul_zero_r; assumption.
      - exists s. rewrite Hs. apply Hatan. }
    destruct Hp as [sp ->]. destruct Hyaw as [sy ->].
    rewrite (proj2 (scale_zero sp)), (proj1 (scale_zero sy)).
    destruct (static_cast_int (scale_pi (roll (myo.mkQuaternion nx ny nz nw))));
      reflexivity.
  - intros Hx Hy.
    assert (Zx : is_zero nx = true) by (subst nx; apply div_of_zero; [exact Hx | congruence]).
    assert (Zy : is_zero ny = true) by (subst ny; apply div_of_zero; [exact Hy | congruence]).
    assert (Hr : exists s, roll (myo.mkQuaternion nx ny nz nw) = S754_zero s).
    { cbn [roll]. rewrite (one_minus_zeros nx ny Zx Zy).
      destruct (is_zero_inv (F32.mul F32.two (F32.add (F32.mul nw nx) (F32.mul ny nz))))
        as [s Hs].
      - apply two_zero, add_zeros; [apply mul_zero_r | apply mul_zero_l]; assumption.
      - exists s. rewrite Hs. apply Hatan. }
    assert (Hp : exists s, pitch (myo.mkQuaternion nx ny nz nw) = S754_zero s).
    { cbn [pitch].
      destruct (is_zero_inv (F32.mul F32.two (F32.sub (F32.mul nw ny) (F32.mul nz nx))))
        as [s Hs].
      - apply two_zero, sub_zeros; apply mul_zero_r; assumption.
      - exists s. rewrite Hs. apply Hasin. }
    destruct Hr as [sr ->]. destruct Hp as [sp ->].
    rewrite (proj1 (scale_zero sr)), (proj2 (scale_zero sp)). cbn [bind].
    destruct (static_cast_int (scale_pi (yaw (myo.mkQuaternion nx ny nz nw))));
      reflexivity.
Qed.

(** Nine asterisks are the neutral position of a bar: an angle of the
    range gets at least 9 when it is not negative and at most 9 when it is
    not positive, so more than 9 asterisks mean a positive angle and fewer
    than 9 a negative one. *)
Theorem middle_bar_separates_signs (angle : spec_float) :
  (within M_PI_f angle = true ->
   exists b,
     static_cast_int (scale_pi angle) = Ok b /\
     (SFleb F32.zero angle = true -> 9 <= b) /\
     (SFleb angle F32.zero = true -> b <= 9)) /\
  (within HALF_PI_f angle = true ->
   exists b,
     static_cast_int (scale_half_pi angle) = Ok b /\
     (SFleb F32.zero angle = true -> 9 <= b) /\
     (SFleb angle F32.zero = true -> b <= 9)).
Proof.
  split; intros Hin.
  - destruct (scale_pi_bucket angle Hin) as (b & Hb & _).
    exists b. split; [exact Hb |]. split; intros Hle.
    + destruct (scale_mono 13176795 (-22) 7074237752028440 (-50) F32.zero angle)
        as (b0 & b' & Hb0 & Hb' & _ & Hbb & _); try lia; try assumption; try reflexivity.
      rewrite <- scale_pi_eq in Hb0, Hb'. unfold F32.zero in Hb0, Hb'.
      rewrite (proj1 (scale_zero false)) in Hb0. congruence.
    + destruct (scale_mono 13176795 (-22) 7074237752028440 (-50) angle F32.zero)
        as (b0 & b' & Hb0 & Hb' & _ & Hbb & _); try lia; try assumption; try reflexivity.
      rewrite <- scale_pi_eq in Hb0, Hb'. unfold F32.zero in Hb0, Hb'.
      rewrite (proj1 (scale_zero false)) in Hb'. congruence.
  - destruct (scale_half_pi_bucket angle Hin) as (b & Hb & _).
    exists b. split; [exact Hb |]. split; intros Hle.
    + destruct (scale_mono 13176795 (-23) 7074237752028440 (-51) F32.zero angle)
        as (b0 & b' & Hb0 & Hb' & _ & Hbb & _); try lia; try assumption; try reflexivity.
      rewrite <- scale_half_pi_eq in Hb0, Hb'. unfold F32.zero in Hb0, Hb'.
      rewrite (proj2 (scale_zero false)) in Hb0. congruence.
    + destruct (scale_mono 13176795 (-23) 7074237752028440 (-51) angle F32.zero)
        as (b0 & b' & Hb0 & Hb' & _ & Hbb & _); try lia; try assumption; try reflexivity.
      rewrite <- scale_half_pi_eq in Hb0, Hb'. unfold F32.zero in Hb0, Hb'.
      rewrite (proj2 (scale_zero false)) in Hb'. congruence.
Qed.

End Program.

(** ** Closed instances

    The theorems above applied to, and the model evaluated on, the sample
    instance of the parameters. *)

Lemma identity_quaternion_buckets_sample :
  roll Sample.atan2f (normalized identity_quat) = F32.zero /\
  pitch Sample.asinf (normalized identity_quat) = F32.zero /\
  yaw Sample.atan2f (normalized identity_quat) = F32.zero /\
  onOrientationData Sample.atan2f Sample.asinf Sample.Myo Sample.Pose
    (DataCollector_new Sample.Pose Sample.Pose_default) 0 0 identity_quat
  = Ok (mkDataCollector Sample.Pose 9 9 9 Sample.Pose_default).
Proof.
  apply (identity_quaternion_buckets Sample.atan2f Sample.asinf Sample.Myo Sample.Pose
           (DataCollector_new Sample.Pose Sample.Pose_default) 0 0);
    reflexivity.
Defined.

Lemma gauge_renders_bar_sample :
  gauge 5 = Ok (bar 5) /\
  String.length (bar 5) = 20%nat /\
  (forall this : DataCollector Sample.Pose,
     bars_in_range Sample.Pose this ->
     (String.length (Sample.toString (currentPose Sample.Pose this)) <= 16)%nat ->
     print Sample.Pose Sample.toString this =
       Ok (this,
           String "013"%char
             (bar (roll_w Sample.Pose this) ++ bar (pitch_w Sample.Pose this)
              ++ bar (yaw_w Sample.Pose this)
              ++ padded_name (Sample.toString (currentPose Sample.Pose this)))%string)).
Proof.
  apply (gauge_renders_bar Sample.Pose Sample.toString 5). lia.
Defined.

(** The line printed for bars 3, 18 and 0 and the pose [fist]. *)
Lemma print_sample :
  print Sample.Pose Sample.toString (mkDataCollector Sample.Pose 3 18 0 Sample.fist)
  = Ok (mkDataCollector Sample.Pose 3 18 0 Sample.fist,
        String "013"%char
          "[***               ][******************][                  ][fist            ]"%string).
Proof. reflexivity. Qed.

Lemma name_field_pads_short_names_sample :
  let this := mkDataCollector Sample.Pose 0 0 0 "fingersSpread"%string in
  let name := Sample.toString (currentPose Sample.Pose this) in
  ((String.length name <= 16)%nat ->
     name_field name = Ok (padded_name name) /\
     String.length (padded_name name) = 18%nat) /\
  ((16 < String.length name)%nat ->
     name_field name = Throw length_error /\
     forall r, print Sample.Pose Sample.toString this <> Ok r) /\
  (forall field, name_field name = Ok field ->
     (String.length name <= 16)%nat /\ field = padded_name name).
Proof.
  apply (name_field_pads_short_names Sample.Pose Sample.toString
           (mkDataCollector Sample.Pose 0 0 0 "fingersSpread"%string)).
  unfold string_size, string_max_size. cbn. lia.
Defined.

(** A gesture whose name has 17 characters: the field is neither padded
    nor truncated to 16 characters, [print] throws instead. *)
Lemma long_name_is_not_fitted :
  String.length (Sample.toString "fingersSpreadWide"%string) = 17%nat /\
  name_field (Sample.toString "fingersSpreadWide"%string) = Throw length_error /\
  print Sample.Pose Sample.toString
    (mkDataCollector Sample.Pose 0 0 0 "fingersSpreadWide"%string) = Throw length_error /\
  ~ (forall this : DataCollector Sample.Pose,
       exists body,
         String.length body = 16%nat /\
         name_field (Sample.toString (currentPose Sample.Pose this))
         = Ok ("[" ++ body ++ "]")%string).
Proof.
  repeat split; try reflexivity.
  intros H.
  destruct (H (mkDataCollector Sample.Pose 0 0 0 "fingersSpreadWide"%string)) as (body & _ & Hf).
  discriminate Hf.
Qed.

(** The all-zero quaternion: the norm is zero, every component of the
    normalized quaternion is the NaN of 0/0, and the conversion to [int] is
    undefined. *)
Lemma zero_norm_is_undefined :
  norm zero_quat = F32.zero /\
  normalized zero_quat = myo.mkQuaternion S754_nan S754_nan S754_nan S754_nan /\
  onOrientationData Sample.atan2f Sample.asinf Sample.Myo Sample.Pose
    (DataCollector_new Sample.Pose Sample.Pose_default) 0 0 zero_quat = Undefined /\
  ~ (forall quat : myo.Quaternion,
       exists this',
         onOrientationData Sample.atan2f Sample.asinf Sample.Myo Sample.Pose
           (DataCollector_new Sample.Pose Sample.Pose_default) 0 0 quat = Ok this').
Proof.
  repeat split; try reflexivity.
  intros H. destruct (H zero_quat) as (this' & Hd). discriminate Hd.
Qed.

Lemma normalized_unit_quaternion_sample :
  let quat := myo.mkQuaternion (S754_finite false 8388608 (-24))
                               (S754_finite true 8388608 (-24))
                               (S754_finite false 8388608 (-24))
                               (S754_finite true 8388608 (-24)) in
  (norm quat = F32.one -> normalized quat = quat) /\
  (near_one (norm quat) = true -> unit_range quat = true ->
   close (myo.x (normalized quat)) (myo.x quat) /\
   close (myo.y (normalized quat)) (myo.y quat) /\
   close (myo.z (normalized quat)) (myo.z quat) /\
   close (myo.w (normalized quat)) (myo.w quat)).
Proof.
  apply normalized_unit_quaternion. reflexivity.
Defined.

(** Where the norm computed is not exactly 1 the components do move: here
    each by one unit in its last place. *)
Lemma rounded_unit_quat_moves :
  valid_quat rounded_unit_quat = true /\
  unit_range rounded_unit_quat = true /\
  norm rounded_unit_quat = S754_finite false 16777215 (-24) /\
  near_one (norm rounded_unit_quat) = true /\
  normalized rounded_unit_quat
  = myo.mkQuaternion (S754_finite true 8957918 (-26)) (S754_finite true 9039370 (-26))
                     (S754_finite false 16416442 (-24)) (S754_finite false 10890831 (-27)).
Proof. repeat split. Qed.

(** A fist made with the arm down vibrates; made with the arm level it does
    not. *)
Lemma vibrate_sample :
  snd (onPose Sample.Myo Sample.Pose Sample.Pose_eq_dec Sample.fist
         (mkDataCollector Sample.Pose 9 4 9 "rest"%string) 7 0 Sample.fist)
  = [vibrate Sample.Myo 7 myo.VibrationMedium] /\
  snd (onPose Sample.Myo Sample.Pose Sample.Pose_eq_dec Sample.fist
         (mkDataCollector Sample.Pose 9 9 9 "rest"%string) 7 0 Sample.fist)
  = [].
Proof. split; reflexivity. Qed.

Lemma right_angle_pitch_is_undefined_sample :
  onOrientationData Sample.atan2f Sample.asinf Sample.Myo Sample.Pose
    (DataCollector_new Sample.Pose Sample.Pose_default) 0 0 right_angle_quat
  = Undefined.
Proof.
  apply (right_angle_pitch_is_undefined Sample.atan2f Sample.asinf Sample.Myo Sample.Pose).
  reflexivity.
Defined.

Lemma main_keeps_running_sample :
  snd (main Sample.atan2f Sample.asinf Sample.Myo Sample.macAddress Sample.Pose
         Sample.Pose_eq_dec Sample.Pose_default Sample.fist
         (fun _ => "fist"%string) Sample.length_error_what (Some 7)
         [[OrientationData Sample.Myo Sample.Pose 7 0 identity_quat;
           PoseEvent Sample.Myo Sample.Pose 7 1 Sample.fist];
          [PoseEvent Sample.Myo Sample.Pose 7 2 "rest"%string]])
  = Running.
Proof.
  apply (main_keeps_running Sample.atan2f Sample.asinf Sample.Myo Sample.macAddress
           Sample.Pose Sample.Pose_eq_dec Sample.Pose_default Sample.fist
           (fun _ => "fist"%string) Sample.length_error_what).
  - intros pose. cbn. lia.
  - reflexivity.
Defined.

(** A roll bar of 19: no line is printed, [print] throws. *)
Lemma print_throws_outside_range_sample :
  let this := mkDataCollector Sample.Pose 19 0 0 Sample.fist in
  (print Sample.Pose Sample.toString this = Throw length_error <->
   ~ (bars_in_range Sample.Pose this /\
      (String.length (Sample.toString (currentPose Sample.Pose this)) <= 16)%nat)) /\
  ((exists out, print Sample.Pose Sample.toString this = Ok (this, out)) <->
   bars_in_range Sample.Pose this /\
   (String.length (Sample.toString (currentPose Sample.Pose this)) <= 16)%nat).
Proof.
  apply (print_throws_outside_range Sample.Pose Sample.toString
           (mkDataCollector Sample.Pose 19 0 0 Sample.fist)); try reflexivity.
  unfold string_size, string_max_size. cbn. lia.
Defined.


(** A quaternion whose first component is a NaN. *)
Lemma non_finite_component_is_undefined_sample :
  let quat := myo.mkQuaternion S754_nan F32.zero F32.zero F32.one in
  overflowed (norm quat) /\
  pitch Sample.asinf (normalized quat) = S754_nan /\
  onOrientationData Sample.atan2f Sample.asinf Sample.Myo Sample.Pose
    (DataCollector_new Sample.Pose Sample.Pose_default) 0 0 quat = Undefined.
Proof.
  apply (non_finite_component_is_undefined Sample.atan2f Sample.asinf Sample.Myo Sample.Pose);
    reflexivity.
Defined.

(** Two orientation events and two pose events: the second of each is
    what the collector holds afterwards. *)
Lemma run_keeps_the_latest_sample :
  let this := DataCollector_new Sample.Pose Sample.Pose_default in
  let this' := mkDataCollector Sample.Pose 9 9 9 "rest"%string in
  let events :=
    [PoseEvent Sample.Myo Sample.Pose 7 0 Sample.fist;
     OrientationData Sample.Myo Sample.Pose 7 1 (neg_quat identity_quat);
     PoseEvent Sample.Myo Sample.Pose 7 2 "rest"%string;
     OrientationData Sample.Myo Sample.Pose 7 3 identity_quat] in
  currentPose Sample.Pose this' = last_pose Sample.Myo Sample.Pose events
                                    (currentPose Sample.Pose this) /\
  bars Sample.Pose (Ok this')
  = match last_quat Sample.Myo Sample.Pose events None with
    | Some quat =>
        bars Sample.Pose
          (onOrientationData Sample.atan2f Sample.asinf Sample.Myo Sample.Pose this 7 0 quat)
    | None => bars Sample.Pose (Ok this)
    end.
Proof.
  apply (run_keeps_the_latest Sample.atan2f Sample.asinf Sample.Myo Sample.Pose
           Sample.Pose_eq_dec Sample.fist
           (DataCollector_new Sample.Pose Sample.Pose_default)
           (mkDataCollector Sample.Pose 9 9 9 "rest"%string) _
           [vibrate Sample.Myo 7 myo.VibrationMedium] 7 0).
  reflexivity.
Defined.

(** No device: the exit status is 1. *)
Lemma main_exits_only_on_error_sample :
  let result :=
    main Sample.atan2f Sample.asinf Sample.Myo Sample.macAddress Sample.Pose
      Sample.Pose_eq_dec Sample.Pose_default Sample.fist Sample.toString
      Sample.length_error_what None [] in
  1 = 1 /\
  exists before e,
    fst result
    = before ++ [cerr Sample.Myo ("Error: " ++ what Sample.length_error_what e ++ endl);
                 cerr Sample.Myo "Press enter to continue."; cin_ignore Sample.Myo]%string /\
    ((@None Sample.Myo = None /\ e = runtime_error "Unable to find a Myo!") \/
     (@None Sample.Myo <> None /\ e = length_error)).
Proof.
  apply (main_exits_only_on_error Sample.atan2f Sample.asinf Sample.Myo Sample.macAddress
           Sample.Pose Sample.Pose_eq_dec Sample.Pose_default Sample.fist Sample.toString
           Sample.length_error_what None [] 1).
  reflexivity.
Defined.

(** Three pose events on a new collector: both fists vibrate. *)
Lemma fist_before_orientation_vibrates_sample :
  run Sample.atan2f Sample.asinf Sample.Myo Sample.Pose Sample.Pose_eq_dec Sample.fist
    (DataCollector_new Sample.Pose Sample.Pose_default)
    [PoseEvent Sample.Myo Sample.Pose 7 0 Sample.fist;
     PoseEvent Sample.Myo Sample.Pose 7 1 "rest"%string;
     PoseEvent Sample.Myo Sample.Pose 8 2 Sample.fist]
  = Ok (mkDataCollector Sample.Pose 0 0 0 Sample.fist,
        [vibrate Sample.Myo 7 myo.VibrationMedium; vibrate Sample.Myo 8 myo.VibrationMedium]).
Proof.
  apply (fist_before_orientation_vibrates Sample.atan2f Sample.asinf Sample.Myo Sample.Pose
           Sample.Pose_eq_dec Sample.Pose_default Sample.fist
           [PoseEvent Sample.Myo Sample.Pose 7 0 Sample.fist;
            PoseEvent Sample.Myo Sample.Pose 7 1 "rest"%string;
            PoseEvent Sample.Myo Sample.Pose 8 2 Sample.fist]).
  reflexivity.
Defined.

(** The address 0x0123456789ab is shown as [0123456789ab]. *)
Lemma address_is_shown_in_full_sample :
  let digits := setw 12 "0" (to_hex (Sample.macAddress 1250999896491)) in
  (exists rest,
     fst (main Sample.atan2f Sample.asinf Sample.Myo Sample.macAddress Sample.Pose
            Sample.Pose_eq_dec Sample.Pose_default Sample.fist Sample.toString
            Sample.length_error_what (Some 1250999896491) [])
     = [cout Sample.Myo ("Bike signs." ++ endl);
        cout Sample.Myo ("Attempting to find a Myo..." ++ endl);
        cout Sample.Myo ("Connected to " ++ digits ++ "." ++ endl ++ endl)]%string ++ rest) /\
  hex_value digits = Sample.macAddress 1250999896491 /\
  (Sample.macAddress 1250999896491 < 2 ^ 48 -> String.length digits = 12%nat) /\
  (2 ^ 48 <= Sample.macAddress 1250999896491 -> (12 < String.length digits)%nat).
Proof.
  apply (address_is_shown_in_full Sample.atan2f Sample.asinf Sample.Myo Sample.macAddress
           Sample.Pose Sample.Pose_eq_dec Sample.Pose_default Sample.fist Sample.toString
           Sample.length_error_what 1250999896491 []).
  unfold Sample.macAddress. lia.
Defined.

(** The angles -1 and 1 radian: 3 and 14 asterisks for roll or yaw, 3 and
    14 for pitch. *)
Lemma bars_are_monotone_sample :
  let angle := S754_finite true 8388608 (-23) in
  let angle' := S754_finite false 8388608 (-23) in
  (within M_PI_f angle = true -> within M_PI_f angle' = true ->
   exists b b',
     static_cast_int (scale_pi angle) = Ok b /\
     static_cast_int (scale_pi angle') = Ok b' /\ b <= b') /\
  (within HALF_PI_f angle = true -> within HALF_PI_f angle' = true ->
   exists b b',
     static_cast_int (scale_half_pi angle) = Ok b /\
     static_cast_int (scale_half_pi angle') = Ok b' /\ b <= b').
Proof.
  apply (bars_are_monotone (S754_finite true 8388608 (-23)) (S754_finite false 8388608 (-23))).
  reflexivity.
Defined.

(** With the arm level (the identity quaternion, pitch 0) a fist does not
    vibrate: 0 is not below the threshold. *)
Lemma vibrate_iff_pitch_below_threshold_sample :
  let this' := mkDataCollector Sample.Pose 9 9 9 Sample.Pose_default in
  (snd (onPose Sample.Myo Sample.Pose Sample.Pose_eq_dec Sample.fist this' 7 1 Sample.fist)
   = [vibrate Sample.Myo 7 myo.VibrationMedium] <->
   Sample.fist = Sample.fist /\
   SFltb (pitch Sample.asinf (normalized identity_quat)) pitch_threshold = true) /\
  (snd (onPose Sample.Myo Sample.Pose Sample.Pose_eq_dec Sample.fist this' 7 1 Sample.fist)
   = [] <->
   ~ (Sample.fist = Sample.fist /\
      SFltb (pitch Sample.asinf (normalized identity_quat)) pitch_threshold = true)).
Proof.
  apply (vibrate_iff_pitch_below_threshold Sample.atan2f Sample.asinf Sample.Myo Sample.Pose
           Sample.Pose_eq_dec Sample.fist
           (DataCollector_new Sample.Pose Sample.Pose_default)
           (mkDataCollector Sample.Pose 9 9 9 Sample.Pose_default) 7 7 0 1 identity_quat
           Sample.fist); reflexivity.
Defined.

(** Every component is [2^-80] in magnitude: the norm computed is zero. *)
Lemma underflowing_norm_is_undefined_sample :
  let quat := myo.mkQuaternion (S754_finite false 8388608 (-103))
                               (S754_finite true 8388608 (-103))
                               (S754_finite false 8388608 (-103))
                               (S754_finite false 8388608 (-103)) in
  norm quat = F32.zero /\
  onOrientationData Sample.atan2f Sample.asinf Sample.Myo Sample.Pose
    (DataCollector_new Sample.Pose Sample.Pose_default) 0 0 quat = Undefined.
Proof.
  apply (underflowing_norm_is_undefined Sample.atan2f Sample.asinf Sample.Myo Sample.Pose);
    reflexivity.
Defined.

(** The quaternion [(2^64, 0, 0, 1)], a rotation by almost half a turn
    about the roll axis, is shown as no rotation at all. *)
Lemma overflowing_norm_shows_the_middle_sample :
  let quat := myo.mkQuaternion (S754_finite false 8388608 41) F32.zero F32.zero F32.one in
  norm quat = S754_infinity false /\
  onOrientationData Sample.atan2f Sample.asinf Sample.Myo Sample.Pose
    (DataCollector_new Sample.Pose Sample.Pose_default) 0 0 quat
  = Ok (mkDataCollector Sample.Pose 9 9 9 Sample.Pose_default).
Proof.
  apply (overflowing_norm_shows_the_middle Sample.atan2f Sample.asinf Sample.Myo Sample.Pose
           (DataCollector_new Sample.Pose Sample.Pose_default));
    reflexivity.
Defined.

(** The quaternion [(3, 0, 0, 4)], normalized to [(0.6, 0, 0, 0.8)]. *)
Lemma rotation_about_one_axis_sample :
  let this := DataCollector_new Sample.Pose Sample.Pose_default in
  let quat := myo.mkQuaternion (S754_finite false 12582912 (-22)) F32.zero F32.zero
                               (S754_finite false 8388608 (-21)) in
  (is_zero (myo.y quat) = true -> is_zero (myo.z quat) = true ->
   onOrientationData Sample.atan2f Sample.asinf Sample.Myo Sample.Pose this 0 0 quat
   = (r <- static_cast_int (scale_pi (roll Sample.atan2f (normalized quat))) ;;
      Ok (mkDataCollector Sample.Pose r 9 9 (currentPose Sample.Pose this)))) /\
  (is_zero (myo.x quat) = true -> is_zero (myo.y quat) = true ->
   onOrientationData Sample.atan2f Sample.asinf Sample.Myo Sample.Pose this 0 0 quat
   = (y <- static_cast_int (scale_pi (yaw Sample.atan2f (normalized quat))) ;;
      Ok (mkDataCollector Sample.Pose 9 9 y (currentPose Sample.Pose this)))).
Proof.
  apply (rotation_about_one_axis Sample.atan2f Sample.asinf Sample.Myo Sample.Pose
           (DataCollector_new Sample.Pose Sample.Pose_default) 0 0);
    reflexivity.
Defined.
